(** * Rigid-transform algebra and rotation distances of
      [torch_kinematics_tree/geometrics/utils.py]

    The Python module works on torch tensors (and, in [MinMaxScaler], on
    numpy arrays).  A tensor is modelled by its shape together with its
    indexing function; every operation that torch can refuse (a dimension out
    of range, shapes that do not broadcast, a matmul whose inner sizes differ)
    returns in a small error monad, with the class of the Python exception.

    Entries are real numbers: the rounding of float32/float64 arithmetic is
    not modelled, and [torch.acos], [np.arccos] and [np.sqrt] are the
    Standard Library's [acos] and [sqrt].  [torch.jit.script] compiles the
    three transform functions without changing what they compute. *)

From Stdlib Require Import String.
From Stdlib Require Import Reals Lra Lia List ZArith Bool.
Import ListNotations.
Open Scope R_scope.

(** ** Exceptions and the error monad *)

Inductive exn : Type :=
| ValueError (msg : string)
| IndexError
| RuntimeError
| AxisError
| TypeError.

Inductive result (A : Type) : Type :=
| Ok (a : A)
| Raise (e : exn).

Arguments Ok {A} a.
Arguments Raise {A} e.

Definition bind {A B : Type} (r : result A) (k : A -> result B) : result B :=
  match r with
  | Ok a => k a
  | Raise e => Raise e
  end.

Notation "x <- e ;; k" := (bind e (fun x => k))
  (at level 61, e at next level, right associativity).
Notation "' ( x , y ) <- e ;; k" := (bind e (fun '(x, y) => k))
  (at level 61, x name, y name, e at next level, right associativity).

Definition raises {A : Type} (r : result A) : Prop := exists e, r = Raise e.

(** ** Tensors

    [rdims] lists the sizes innermost first (the reverse of
    [Tensor.shape]) and [rget] takes an index in the same order, so that the
    trailing dimensions, which every function of the module addresses with
    [-1] and [-2], are at the head of the list.  [shape] gives the sizes in
    torch's order. *)

Record tensor : Type := mkT { rdims : list nat; rget : list nat -> R }.

Definition shape (t : tensor) : list nat := rev (rdims t).
Definition ndim (t : tensor) : nat := length (rdims t).
Definition at_index (t : tensor) (idx : list nat) : R := rget t (rev idx).

(** An index is in range when it has one entry per dimension, each below
    the size. *)
Definition in_range (rd idx : list nat) : Prop := Forall2 lt idx rd.

(** Two tensors with the same shape and the same entries. *)
Definition tensor_eq (a b : tensor) : Prop :=
  rdims a = rdims b /\ forall idx, in_range (rdims a) idx -> rget a idx = rget b idx.

Definition result_eq (r1 r2 : result tensor) : Prop :=
  match r1, r2 with
  | Ok a, Ok b => tensor_eq a b
  | Raise e1, Raise e2 => e1 = e2
  | _, _ => False
  end.

(** Literals: a 0-d tensor, a vector, a matrix given by its rows. *)
Definition scalar (r : R) : tensor := mkT [] (fun _ => r).

Definition vec (l : list R) : tensor :=
  mkT [length l] (fun idx => match idx with [i] => nth i l 0 | _ => 0 end).

Definition mat (rows : list (list R)) : tensor :=
  mkT [length (hd [] rows); length rows]
      (fun idx => match idx with [j; i] => nth j (nth i rows []) 0 | _ => 0 end).

Definition eye3 : tensor := mat [[1; 0; 0]; [0; 1; 0]; [0; 0; 1]].
Definition zeros3 : tensor := vec [0; 0; 0].

(** ** Dimension arguments

    A Python [dim] is an integer in [-n, n-1] for a tensor of [n]
    dimensions (a 0-d tensor counts as 1-d here).  The result is the
    position counted from the last dimension. *)

Definition dim_from_back (d : Z) (n : nat) : result nat :=
  let m := Nat.max n 1 in
  if (d <? 0)%Z then
    if (Z.to_nat (- d) <=? m)%nat then Ok (Z.to_nat (- d) - 1)%nat
    else Raise IndexError
  else
    if (Z.to_nat d <? m)%nat then Ok (m - 1 - Z.to_nat d)%nat
    else Raise IndexError.

(** [unsqueeze] accepts [dim] in [-(n+1), n]: the position of the new
    dimension, again counted from the back. *)
Definition new_dim_from_back (d : Z) (n : nat) : result nat :=
  if (d <? 0)%Z then
    if (Z.to_nat (- d) <=? S n)%nat then Ok (Z.to_nat (- d) - 1)%nat
    else Raise IndexError
  else
    if (Z.to_nat d <=? n)%nat then Ok (n - Z.to_nat d)%nat
    else Raise IndexError.

Definition insert_at {A : Type} (p : nat) (x : A) (l : list A) : list A :=
  firstn p l ++ x :: skipn p l.

Definition drop_at {A : Type} (p : nat) (l : list A) : list A :=
  firstn p l ++ skipn (S p) l.

Fixpoint set_nth {A : Type} (p : nat) (x : A) (l : list A) : list A :=
  match l, p with
  | [], _ => []
  | _ :: l', O => x :: l'
  | y :: l', S p' => y :: set_nth p' x l'
  end.

Definition swap_nth (p q : nat) (l : list nat) : list nat :=
  set_nth p (nth q l O) (set_nth q (nth p l O) l).

(** ** Shape operations *)

Definition unsqueeze (d : Z) (t : tensor) : result tensor :=
  p <- new_dim_from_back d (ndim t) ;;
  Ok (mkT (insert_at p 1%nat (rdims t)) (fun idx => rget t (drop_at p idx))).

Definition squeeze (d : Z) (t : tensor) : result tensor :=
  p <- dim_from_back d (ndim t) ;;
  if (nth p (rdims t) O =? 1)%nat
  then Ok (mkT (drop_at p (rdims t)) (fun idx => rget t (insert_at p O idx)))
  else Ok t.

Definition transpose (d0 d1 : Z) (t : tensor) : result tensor :=
  p <- dim_from_back d0 (ndim t) ;;
  q <- dim_from_back d1 (ndim t) ;;
  Ok (mkT (swap_nth p q (rdims t)) (fun idx => rget t (swap_nth p q idx))).

(** ** Broadcasting

    Shapes are aligned on the last dimension; two sizes are compatible when
    they are equal or one of them is 1. *)

Fixpoint bshape (r1 r2 : list nat) : option (list nat) :=
  match r1, r2 with
  | [], _ => Some r2
  | _, [] => Some r1
  | a :: r1', b :: r2' =>
      match bshape r1' r2' with
      | None => None
      | Some r =>
          if (a =? b)%nat then Some (a :: r)
          else if (a =? 1)%nat then Some (b :: r)
          else if (b =? 1)%nat then Some (a :: r)
          else None
      end
  end.

(** The index at which an operand of dimensions [rd] is read for the
    index [idx] of the broadcast result. *)
Fixpoint bidx (rd idx : list nat) : list nat :=
  match rd, idx with
  | d :: rd', i :: idx' => (if (d =? 1)%nat then O else i) :: bidx rd' idx'
  | _, _ => []
  end.

Definition map2 (f : R -> R -> R) (a b : tensor) : result tensor :=
  match bshape (rdims a) (rdims b) with
  | Some r =>
      Ok (mkT r (fun idx => f (rget a (bidx (rdims a) idx)) (rget b (bidx (rdims b) idx))))
  | None => Raise RuntimeError
  end.

Definition tmap (f : R -> R) (a : tensor) : tensor :=
  mkT (rdims a) (fun idx => f (rget a idx)).

Definition tadd : tensor -> tensor -> result tensor := map2 Rplus.
Definition tsub : tensor -> tensor -> result tensor := map2 Rminus.
Definition tmul : tensor -> tensor -> result tensor := map2 Rmult.
Definition tdiv : tensor -> tensor -> result tensor := map2 Rdiv.
Definition tneg : tensor -> tensor := tmap Ropp.

(** A Python float times a tensor. *)
Definition smul (w : R) : tensor -> tensor := tmap (Rmult w).

(** [D += v]: the broadcast of the two shapes has to be the shape of [D]. *)
Definition iadd (D v : tensor) : result tensor :=
  r <- tadd D v ;;
  if list_eq_dec Nat.eq_dec (rdims r) (rdims D) then Ok r else Raise RuntimeError.

(** ** Reductions and matmul *)

Definition sum_n (n : nat) (f : nat -> R) : R :=
  fold_right (fun k acc => f k + acc) 0 (seq 0 n).

(** [a @ b], with torch's four cases: vector.vector, vector @ matrices,
    matrices @ vector, matrices @ matrices with broadcast batch dimensions. *)
Definition matmul (a b : tensor) : result tensor :=
  match rdims a, rdims b with
  | [], _ | _, [] => Raise RuntimeError
  | [n], [n'] =>
      if (n =? n')%nat
      then Ok (mkT [] (fun _ => sum_n n (fun c => rget a [c] * rget b [c])))
      else Raise RuntimeError
  | [n], p :: k :: bb =>
      if (n =? k)%nat
      then Ok (mkT (p :: bb)
                 (fun idx => match idx with
                             | j :: bi => sum_n n (fun c => rget a [c] * rget b (j :: c :: bi))
                             | [] => 0
                             end))
      else Raise RuntimeError
  | k :: m :: ba, [n] =>
      if (k =? n)%nat
      then Ok (mkT (m :: ba)
                 (fun idx => match idx with
                             | i :: bi => sum_n k (fun c => rget a (c :: i :: bi) * rget b [c])
                             | [] => 0
                             end))
      else Raise RuntimeError
  | k :: m :: ba, p :: k' :: bb =>
      if (k =? k')%nat
      then match bshape ba bb with
           | Some bs =>
               Ok (mkT (p :: m :: bs)
                     (fun idx => match idx with
                                 | j :: i :: bi =>
                                     sum_n k (fun c => rget a (c :: i :: bidx ba bi)
                                                       * rget b (j :: c :: bidx bb bi))
                                 | _ => 0
                                 end))
           | None => Raise RuntimeError
           end
      else Raise RuntimeError
  end.

(** ** Rigid transforms (lines 13-37) *)

(** [l_trans_c.float()] changes the dtype only. *)
Definition float (t : tensor) : tensor := t.

Definition multiply_transform (w_rot_l w_trans_l l_rot_c l_trans_c : tensor)
  : result (tensor * tensor) :=
  let l_trans_c := float l_trans_c in
  w_rot_c <- matmul w_rot_l l_rot_c ;;
  col_c <- unsqueeze (-1) l_trans_c ;;
  moved_c <- matmul w_rot_l col_c ;;
  flat_c <- squeeze (-1) moved_c ;;
  w_trans_c <- tadd flat_c w_trans_l ;;
  Ok (w_rot_c, w_trans_c).

Definition multiply_inv_transform (l_rot_w l_trans_w l_rot_c l_trans_c : tensor)
  : result (tensor * tensor) :=
  w_rot_l <- transpose (-1) (-2) l_rot_w ;;
  w_rot_c <- matmul w_rot_l l_rot_c ;;
  col_w <- unsqueeze 2 l_trans_w ;;
  moved_w <- matmul w_rot_l col_w ;;
  flat_w <- squeeze 2 moved_w ;;
  let w_trans_l := tneg flat_w in
  col_c <- unsqueeze (-1) l_trans_c ;;
  moved_c <- matmul w_rot_l col_c ;;
  flat_c <- squeeze (-1) moved_c ;;
  w_trans_c <- tadd flat_c w_trans_l ;;
  Ok (w_rot_c, w_trans_c).

Definition transform_point (point rot trans : tensor) : result tensor :=
  rot_t <- transpose (-1) (-2) rot ;;
  moved <- matmul point rot_t ;;
  tadd moved trans.

(** ** Reductions along one dimension, slices *)

(** [reduce_dim red d t] reduces dimension [d] away; a 0-d tensor is
    reduced as a single element. *)
Definition reduce_dim (red : nat -> (nat -> R) -> R) (d : Z) (t : tensor) : result tensor :=
  p <- dim_from_back d (ndim t) ;;
  match rdims t with
  | [] => Ok (mkT [] (fun _ => red 1%nat (fun _ => rget t [])))
  | _ :: _ =>
      Ok (mkT (drop_at p (rdims t))
            (fun idx => red (nth p (rdims t) O) (fun k => rget t (insert_at p k idx))))
  end.

(** [t.sum(d)] *)
Definition sum_dim : Z -> tensor -> result tensor := reduce_dim sum_n.

(** [torch.linalg.norm(t, dim=d)]: the 2-norm along [d]. *)
Definition linalg_norm : Z -> tensor -> result tensor :=
  reduce_dim (fun n f => sqrt (sum_n n (fun k => f k * f k))).

(** Folding [op] over [f 0 .. f (n-1)], for [n >= 1]. *)
Definition fold_n (op : R -> R -> R) (n : nat) (f : nat -> R) : R :=
  fold_left (fun acc k => op acc (f k)) (seq 1 (n - 1)) (f O).

(** Every index of a tensor, in row-major order. *)
Fixpoint all_idx (rd : list nat) : list (list nat) :=
  match rd with
  | [] => [[]]
  | d :: rd' => flat_map (fun tl => map (fun i => i :: tl) (seq 0 d)) (all_idx rd')
  end.

(** Minimum or maximum ([op]) of all entries; [e_empty] is raised on a tensor
    without entries. *)
Definition extremum_all (op : R -> R -> R) (e_empty : exn) (t : tensor) : result tensor :=
  match all_idx (rdims t) with
  | [] => Raise e_empty
  | i0 :: rest => Ok (scalar (fold_left (fun acc i => op acc (rget t i)) rest (rget t i0)))
  end.

(** Minimum or maximum along one dimension, which must not be empty. *)
Definition extremum_dim (op : R -> R -> R) (e_range e_empty : exn) (d : Z) (t : tensor)
  : result tensor :=
  match dim_from_back d (ndim t) with
  | Raise _ => Raise e_range
  | Ok p =>
      match rdims t with
      | [] => Ok t
      | _ :: _ =>
          if (nth p (rdims t) O =? 0)%nat then Raise e_empty
          else reduce_dim (fold_n op) d t
      end
  end.

(** [X.min()], [X.max()], [X.min(d)[0]], [X.max(d)[0]] on a torch tensor *)
Definition torch_min_all : tensor -> result tensor := extremum_all Rmin RuntimeError.
Definition torch_max_all : tensor -> result tensor := extremum_all Rmax RuntimeError.
Definition torch_min_dim : Z -> tensor -> result tensor :=
  extremum_dim Rmin IndexError IndexError.
Definition torch_max_dim : Z -> tensor -> result tensor :=
  extremum_dim Rmax IndexError IndexError.

(** [X.min(axis)], [X.max(axis)] on a numpy array; [axis] may be [None]. *)
Definition np_extremum (op : R -> R -> R) (axis : option Z) (t : tensor) : result tensor :=
  match axis with
  | None => extremum_all op (ValueError "zero-size array to reduction operation") t
  | Some d =>
      extremum_dim op AxisError (ValueError "zero-size array to reduction operation") d t
  end.
Definition np_min : option Z -> tensor -> result tensor := np_extremum Rmin.
Definition np_max : option Z -> tensor -> result tensor := np_extremum Rmax.

(** [t[..., k:]] and [t[..., :k]] *)
Definition slice_last_from (k : nat) (t : tensor) : result tensor :=
  match rdims t with
  | [] => Raise IndexError
  | n :: rb =>
      Ok (mkT ((n - k)%nat :: rb)
            (fun idx => match idx with
                        | i :: bi => rget t ((i + k)%nat :: bi)
                        | [] => 0
                        end))
  end.

Definition slice_last_to (k : nat) (t : tensor) : result tensor :=
  match rdims t with
  | [] => Raise IndexError
  | n :: rb => Ok (mkT (Nat.min n k :: rb) (rget t))
  end.

(** [t[..., i, j]] *)
Definition index_last2 (i j : nat) (t : tensor) : result tensor :=
  match rdims t with
  | n :: m :: rb =>
      if (i <? m)%nat && (j <? n)%nat
      then Ok (mkT rb (fun idx => rget t (j :: i :: idx)))
      else Raise IndexError
  | _ => Raise IndexError
  end.

(** [torch.unbind(t, -1)], [torch.stack(l, -1)], and the reshape of a last
    dimension of size [m * n] into [(m, n)]. *)
Definition unbind_last (t : tensor) : result (list tensor) :=
  match rdims t with
  | [] => Raise IndexError
  | n :: rb => Ok (map (fun k => mkT rb (fun idx => rget t (k :: idx))) (seq 0 n))
  end.

Definition same_dims (t0 t : tensor) : bool :=
  if list_eq_dec Nat.eq_dec (rdims t) (rdims t0) then true else false.

Definition stack_last (l : list tensor) : result tensor :=
  match l with
  | [] => Raise RuntimeError
  | t0 :: rest =>
      if forallb (same_dims t0) rest
      then Ok (mkT (length l :: rdims t0)
                 (fun idx => match idx with
                             | k :: bi => rget (nth k l t0) bi
                             | [] => 0
                             end))
      else Raise RuntimeError
  end.

Definition reshape_last (m n : nat) (t : tensor) : result tensor :=
  match rdims t with
  | mn :: rb =>
      if (mn =? m * n)%nat
      then Ok (mkT (n :: m :: rb)
                 (fun idx => match idx with
                             | j :: i :: bi => rget t ((n * i + j)%nat :: bi)
                             | _ => 0
                             end))
      else Raise RuntimeError
  | [] => Raise RuntimeError
  end.

(** ** Quaternion to rotation matrix (lines 53-81) *)

(** Tensor arithmetic on operands that may already have failed. *)
Definition lift2 (op : tensor -> tensor -> result tensor) (a b : result tensor)
  : result tensor :=
  x <- a ;; y <- b ;; op x y.

Infix "+!" := (lift2 tadd) (at level 50, left associativity).
Infix "-!" := (lift2 tsub) (at level 50, left associativity).
Infix "*!" := (lift2 tmul) (at level 40, left associativity).

(** [1 - e] with the Python integer 1 *)
Definition one_minus (e : result tensor) : result tensor :=
  t <- e ;; Ok (tmap (fun v => 1 - v) t).

Definition quaternion_to_matrix (quaternions : tensor) : result tensor :=
  parts <- unbind_last quaternions ;;
  match parts with
  | [r; i; j; k] =>
      let r := Ok r in
      let i := Ok i in
      let j := Ok j in
      let k := Ok k in
      qq <- tmul quaternions quaternions ;;
      norm2 <- sum_dim (-1) qq ;;
      let two_s := Ok (tmap (fun v => 2 / v) norm2) in
      o0 <- one_minus (two_s *! (j *! j +! k *! k)) ;;
      o1 <- two_s *! (i *! j -! k *! r) ;;
      o2 <- two_s *! (i *! k +! j *! r) ;;
      o3 <- two_s *! (i *! j +! k *! r) ;;
      o4 <- one_minus (two_s *! (i *! i +! k *! k)) ;;
      o5 <- two_s *! (j *! k -! i *! r) ;;
      o6 <- two_s *! (i *! k -! j *! r) ;;
      o7 <- two_s *! (j *! k +! i *! r) ;;
      o8 <- one_minus (two_s *! (i *! i +! j *! j)) ;;
      o <- stack_last [o0; o1; o2; o3; o4; o5; o6; o7; o8] ;;
      reshape_last 3 3 o
  | _ => Raise (ValueError "wrong number of values to unpack")
  end.

(** ** MinMaxScaler (lines 85-111) *)

(** [scale] tells numpy arrays from torch tensors with [isinstance]. *)
Inductive array : Type :=
| NdArray (a : tensor)
| Tensor (a : tensor).

Definition data (X : array) : tensor :=
  match X with NdArray a => a | Tensor a => a end.

Module MinMaxScaler.

Record t : Type := mk { min : option tensor; max : option tensor; dim : option Z }.

(** [__init__(self, min=None, max=None, dim=None)] *)
Definition init (min max : option tensor) (dim : option Z) : t := mk min max dim.

(** [scale] returns the scaler as the call leaves it, and [X_scaled]. *)
Definition scale (self : t) (X : array) : result (t * tensor) :=
  self <-
    match X with
    | NdArray X =>
        self <- match min self with
                | None => m <- np_min (dim self) X ;; Ok (mk (Some m) (max self) (dim self))
                | Some _ => Ok self
                end ;;
        match max self with
        | None => m <- np_max (dim self) X ;; Ok (mk (min self) (Some m) (dim self))
        | Some _ => Ok self
        end
    | Tensor X =>
        self <- match min self with
                | None =>
                    m <- match dim self with
                         | None => torch_min_all X
                         | Some d => torch_min_dim d X
                         end ;;
                    Ok (mk (Some m) (max self) (dim self))
                | Some _ => Ok self
                end ;;
        match max self with
        | None =>
            (* line 105 tests [self.max] a second time, not [self.dim] *)
            m <- match max self with
                 | None => torch_max_all X
                 | Some _ =>
                     match dim self with
                     | None => Raise TypeError
                     | Some d => torch_min_dim d X
                     end
                 end ;;
            Ok (mk (min self) (Some m) (dim self))
        | Some _ => Ok self
        end
    end ;;
  match min self, max self with
  | Some lo, Some hi =>
      num <- tsub (data X) lo ;;
      den <- tsub hi lo ;;
      X_scaled <- tdiv num den ;;
      Ok (self, X_scaled)
  | _, _ => Raise TypeError
  end.

End MinMaxScaler.

(** ** Arccos with linear extrapolation (lines 252-286) *)

Definition DEFAULT_ACOS_BOUND : R := 1 - 1 / 10000.

Definition Rgtb (x y : R) : bool := if Rgt_dec x y then true else false.
Definition Rgeb (x y : R) : bool := if Rge_dec x y then true else false.
Definition Rleb (x y : R) : bool := if Rle_dec x y then true else false.

Definition _dacos_dx (x : R) : R := (-1) / sqrt (1 - x * x).

Definition _acos_linear_approximation (x : tensor) (x0 : R) : tensor :=
  tmap (fun v => (v - x0) * _dacos_dx x0 + acos x0) x.

(** [torch.empty_like(x)]: the entries of the fresh tensor are whatever the
    allocator left there; [junk] stands for them. *)
Definition empty_like (junk : list nat -> R) (x : tensor) : tensor := mkT (rdims x) junk.

(** [dst[mask] = f(x[mask])] for an elementwise [f]: [src] is [f(x)], read
    at the positions the mask selects. *)
Definition masked_assign (dst : tensor) (mask : list nat -> bool) (src : tensor) : tensor :=
  mkT (rdims dst) (fun idx => if mask idx then rget src idx else rget dst idx).

Definition acos_linear_extrapolation_on (junk : list nat -> R) (x : tensor) (bounds : R * R)
  : result tensor :=
  let '(lower_bound, upper_bound) := bounds in
  if Rgtb lower_bound upper_bound
  then Raise (ValueError "lower bound has to be smaller or equal to upper bound.")
  else if Rleb lower_bound (-1) || Rgeb upper_bound 1
  then Raise (ValueError "Both lower bound and upper bound have to be within (-1, 1).")
  else
    let acos_extrap := empty_like junk x in
    let x_upper := fun idx => Rgeb (rget x idx) upper_bound in
    let x_lower := fun idx => Rleb (rget x idx) lower_bound in
    let x_mid := fun idx => negb (x_upper idx) && negb (x_lower idx) in
    let acos_extrap := masked_assign acos_extrap x_mid (tmap acos x) in
    let acos_extrap :=
      masked_assign acos_extrap x_upper (_acos_linear_approximation x upper_bound) in
    let acos_extrap :=
      masked_assign acos_extrap x_lower (_acos_linear_approximation x lower_bound) in
    Ok acos_extrap.

(** The three masks cover every entry (see [acos_junk_irrelevant] below), so
    the function is taken on a zero-filled allocation. *)
Definition acos_linear_extrapolation : tensor -> R * R -> result tensor :=
  acos_linear_extrapolation_on (fun _ => 0).

(** ** Rotation distances (lines 208-249) *)

Definition quaternion_relative_angle (q1 q2 : tensor) (cos_bound : R) : result tensor :=
  qq <- tmul q1 q2 ;;
  theta_cos <- sum_dim (-1) qq ;;
  if Rgtb cos_bound 0 then
    let bound := 1 - cos_bound in
    acos_linear_extrapolation theta_cos (- bound, bound)
  else Ok (smul 2 (tmap acos theta_cos)).

Definition default_cos_bound : R := 1 / 10000.
Definition default_eps : R := 1 / 10000.

Definition so3_rotation_angle (Rt : tensor) (eps : R) (cos_angle : bool) (cos_bound : R)
  : result tensor :=
  match rdims Rt with
  | dim2 :: dim1 :: _ =>
      if negb (dim1 =? 3)%nat || negb (dim2 =? 3)%nat
      then Raise (ValueError "Input has to be a batch of 3x3 Tensors.")
      else
        r00 <- index_last2 0 0 Rt ;;
        r11 <- index_last2 1 1 Rt ;;
        r22 <- index_last2 2 2 Rt ;;
        r01 <- tadd r00 r11 ;;
        rot_trace <- tadd r01 r22 ;;
        let phi_cos := tmap (fun v => (v - 1) * (1 / 2)) rot_trace in
        if cos_angle then Ok phi_cos
        else if Rgtb cos_bound 0 then
          let bound := 1 - cos_bound in
          acos_linear_extrapolation phi_cos (- bound, bound)
        else Ok (tmap acos phi_cos)
  | _ => Raise (ValueError "not enough values to unpack")
  end.

Definition so3_relative_angle (R1 R2 : tensor) (eps : R) (cos_angle : bool) (cos_bound : R)
  : result tensor :=
  R2_t <- transpose (-2) (-1) R2 ;;
  R12 <- matmul R1 R2_t ;;
  so3_rotation_angle R12 eps cos_angle cos_bound.

(** ** Pose distances (lines 114-145 and 199-205) *)

(** Lines 127-129, and again lines 140-142: two fresh scalers, the first
    along [-2], the second along [dim_scale_target]. *)
Definition normalize_pair (dim_scale_target : Z) (batch target : tensor)
  : result (tensor * tensor) :=
  let scaler1 := MinMaxScaler.init None None (Some (-2)%Z) in
  let scaler2 := MinMaxScaler.init None None (Some dim_scale_target) in
  '(_, batch) <- MinMaxScaler.scale scaler1 (Tensor batch) ;;
  '(_, target) <- MinMaxScaler.scale scaler2 (Tensor target) ;;
  Ok (batch, target).

Definition euclidean_distance (x_batch x_target : tensor)
    (vel_batch vel_target : option tensor)
    (w_pos w_rot w_vpos w_vrot : R) (broadcast_target normalized_input : bool)
  : result tensor :=
  x_batch <- (if (ndim x_batch =? 1)%nat then unsqueeze 0 x_batch else Ok x_batch) ;;
  x_target <- (if (ndim x_target =? 1)%nat then unsqueeze 0 x_target else Ok x_target) ;;
  '(x_target, dim_scale_target) <-
    (if broadcast_target
     then x_target <- unsqueeze 1 x_target ;; Ok (x_target, (-3)%Z)
     else Ok (x_target, (-2)%Z)) ;;
  '(x_batch, x_target) <-
    (if normalized_input
     then normalize_pair dim_scale_target x_batch x_target
     else Ok (x_batch, x_target)) ;;
  diff <- tsub x_batch x_target ;;
  T_distance <- linalg_norm (-1) diff ;;
  let D := smul w_pos T_distance in
  D <- match vel_batch, vel_target with
       | Some vel_batch, Some vel_target =>
           vel_target <-
             (if (ndim vel_target =? 1)%nat then unsqueeze 0 vel_target else Ok vel_target) ;;
           vel_target <-
             (if broadcast_target then unsqueeze 1 vel_target else Ok vel_target) ;;
           '(vel_batch, vel_target) <-
             (if normalized_input
              then normalize_pair dim_scale_target vel_batch vel_target
              else Ok (vel_batch, vel_target)) ;;
           vdiff <- tsub vel_batch vel_target ;;
           vnorm <- linalg_norm (-1) vdiff ;;
           iadd D (smul w_vpos vnorm)
       | _, _ => Ok D
       end ;;
  Ok (smul w_pos T_distance).

Definition R3S3_distance (x_batch x_target : tensor) (w_pos w_rot : R) : result tensor :=
  x_target <- (if (ndim x_target =? 1)%nat then unsqueeze 0 x_target else Ok x_target) ;;
  q_batch <- slice_last_from 3 x_batch ;;
  q_target <- slice_last_from 3 x_target ;;
  R_distance <- quaternion_relative_angle q_batch q_target default_cos_bound ;;
  p_batch <- slice_last_to 3 x_batch ;;
  p_target <- slice_last_to 3 x_target ;;
  diff <- tsub p_batch p_target ;;
  T_distance <- linalg_norm (-1) diff ;;
  tadd (smul w_pos R_distance) (smul w_rot T_distance).

(** ** Definitions used in the statements *)

(** The value the function leaves at an entry [v]. *)
Definition acos_extrap_value (lo hi v : R) : R :=
  if Rleb v lo then (v - lo) * _dacos_dx lo + acos lo
  else if Rgeb v hi then (v - hi) * _dacos_dx hi + acos hi
  else acos v.

(** [t.item()] of a 0-d result (0 when the call raised) *)
Definition item (r : result tensor) : R :=
  match r with Ok t => rget t [] | Raise _ => 0 end.

(** The dot product of the quaternions at batch index [b] (innermost
    first) of two tensors whose last dimension has size 4. *)
Definition quat_dot (q1 q2 : tensor) (b : list nat) : R :=
  sum_n 4 (fun k => rget q1 (k :: b) * rget q2 (k :: b)).

(** The value of the linear extrapolation at cosine 1, for the bound
    [1 - cos_bound]. *)
Definition extrapolated_zero_angle (cos_bound : R) : R :=
  acos (1 - cos_bound) - cos_bound / sqrt (1 - (1 - cos_bound) * (1 - cos_bound)).

(** The nine entries, row by row, that lines 69-77 compute from the
    components [r i j k] of one quaternion and its squared norm [n2]. *)
Definition rotation_entries (n2 r i j k : R) : list R :=
  let two_s := 2 / n2 in
  [ 1 - two_s * (j * j + k * k); two_s * (i * j - k * r); two_s * (i * k + j * r);
    two_s * (i * j + k * r); 1 - two_s * (i * i + k * k); two_s * (j * k - i * r);
    two_s * (i * k - j * r); two_s * (j * k + i * r); 1 - two_s * (i * i + j * j) ].

(** The distance the specification gives for one batch element: the
    weighted sum of the Euclidean norms of the position difference and of
    the velocity difference. *)
Definition euclid_norm (u : list R) : R :=
  sqrt (fold_right (fun a acc => a * a + acc) 0 u).

Definition claimed_euclidean_distance (w_pos w_vpos : R) (x x_target v v_target : list R) : R :=
  w_pos * euclid_norm (map (fun p => fst p - snd p) (combine x x_target))
  + w_vpos * euclid_norm (map (fun p => fst p - snd p) (combine v v_target)).

(** The distance the specification gives for one pose pair: [w_rot] weights
    the quaternion angle, [w_pos] the position distance. *)
Definition claimed_R3S3_distance (w_pos w_rot angle dist : R) : R :=
  w_rot * angle + w_pos * dist.

(** [(X - lo) / (hi - lo)], the last two lines of [scale], for the scaler
    state [self]. *)
Definition rescale (self : MinMaxScaler.t) (X lo hi : tensor)
  : result (MinMaxScaler.t * tensor) :=
  num <- tsub X lo ;;
  den <- tsub hi lo ;;
  X_scaled <- tdiv num den ;;
  Ok (self, X_scaled).

(** A batch holding the single tensor [t]. *)
Definition batch_of_one (t : tensor) : tensor :=
  mkT (rdims t ++ [1%nat]) (fun idx => rget t (removelast idx)).

(** [torch.zeros(sh)] *)
Definition zeros (sh : list nat) : tensor := mkT (rev sh) (fun _ => 0).

(** Two tensors with the same shape whose indexing functions agree
    everywhere. *)
Definition tensor_ext (a b : tensor) : Prop :=
  rdims a = rdims b /\ forall idx, rget a idx = rget b idx.

Definition result_ext (r1 r2 : result tensor) : Prop :=
  match r1, r2 with
  | Ok a, Ok b => tensor_ext a b
  | Raise e1, Raise e2 => e1 = e2
  | _, _ => False
  end.

(** ** Quaternion conventions (lines 218-225) *)

Definition q_convert_xyzw (q : tensor) : result tensor :=
  parts <- unbind_last q ;;
  match parts with
  | [w; x; y; z] => stack_last [x; y; z; w]
  | _ => Raise (ValueError "wrong number of values to unpack")
  end.

Definition q_convert_wxyz (q : tensor) : result tensor :=
  parts <- unbind_last q ;;
  match parts with
  | [x; y; z; w] => stack_last [w; x; y; z]
  | _ => Raise (ValueError "wrong number of values to unpack")
  end.

(** ** Skew-symmetric matrices and the cross product (lines 40-50, 289-293,
    326-338) *)

(** [to_torch]: a torch tensor is returned as it is, anything else goes
    through [torch.tensor]; the entries are the same. *)
Definition to_torch (variable : array) : tensor := data variable.

Definition to_torch_2d_min (variable : array) : result tensor :=
  let tensor_var := to_torch variable in
  if (length (shape tensor_var) =? 1)%nat then unsqueeze 0 tensor_var else Ok tensor_var.

(** [t[:, k]] *)
Definition select_dim1 (k : nat) (t : tensor) : result tensor :=
  if (ndim t <? 2)%nat then Raise IndexError
  else
    let p := (ndim t - 2)%nat in
    if (k <? nth p (rdims t) O)%nat
    then Ok (mkT (drop_at p (rdims t)) (fun idx => rget t (insert_at p k idx)))
    else Raise IndexError.

Fixpoint strip_leading_ones (sh : list nat) : list nat :=
  match sh with
  | 1%nat :: sh' => strip_leading_ones sh'
  | _ => sh
  end.

(** The value of an indexed assignment, as torch expands it to the
    dimensions [dst_rd] of the slice assigned to: leading dimensions of size 1
    are dropped and the rest has to broadcast to the slice without enlarging
    it. *)
Definition expand_for_setitem (dst_rd : list nat) (value : tensor)
  : result (list nat -> R) :=
  let s := rev (strip_leading_ones (shape value)) in
  match bshape s dst_rd with
  | Some r =>
      if list_eq_dec Nat.eq_dec r dst_rd
      then Ok (fun idx => rget value (bidx s idx ++ repeat O (ndim value - length s)))
      else Raise RuntimeError
  | None => Raise RuntimeError
  end.

(** [dst[:, i, j] = value] for a 3-d [dst] *)
Definition setitem_batch_ij (i j : nat) (dst value : tensor) : result tensor :=
  match rdims dst with
  | [m; n; B] =>
      if (i <? n)%nat && (j <? m)%nat
      then
        v <- expand_for_setitem [B] value ;;
        Ok (mkT (rdims dst)
              (fun idx => match idx with
                          | [c; r; b] =>
                              if (r =? i)%nat && (c =? j)%nat then v [b] else rget dst idx
                          | _ => rget dst idx
                          end))
      else Raise IndexError
  | _ => Raise IndexError
  end.

Definition vector3_to_skew_symm_matrix (vec3 : array) : result tensor :=
  vec3 <- to_torch_2d_min vec3 ;;
  match shape vec3 with
  | [] => Raise IndexError
  | batch_size :: _ =>
      let skew_symm_mat := zeros [batch_size; 3; 3]%nat in
      v2 <- select_dim1 2 vec3 ;;
      skew_symm_mat <- setitem_batch_ij 0 1 skew_symm_mat (tneg v2) ;;
      v1 <- select_dim1 1 vec3 ;;
      skew_symm_mat <- setitem_batch_ij 0 2 skew_symm_mat v1 ;;
      v2 <- select_dim1 2 vec3 ;;
      skew_symm_mat <- setitem_batch_ij 1 0 skew_symm_mat v2 ;;
      v0 <- select_dim1 0 vec3 ;;
      skew_symm_mat <- setitem_batch_ij 1 2 skew_symm_mat (tneg v0) ;;
      v1 <- select_dim1 1 vec3 ;;
      skew_symm_mat <- setitem_batch_ij 2 0 skew_symm_mat (tneg v1) ;;
      v0 <- select_dim1 0 vec3 ;;
      skew_symm_mat <- setitem_batch_ij 2 1 skew_symm_mat v0 ;;
      Ok skew_symm_mat
  end.

Definition cross_product (vec3a vec3b : array) : result tensor :=
  vec3a <- to_torch_2d_min vec3a ;;
  vec3b <- to_torch_2d_min vec3b ;;
  skew_symm_mat_a <- vector3_to_skew_symm_matrix (Tensor vec3a) ;;
  col_b <- unsqueeze 2 vec3b ;;
  moved <- matmul skew_symm_mat_a col_b ;;
  squeeze 2 moved.

(** The entries lines 44-49 write, for the components [v0 v1 v2] of one
    vector: row [r], column [c]. *)
Definition skew_entry (v0 v1 v2 : R) (r c : nat) : R :=
  match r, c with
  | 0%nat, 1%nat => - v2
  | 0%nat, 2%nat => v1
  | 1%nat, 0%nat => v2
  | 1%nat, 2%nat => - v0
  | 2%nat, 0%nat => - v1
  | 2%nat, 1%nat => v0
  | _, _ => 0
  end.

(** ** Distance of homogeneous transforms (lines 148-196) *)

(** [D] starts as the Python float [0.] and becomes a tensor with the first
    term that is added. *)
Inductive pynum : Type :=
| PyFloat (r : R)
| PyTensor (t : tensor).

(** [D += v]: a float is rebound to the sum, a tensor is updated in place. *)
Definition py_iadd (D : pynum) (v : tensor) : result pynum :=
  match D with
  | PyFloat r => Ok (PyTensor (tmap (Rplus r) v))
  | PyTensor t => t' <- iadd t v ;; Ok (PyTensor t')
  end.

(** [H[..., :-1, -1]] *)
Definition translation_column (H : tensor) : result tensor :=
  match rdims H with
  | n :: m :: rb =>
      if (n =? 0)%nat then Raise IndexError
      else Ok (mkT ((m - 1)%nat :: rb)
                 (fun idx => match idx with
                             | i :: b => rget H ((n - 1)%nat :: i :: b)
                             | [] => 0
                             end))
  | _ => Raise IndexError
  end.

(** [H[..., :3, :3]] *)
Definition rotation_block (H : tensor) : result tensor :=
  match rdims H with
  | n :: m :: rb => Ok (mkT (Nat.min n 3 :: Nat.min m 3 :: rb) (rget H))
  | _ => Raise IndexError
  end.

(** [MinMaxScaler(dim=d).scale(x)] on a fresh scaler *)
Definition scale_fresh (d : Z) (x : tensor) : result tensor :=
  '(_, y) <- MinMaxScaler.scale (MinMaxScaler.init None None (Some d)) (Tensor x) ;;
  Ok y.

(** [vel_batch] and [vel_target] are read at [[0]] and [[1]]: they are
    taken as pairs (translational, rotational). *)
Definition SE3_distance (H_batch H_target : tensor)
    (vel_batch vel_target : option (tensor * tensor))
    (w_pos w_rot w_vpos w_vrot : R) (broadcast_target normalized_input : bool)
  : result pynum :=
  H_batch <- (if (ndim H_batch =? 2)%nat then unsqueeze 0 H_batch else Ok H_batch) ;;
  H_target <- (if (ndim H_target =? 2)%nat then unsqueeze 0 H_target else Ok H_target) ;;
  '(H_target, dim_scale_target) <-
    (if broadcast_target
     then H_target <- unsqueeze 1 H_target ;; Ok (H_target, (-3)%Z)
     else Ok (H_target, (-2)%Z)) ;;
  x_batch <- translation_column H_batch ;;
  x_target <- translation_column H_target ;;
  '(x_batch, x_target) <-
    (if normalized_input
     then normalize_pair dim_scale_target x_batch x_target
     else Ok (x_batch, x_target)) ;;
  let D := PyFloat 0 in
  D <- (if Rgtb w_rot 0
        then
          R_batch <- rotation_block H_batch ;;
          R_target <- rotation_block H_target ;;
          cos_phi <- so3_relative_angle R_batch R_target default_eps true default_cos_bound ;;
          let R_distance := tmap (fun v => 1 - v) cos_phi in
          py_iadd D (smul w_rot R_distance)
        else Ok D) ;;
  D <- (if Rgtb w_pos 0
        then
          diff <- tsub x_batch x_target ;;
          T_distance <- linalg_norm (-1) diff ;;
          py_iadd D (smul w_pos T_distance)
        else Ok D) ;;
  match vel_batch, vel_target with
  | Some (v_trans, v_rot), Some (v_trans_target, v_rot_target) =>
      v_trans_target <-
        (if (ndim v_trans_target =? 1)%nat
         then unsqueeze 0 v_trans_target else Ok v_trans_target) ;;
      v_rot_target <-
        (if (ndim v_rot_target =? 1)%nat
         then unsqueeze 0 v_rot_target else Ok v_rot_target) ;;
      '(v_trans_target, v_rot_target) <-
        (if broadcast_target
         then
           v_trans_target <- unsqueeze 1 v_trans_target ;;
           v_rot_target <- unsqueeze 1 v_rot_target ;;
           Ok (v_trans_target, v_rot_target)
         else Ok (v_trans_target, v_rot_target)) ;;
      '(v_batch, v_target) <-
        (if normalized_input
         then
           v_trans <- scale_fresh (-2) v_trans ;;
           v_rot <- scale_fresh (-2) v_rot ;;
           v_trans_target <- scale_fresh dim_scale_target v_trans_target ;;
           v_rot_target <- scale_fresh dim_scale_target v_rot_target ;;
           Ok ((v_trans, v_rot), (v_trans_target, v_rot_target))
         else Ok ((v_trans, v_rot), (v_trans_target, v_rot_target))) ;;
      D <- (if Rgtb w_vpos 0
            then
              diff <- tsub (fst v_batch) (fst v_target) ;;
              speed <- linalg_norm (-1) diff ;;
              py_iadd D (smul w_vpos speed)
            else Ok D) ;;
      (if Rgtb w_vrot 0
       then
         diff <- tsub (snd v_batch) (snd v_target) ;;
         speed <- linalg_norm (-1) diff ;;
         py_iadd D (smul w_vrot speed)
       else Ok D)
  | _, _ => Ok D
  end.

(** ** Exponential map (lines 307-323) *)

Definition torch_square (x : tensor) : result tensor := tmul x x.

(** The index in [t] of the entry that [t.squeeze()] has at [idx]. *)
Fixpoint unsqueezed_index (rd idx : list nat) : list nat :=
  match rd with
  | [] => []
  | d :: rd' =>
      if (d =? 1)%nat then O :: unsqueezed_index rd' idx
      else match idx with
           | i :: idx' => i :: unsqueezed_index rd' idx'
           | [] => O :: unsqueezed_index rd' []
           end
  end.

(** [t.squeeze()]: every dimension of size 1 is removed. *)
Definition squeeze_all (t : tensor) : tensor :=
  mkT (filter (fun d => negb (d =? 1)%nat) (rdims t))
      (fun idx => rget t (unsqueezed_index (rdims t) idx)).

(** [torch.norm(t, p=2)]: the 2-norm of all entries, a 0-d tensor. *)
Definition norm_all (t : tensor) : tensor :=
  scalar (sqrt (fold_right (fun i acc => rget t i * rget t i + acc) 0 (all_idx (rdims t)))).

(** [omega] is passed to [torch.norm] and has to be a tensor. *)
Definition exp_map_so3 (omega : tensor) (epsilon : R) : result tensor :=
  skew <- vector3_to_skew_symm_matrix (Tensor omega) ;;
  let omegahat := squeeze_all skew in
  let norm_omega := norm_all omega in
  let shifted := tmap (fun v => v + epsilon) norm_omega in
  sin_ratio <- tdiv (tmap sin norm_omega) shifted ;;
  first <- tmul sin_ratio omegahat ;;
  partial <- tadd eye3 first ;;
  shifted2 <- torch_square shifted ;;
  cos_ratio <- tdiv (tmap (fun v => 1 - v) (tmap cos norm_omega)) shifted2 ;;
  omegahat2 <- matmul omegahat omegahat ;;
  second <- tmul cos_ratio omegahat2 ;;
  tadd partial second.

(** The two coefficients of Rodrigues' formula as lines 317 and 319
    compute them, for the components of [omega]. *)
Definition omega_norm (w0 w1 w2 : R) : R := sqrt (w0 * w0 + (w1 * w1 + (w2 * w2 + 0))).

Definition sin_coeff (epsilon theta : R) : R := sin theta / (theta + epsilon).

Definition cos_coeff (epsilon theta : R) : R :=
  (1 - cos theta) / ((theta + epsilon) * (theta + epsilon)).

Definition kronecker (r c : nat) : R := if (r =? c)%nat then 1 else 0.

(** ** Filling the diagonal and the lower triangle (lines 296-305) *)

(** [np.tril_indices(n, k=-1, m)]: the places strictly below the diagonal of
    an [n] x [m] matrix, row by row. *)
Definition tril_indices (n m : nat) : list (nat * nat) :=
  flat_map (fun i => map (fun j => (i, j)) (seq 0 (Nat.min i m))) (seq 0 n).

(** [np.diag_indices(n)] *)
Definition diag_indices (n : nat) : list (nat * nat) :=
  map (fun i => (i, i)) (seq 0 n).

Fixpoint position (ij : nat * nat) (l : list (nat * nat)) : option nat :=
  match l with
  | [] => None
  | p :: l' =>
      if (fst p =? fst ij)%nat && (snd p =? snd ij)%nat then Some O
      else option_map S (position ij l')
  end.

(** [A[..., ii, jj] = vec] for index arrays that list the places [pairs],
    each place once.  The tensor returned is [A] itself after the update. *)
Definition setitem_pairs (pairs : list (nat * nat)) (A vec : tensor) : result tensor :=
  match rdims A with
  | m :: n :: rb =>
      if forallb (fun p => (fst p <? n)%nat && (snd p <? m)%nat) pairs
      then
        v <- expand_for_setitem (length pairs :: rb) vec ;;
        Ok (mkT (rdims A)
              (fun idx => match idx with
                          | c :: r :: b =>
                              match position (r, c) pairs with
                              | Some k => v (k :: b)
                              | None => rget A idx
                              end
                          | _ => rget A idx
                          end))
      else Raise IndexError
  | _ => Raise IndexError
  end.

Definition bfill_lowertriangle (A vec : tensor) : result tensor :=
  match rdims A with
  | m :: n :: _ => setitem_pairs (tril_indices n m) A vec
  | _ => Raise IndexError
  end.

Definition bfill_diagonal (A vec : tensor) : result tensor :=
  match rdims A with
  | m :: n :: _ => setitem_pairs (diag_indices (Nat.min n m)) A vec
  | _ => Raise IndexError
  end.

(** The number of places strictly below the diagonal in the first [r]
    rows of a matrix with [m] columns. *)
Fixpoint tril_offset (m r : nat) : nat :=
  match r with
  | O => O
  | S r' => (tril_offset m r' + Nat.min r' m)%nat
  end.

(** * Properties *)

(** ** Broadcasting lemmas *)

Lemma bshape_refl (r : list nat) : bshape r r = Some r.
Proof.
  induction r as [|a r IH]; simpl; [reflexivity|].
  now rewrite IH, Nat.eqb_refl.
Qed.

Lemma bshape_comm (r1 r2 : list nat) : bshape r1 r2 = bshape r2 r1.
Proof.
  revert r2; induction r1 as [|a r1 IH]; intros [|b r2]; simpl; try reflexivity.
  rewrite (IH r2). destruct (bshape r2 r1); [|reflexivity].
  rewrite (Nat.eqb_sym b a).
  destruct (Nat.eqb_spec a b) as [->|Hab]; [reflexivity|].
  destruct (Nat.eqb_spec a 1) as [->|Ha], (Nat.eqb_spec b 1) as [->|Hb];
    reflexivity.
Qed.

Lemma bidx_in_range (rd idx : list nat) : in_range rd idx -> bidx rd idx = idx.
Proof.
  unfold in_range. intros H; induction H as [|i d idx rd Hlt _ IH]; simpl.
  - reflexivity.
  - rewrite IH. destruct (Nat.eqb_spec d 1) as [->|_]; [|reflexivity].
    now replace i with O by lia.
Qed.

(** The index read in the first operand of a broadcast is in its range. *)
Lemma bidx_left_in_range (r1 r2 r idx : list nat) :
  bshape r1 r2 = Some r -> in_range r idx -> in_range r1 (bidx r1 idx).
Proof.
  unfold in_range. revert r2 r idx.
  induction r1 as [|a r1 IH]; intros r2 r idx Hb Hr.
  - simpl. constructor.
  - destruct r2 as [|b r2]; simpl in Hb.
    + injection Hb as <-. now rewrite (bidx_in_range (a :: r1) idx Hr).
    + destruct (bshape r1 r2) as [r'|] eqn:E; [|discriminate].
      assert (exists c, r = c :: r' /\ (a = c \/ a = 1%nat)) as (c & -> & Hc).
      { destruct (Nat.eqb_spec a b); [injection Hb as <-; eauto|].
        destruct (Nat.eqb_spec a 1); [injection Hb as <-; eauto|].
        destruct (Nat.eqb_spec b 1); [injection Hb as <-; eauto|discriminate]. }
      inversion Hr as [|i c' idx' r'' Hlt Hrest]; subst. simpl.
      constructor; [|now apply (IH r2 r')].
      destruct (Nat.eqb_spec a 1); lia.
Qed.

Lemma bidx_right_in_range (r1 r2 r idx : list nat) :
  bshape r1 r2 = Some r -> in_range r idx -> in_range r2 (bidx r2 idx).
Proof. rewrite bshape_comm. apply bidx_left_in_range. Qed.

Lemma map2_same_dims (f : R -> R -> R) (a b : tensor) :
  rdims a = rdims b ->
  map2 f a b =
  Ok (mkT (rdims a) (fun idx => f (rget a (bidx (rdims a) idx)) (rget b (bidx (rdims a) idx)))).
Proof. intros E. unfold map2. now rewrite <- E, bshape_refl. Qed.

Lemma shape_snoc (t : tensor) (bs : list nat) (n : nat) :
  shape t = bs ++ [n] -> rdims t = n :: rev bs.
Proof.
  unfold shape. intros H. rewrite <- (rev_involutive (rdims t)), H.
  now rewrite rev_app_distr.
Qed.

Lemma shape_snoc2 (t : tensor) (bs : list nat) (m n : nat) :
  shape t = bs ++ [m; n] -> rdims t = n :: m :: rev bs.
Proof.
  unfold shape. intros H. rewrite <- (rev_involutive (rdims t)), H.
  now rewrite rev_app_distr.
Qed.

Lemma tensor_eq_refl (a : tensor) : tensor_eq a a.
Proof. now split. Qed.

Lemma tensor_eq_sym (a b : tensor) : tensor_eq a b -> tensor_eq b a.
Proof.
  intros [E H]. split; [now symmetry|].
  intros idx Hi. symmetry. apply H. now rewrite E.
Qed.

(** ** Arccos with linear extrapolation *)

Lemma Rgtb_true (x y : R) : Rgtb x y = true <-> x > y.
Proof. unfold Rgtb. destruct (Rgt_dec x y); split; (easy || lra). Qed.

Lemma Rgeb_true (x y : R) : Rgeb x y = true <-> x >= y.
Proof. unfold Rgeb. destruct (Rge_dec x y); split; (easy || lra). Qed.

Lemma Rleb_true (x y : R) : Rleb x y = true <-> x <= y.
Proof. unfold Rleb. destruct (Rle_dec x y); split; (easy || lra). Qed.

Lemma Rgtb_false (x y : R) : Rgtb x y = false <-> x <= y.
Proof. unfold Rgtb. destruct (Rgt_dec x y); split; (easy || lra). Qed.

Lemma Rgeb_false (x y : R) : Rgeb x y = false <-> x < y.
Proof. unfold Rgeb. destruct (Rge_dec x y); split; (easy || lra). Qed.

Lemma Rleb_false (x y : R) : Rleb x y = false <-> y < x.
Proof. unfold Rleb. destruct (Rle_dec x y); split; (easy || lra). Qed.

Lemma acos_linear_extrapolation_on_ok (junk : list nat -> R) (x : tensor) (lo hi : R) :
  lo <= hi -> -1 < lo -> hi < 1 ->
  exists t, acos_linear_extrapolation_on junk x (lo, hi) = Ok t
            /\ rdims t = rdims x
            /\ forall idx, rget t idx = acos_extrap_value lo hi (rget x idx).
Proof.
  intros Hle Hlo Hhi. unfold acos_linear_extrapolation_on.
  destruct (Rgtb lo hi) eqn:E1; [apply Rgtb_true in E1; lra|].
  destruct (Rleb lo (-1)) eqn:E2; [apply Rleb_true in E2; lra|].
  destruct (Rgeb hi 1) eqn:E3; [apply Rgeb_true in E3; lra|].
  simpl. eexists; split; [reflexivity|]. split; [reflexivity|].
  intros idx. simpl. unfold acos_extrap_value.
  destruct (Rleb (rget x idx) lo); [reflexivity|].
  destruct (Rgeb (rget x idx) hi); reflexivity.
Qed.

(** X6: every entry of the fresh tensor is overwritten: the result does not
    depend on what [torch.empty_like] left there. *)
Lemma acos_junk_irrelevant (junk junk' : list nat -> R) (x : tensor) (bounds : R * R) :
  result_eq (acos_linear_extrapolation_on junk x bounds)
            (acos_linear_extrapolation_on junk' x bounds).
Proof.
  destruct bounds as [lo hi]. unfold acos_linear_extrapolation_on.
  destruct (Rgtb lo hi); [reflexivity|].
  destruct (Rleb lo (-1) || Rgeb hi 1); [reflexivity|].
  split; [reflexivity|]. intros idx _. simpl.
  destruct (Rleb (rget x idx) lo); [reflexivity|].
  destruct (Rgeb (rget x idx) hi); reflexivity.
Qed.

(** C7: [acos_linear_extrapolation] raises (a [ValueError]) exactly when
    [lower > upper] or the two bounds are not both strictly inside (-1, 1);
    on every other bound pair it returns. *)
Theorem acos_linear_extrapolation_raises_iff (x : tensor) (lower upper : R) :
  (raises (acos_linear_extrapolation x (lower, upper))
   <-> (lower > upper \/ ~ (-1 < lower < 1 /\ -1 < upper < 1)))
  /\ ((exists msg, acos_linear_extrapolation x (lower, upper) = Raise (ValueError msg))
      <-> (lower > upper \/ ~ (-1 < lower < 1 /\ -1 < upper < 1)))
  /\ ((exists t, acos_linear_extrapolation x (lower, upper) = Ok t)
      <-> (lower <= upper /\ -1 < lower < 1 /\ -1 < upper < 1)).
Proof.
  unfold raises, acos_linear_extrapolation, acos_linear_extrapolation_on.
  destruct (Rgtb lower upper) eqn:E1;
    [apply Rgtb_true in E1 | apply Rgtb_false in E1;
     destruct (Rleb lower (-1)) eqn:E2;
       [apply Rleb_true in E2 | apply Rleb_false in E2;
        destruct (Rgeb upper 1) eqn:E3;
          [apply Rgeb_true in E3 | apply Rgeb_false in E3]]];
    simpl; repeat split; intros;
    solve [ lra
          | match goal with H : exists _, _ |- _ => destruct H as [? H]; discriminate end
          | eexists; reflexivity ].
Qed.

(** A function that agrees near [x0] with one of two functions which are
    continuous at [x0] and take its value there is continuous at [x0]. *)
Lemma continuity_pt_glue (f g1 g2 : R -> R) (x0 d : R) :
  0 < d ->
  (forall v, Rabs (v - x0) < d -> f v = g1 v \/ f v = g2 v) ->
  g1 x0 = f x0 -> g2 x0 = f x0 ->
  continuity_pt g1 x0 -> continuity_pt g2 x0 -> continuity_pt f x0.
Proof.
  intros Hd Hf E1 E2 C1 C2 eps Heps.
  destruct (C1 eps Heps) as (d1 & Hd1 & H1).
  destruct (C2 eps Heps) as (d2 & Hd2 & H2).
  exists (Rmin d (Rmin d1 d2)). split.
  { repeat apply Rmin_glb_lt; assumption. }
  intros v [Hv Hdist]. simpl in *. unfold R_dist in *.
  assert (Rabs (v - x0) < d) by (eapply Rlt_le_trans; [exact Hdist|apply Rmin_l]).
  assert (Rabs (v - x0) < d1).
  { eapply Rlt_le_trans; [exact Hdist|]. rewrite Rmin_comm, <- Rmin_assoc. apply Rmin_l. }
  assert (Rabs (v - x0) < d2).
  { eapply Rlt_le_trans; [exact Hdist|]. rewrite Rmin_assoc. apply Rmin_r. }
  destruct (Hf v H) as [-> | ->].
  - rewrite <- E1. apply H1. now split.
  - rewrite <- E2. apply H2. now split.
Qed.

Lemma lin_cont (x0 c a x : R) : continuity_pt (fun v => (v - x0) * c + a) x.
Proof. reg. Qed.

Lemma acos_cont x : -1 < x < 1 -> continuity_pt acos x.
Proof. intros H. apply derivable_continuous_pt. now apply derivable_pt_acos. Qed.

Lemma acos_extrap_value_cont_upper (lo hi : R) :
  lo <= hi -> -1 < lo -> hi < 1 -> continuity_pt (acos_extrap_value lo hi) hi.
Proof.
  intros Hle Hlo Hhi.
  destruct (Rle_lt_or_eq_dec lo hi Hle) as [Hlt | ->].
  - apply (continuity_pt_glue _ acos (fun v => (v - hi) * _dacos_dx hi + acos hi) hi (hi - lo));
      [lra| | | |apply acos_cont; lra|apply lin_cont].
    + intros v Hv. unfold acos_extrap_value.
      destruct (Rleb v lo) eqn:E; [apply Rleb_true in E|].
      { apply Rabs_def2 in Hv. lra. }
      destruct (Rgeb v hi); auto.
    + unfold acos_extrap_value.
      destruct (Rleb hi lo) eqn:E; [apply Rleb_true in E; lra|].
      destruct (Rgeb hi hi) eqn:E'; [|apply Rgeb_false in E'; lra]. ring.
    + unfold acos_extrap_value.
      destruct (Rleb hi lo) eqn:E; [apply Rleb_true in E; lra|].
      destruct (Rgeb hi hi) eqn:E'; [|apply Rgeb_false in E'; lra]. ring.
  - apply (continuity_pt_glue _ (fun v => (v - hi) * _dacos_dx hi + acos hi)
             (fun v => (v - hi) * _dacos_dx hi + acos hi) hi 1);
      [lra| | | |apply lin_cont|apply lin_cont].
    + intros v _. unfold acos_extrap_value.
      destruct (Rleb v hi) eqn:E; auto.
      apply Rleb_false in E.
      destruct (Rgeb v hi) eqn:E'; [auto|apply Rgeb_false in E'; lra].
    + unfold acos_extrap_value.
      destruct (Rleb hi hi) eqn:E; [reflexivity|apply Rleb_false in E; lra].
    + unfold acos_extrap_value.
      destruct (Rleb hi hi) eqn:E; [reflexivity|apply Rleb_false in E; lra].
Qed.

Lemma acos_extrap_value_cont_lower (lo hi : R) :
  lo <= hi -> -1 < lo -> hi < 1 -> continuity_pt (acos_extrap_value lo hi) lo.
Proof.
  intros Hle Hlo Hhi.
  destruct (Rle_lt_or_eq_dec lo hi Hle) as [Hlt | <-].
  - apply (continuity_pt_glue _ acos (fun v => (v - lo) * _dacos_dx lo + acos lo) lo (hi - lo));
      [lra| | | |apply acos_cont; lra|apply lin_cont].
    + intros v Hv. unfold acos_extrap_value.
      destruct (Rleb v lo); auto.
      destruct (Rgeb v hi) eqn:E; [apply Rgeb_true in E|auto].
      apply Rabs_def2 in Hv. lra.
    + unfold acos_extrap_value.
      destruct (Rleb lo lo) eqn:E; [ring|apply Rleb_false in E; lra].
    + unfold acos_extrap_value.
      destruct (Rleb lo lo) eqn:E; [ring|apply Rleb_false in E; lra].
  - now apply acos_extrap_value_cont_upper.
Qed.

Lemma continuity_pt_ext (f g : R -> R) (x : R) :
  (forall v, f v = g v) -> continuity_pt g x -> continuity_pt f x.
Proof.
  intros E C eps Heps. destruct (C eps Heps) as (d & Hd & H).
  exists d. split; [assumption|]. intros v Hv. rewrite !E. now apply H.
Qed.

(** The default bounds of [acos_linear_extrapolation] pass both guards. *)
Lemma default_bounds_accepted (x : tensor) :
  exists t,
    acos_linear_extrapolation x (- DEFAULT_ACOS_BOUND, DEFAULT_ACOS_BOUND) = Ok t
    /\ rdims t = rdims x.
Proof.
  destruct (acos_linear_extrapolation_on_ok (fun _ => 0) x
              (- DEFAULT_ACOS_BOUND) DEFAULT_ACOS_BOUND) as (t & Ht & Hd & _);
    try (unfold DEFAULT_ACOS_BOUND; lra).
  now exists t.
Qed.

(** C6: for a valid bound pair, [acos_linear_extrapolation] returns a tensor
    of the shape of [x] whose entry is [arccos v] for [lo < v < hi], and the
    first-order Taylor approximation of arccos anchored at [hi] for
    [v >= hi], at [lo] for [v <= lo]; as a function of the entry it is
    continuous at [lo] and at [hi]. *)
Theorem acos_linear_extrapolation_piecewise (x : tensor) (lo hi : R) :
  lo <= hi -> -1 < lo -> hi < 1 ->
  (exists t,
      acos_linear_extrapolation x (lo, hi) = Ok t
      /\ shape t = shape x
      /\ forall idx,
           let v := rget x idx in
           (lo < v < hi -> rget t idx = acos v)
           /\ (v >= hi -> rget t idx = (v - hi) * (-1 / sqrt (1 - hi * hi)) + acos hi)
           /\ (v <= lo -> rget t idx = (v - lo) * (-1 / sqrt (1 - lo * lo)) + acos lo))
  /\ continuity_pt (fun v => item (acos_linear_extrapolation (scalar v) (lo, hi))) lo
  /\ continuity_pt (fun v => item (acos_linear_extrapolation (scalar v) (lo, hi))) hi.
Proof.
  intros Hle Hlo Hhi.
  assert (Hitem : forall v,
             item (acos_linear_extrapolation (scalar v) (lo, hi)) = acos_extrap_value lo hi v).
  { intros v.
    destruct (acos_linear_extrapolation_on_ok (fun _ => 0) (scalar v) lo hi Hle Hlo Hhi)
      as (t & Ht & _ & Hv).
    unfold acos_linear_extrapolation. rewrite Ht. simpl. now rewrite Hv. }
  split; [|split].
  - destruct (acos_linear_extrapolation_on_ok (fun _ => 0) x lo hi Hle Hlo Hhi)
      as (t & Ht & Hd & Hv).
    exists t. split; [exact Ht|]. split; [unfold shape; now rewrite Hd|].
    intros idx v. rewrite Hv. fold v. unfold acos_extrap_value, _dacos_dx.
    destruct (Rleb v lo) eqn:E1; [apply Rleb_true in E1|apply Rleb_false in E1];
      (destruct (Rgeb v hi) eqn:E2; [apply Rgeb_true in E2|apply Rgeb_false in E2]);
      repeat split; intros; try lra; try reflexivity.
    replace hi with lo by lra. reflexivity.
  - apply (continuity_pt_ext _ _ _ Hitem). now apply acos_extrap_value_cont_lower.
  - apply (continuity_pt_ext _ _ _ Hitem). now apply acos_extrap_value_cont_upper.
Qed.

Lemma acos_linear_extrapolation_piecewise_witness :
  (exists t,
      acos_linear_extrapolation (vec [0; 1; -1]) (- (1 / 2), 1 / 2) = Ok t
      /\ shape t = shape (vec [0; 1; -1])
      /\ forall idx,
           let v := rget (vec [0; 1; -1]) idx in
           (- (1 / 2) < v < 1 / 2 -> rget t idx = acos v)
           /\ (v >= 1 / 2 ->
               rget t idx = (v - 1 / 2) * (-1 / sqrt (1 - 1 / 2 * (1 / 2))) + acos (1 / 2))
           /\ (v <= - (1 / 2) ->
               rget t idx
               = (v - - (1 / 2)) * (-1 / sqrt (1 - - (1 / 2) * - (1 / 2))) + acos (- (1 / 2))))
  /\ continuity_pt
       (fun v => item (acos_linear_extrapolation (scalar v) (- (1 / 2), 1 / 2))) (- (1 / 2))
  /\ continuity_pt
       (fun v => item (acos_linear_extrapolation (scalar v) (- (1 / 2), 1 / 2))) (1 / 2).
Proof.
  apply (acos_linear_extrapolation_piecewise (vec [0; 1; -1]) (- (1 / 2)) (1 / 2)); lra.
Defined.

(** ** Reductions along the last dimension *)

Lemma reduce_dim_last (red : nat -> (nat -> R) -> R) (t : tensor) (n : nat) (rb : list nat) :
  rdims t = n :: rb ->
  reduce_dim red (-1) t = Ok (mkT rb (fun idx => red n (fun k => rget t (k :: idx)))).
Proof.
  intros H. unfold reduce_dim, ndim. rewrite H. reflexivity.
Qed.

(** ** Angle between identical unit quaternions *)

Lemma extrapolated_zero_angle_pos (cos_bound : R) :
  0 < cos_bound < 1 -> 0 < extrapolated_zero_angle cos_bound.
Proof.
  intros Hc. unfold extrapolated_zero_angle.
  set (b := 1 - cos_bound). assert (Hb : 0 < b < 1) by (unfold b; lra).
  replace cos_bound with (1 - b) by (unfold b; ring).
  assert (Hs : 0 < sqrt (1 - b * b)) by (apply sqrt_lt_R0; nra).
  assert (Hss : sqrt (1 - b * b) * sqrt (1 - b * b) = 1 - b * b) by (apply sqrt_sqrt; nra).
  assert (Hsin : sin (acos b) = sqrt (1 - b * b)).
  { rewrite sin_acos by lra. reflexivity. }
  assert (Hlt : sin (acos b) < acos b).
  { apply sin_lt_x. apply acos_bound_lt. lra. }
  assert (Hdiv : (1 - b) / sqrt (1 - b * b) <= sqrt (1 - b * b)).
  { apply (Rmult_le_reg_r (sqrt (1 - b * b))); [assumption|].
    unfold Rdiv. rewrite Rmult_assoc, Rinv_l by lra. nra. }
  lra.
Qed.

Lemma quaternion_self_angle (q : tensor) (rb : list nat) (cos_bound : R) :
  rdims q = 4%nat :: rb ->
  (forall b, in_range rb b -> quat_dot q q b = 1) ->
  cos_bound < 1 ->
  exists t,
    quaternion_relative_angle q q cos_bound = Ok t
    /\ rdims t = rb
    /\ forall b, in_range rb b ->
         (cos_bound <= 0 -> rget t b = 0)
         /\ (0 < cos_bound -> rget t b = extrapolated_zero_angle cos_bound).
Proof.
  intros Hd Hunit Hcb. unfold quaternion_relative_angle, tmul.
  rewrite (map2_same_dims Rmult q q eq_refl). cbn [bind].
  unfold sum_dim. rewrite (reduce_dim_last _ _ 4%nat rb) by (simpl; exact Hd).
  cbn [bind rget].
  assert (Hcos : forall b, in_range rb b ->
            sum_n 4 (fun k => rget q (bidx (rdims q) (k :: b)) * rget q (bidx (rdims q) (k :: b))) = 1).
  { intros b Hb. rewrite <- (Hunit b Hb). unfold quat_dot. rewrite Hd. cbn [bidx Nat.eqb].
    now rewrite (bidx_in_range rb b Hb). }
  destruct (Rgtb cos_bound 0) eqn:E; [apply Rgtb_true in E|apply Rgtb_false in E].
  - destruct (acos_linear_extrapolation_on_ok (fun _ => 0)
                (mkT rb (fun idx => sum_n 4 (fun k => rget q (bidx (rdims q) (k :: idx))
                                                  * rget q (bidx (rdims q) (k :: idx)))))
                (- (1 - cos_bound)) (1 - cos_bound)) as (t & Ht & Hdt & Hv); try lra.
    exists t. split; [exact Ht|]. split; [exact Hdt|].
    intros b Hb. split; [lra|]. intros _. rewrite Hv. cbn [rget]. rewrite (Hcos b Hb).
    unfold acos_extrap_value, extrapolated_zero_angle, _dacos_dx.
    destruct (Rleb 1 (- (1 - cos_bound))) eqn:E1; [apply Rleb_true in E1; lra|].
    destruct (Rgeb 1 (1 - cos_bound)) eqn:E2; [|apply Rgeb_false in E2; lra].
    unfold Rdiv. ring.
  - eexists. split; [reflexivity|]. split; [reflexivity|].
    intros b Hb. split; [|lra]. intros _. cbn [smul tmap rget]. rewrite (Hcos b Hb), acos_1. ring.
Qed.

(** C4 (as amended): for identical unit quaternions the function returns
    exactly 0 when [cos_bound <= 0] (the [2 * acos] branch); for
    [0 < cos_bound < 1], the default [1e-4] included, the cosine 1 lies above
    the upper bound [1 - cos_bound] and the function returns the linear
    extrapolation [acos (1 - cos_bound) - cos_bound / sqrt (1 - (1 - cos_bound)^2)],
    which is strictly positive. *)
Theorem quaternion_relative_angle_identical (q : tensor) (bs : list nat) (cos_bound : R) :
  shape q = bs ++ [4%nat] ->
  (forall b, in_range (rev bs) b -> quat_dot q q b = 1) ->
  cos_bound < 1 ->
  exists t,
    quaternion_relative_angle q q cos_bound = Ok t
    /\ shape t = bs
    /\ forall b, in_range (rev bs) b ->
         (cos_bound <= 0 -> rget t b = 0)
         /\ (0 < cos_bound ->
             rget t b = extrapolated_zero_angle cos_bound /\ 0 < rget t b).
Proof.
  intros Hs Hunit Hcb. apply shape_snoc in Hs.
  destruct (quaternion_self_angle q (rev bs) cos_bound Hs Hunit Hcb) as (t & Ht & Hd & Hv).
  exists t. split; [exact Ht|]. split; [unfold shape; rewrite Hd; apply rev_involutive|].
  intros b Hb. destruct (Hv b Hb) as [H0 H1]. split; [exact H0|].
  intros Hpos. rewrite (H1 Hpos). split; [reflexivity|].
  apply extrapolated_zero_angle_pos. lra.
Qed.

Lemma unit_quaternion_identity :
  forall b, in_range [] b -> quat_dot (vec [1; 0; 0; 0]) (vec [1; 0; 0; 0]) b = 1.
Proof.
  intros b Hb. inversion Hb; subst. unfold quat_dot, sum_n. simpl. ring.
Qed.

Lemma quaternion_relative_angle_identical_witness :
  exists t,
    quaternion_relative_angle (vec [1; 0; 0; 0]) (vec [1; 0; 0; 0]) default_cos_bound = Ok t
    /\ shape t = []
    /\ forall b, in_range (rev []) b ->
         (default_cos_bound <= 0 -> rget t b = 0)
         /\ (0 < default_cos_bound ->
             rget t b = extrapolated_zero_angle default_cos_bound /\ 0 < rget t b).
Proof.
  apply (quaternion_relative_angle_identical (vec [1; 0; 0; 0]) [] default_cos_bound).
  - reflexivity.
  - intros b Hb. inversion Hb; subst. unfold quat_dot, sum_n. simpl. ring.
  - unfold default_cos_bound. lra.
Defined.

(** C4 as stated fails: with the default [cos_bound = 1e-4] the angle of
    [[1,0,0,0]] to itself is not 0. *)
Lemma quaternion_relative_angle_default_nonzero :
  exists t,
    quaternion_relative_angle (vec [1; 0; 0; 0]) (vec [1; 0; 0; 0]) default_cos_bound = Ok t
    /\ shape t = []
    /\ rget t [] <> 0.
Proof.
  assert (Hcb : 0 < default_cos_bound < 1) by (unfold default_cos_bound; lra).
  destruct (quaternion_self_angle (vec [1; 0; 0; 0]) [] default_cos_bound eq_refl
              unit_quaternion_identity (proj2 Hcb)) as (t & Ht & Hd & Hv).
  exists t. split; [exact Ht|]. split; [unfold shape; now rewrite Hd|].
  destruct (Hv [] (Forall2_nil _)) as [_ H1]. rewrite (H1 (proj1 Hcb)).
  pose proof (extrapolated_zero_angle_pos default_cos_bound Hcb). lra.
Qed.

(** ** Relative angle of two rotations *)

Lemma transpose_last2 (d0 d1 : Z) (t : tensor) (n m : nat) (rb : list nat) :
  (d0 = (-1)%Z /\ d1 = (-2)%Z) \/ (d0 = (-2)%Z /\ d1 = (-1)%Z) ->
  rdims t = n :: m :: rb ->
  exists f,
    transpose d0 d1 t = Ok (mkT (m :: n :: rb) f)
    /\ forall j i b, f (j :: i :: b) = rget t (i :: j :: b).
Proof.
  intros [[-> ->] | [-> ->]] H; unfold transpose, ndim; rewrite H;
    (eexists; split; [reflexivity|]); intros j i b; reflexivity.
Qed.

Lemma matmul_batched (a b : tensor) (k m p : nat) (ba bb bs : list nat) :
  rdims a = k :: m :: ba -> rdims b = p :: k :: bb -> bshape ba bb = Some bs ->
  matmul a b =
  Ok (mkT (p :: m :: bs)
        (fun idx => match idx with
                    | j :: i :: bi =>
                        sum_n k (fun c => rget a (c :: i :: bidx ba bi)
                                          * rget b (j :: c :: bidx bb bi))
                    | _ => 0
                    end)).
Proof.
  intros Ha Hb Hs. unfold matmul. rewrite Ha, Hb, Nat.eqb_refl, Hs. reflexivity.
Qed.

Lemma matmul_batch_mismatch (a b : tensor) (k m p : nat) (ba bb : list nat) :
  rdims a = k :: m :: ba -> rdims b = p :: k :: bb -> bshape ba bb = None ->
  matmul a b = Raise RuntimeError.
Proof.
  intros Ha Hb Hs. unfold matmul. rewrite Ha, Hb, Nat.eqb_refl, Hs. reflexivity.
Qed.

Lemma so3_rotation_angle_cos (Rt : tensor) (rb : list nat) (eps cos_bound : R) :
  rdims Rt = 3%nat :: 3%nat :: rb ->
  exists t,
    so3_rotation_angle Rt eps true cos_bound = Ok t
    /\ rdims t = rb
    /\ forall b, in_range rb b ->
         rget t b
         = (rget Rt (0 :: 0 :: b)%nat + rget Rt (1 :: 1 :: b)%nat + rget Rt (2 :: 2 :: b)%nat - 1)
           * (1 / 2).
Proof.
  intros H. unfold so3_rotation_angle, index_last2. rewrite H. cbn [Nat.eqb negb orb Nat.ltb Nat.leb andb bind].
  unfold tadd. rewrite map2_same_dims by reflexivity. cbn [bind rdims].
  rewrite map2_same_dims by reflexivity. cbn [bind rdims].
  eexists. split; [reflexivity|]. split; [reflexivity|].
  intros b Hb. cbn [tmap rget]. now rewrite !(bidx_in_range rb b Hb).
Qed.

(** C9: on batches of 3x3 matrices the cosine of the relative angle is
    symmetric in its two arguments; when the batch dimensions do not
    broadcast both calls raise the same error. *)
Theorem so3_relative_angle_cos_symmetric
    (R1 R2 : tensor) (bs1 bs2 : list nat) (eps cos_bound : R) :
  shape R1 = bs1 ++ [3; 3]%nat ->
  shape R2 = bs2 ++ [3; 3]%nat ->
  result_eq (so3_relative_angle R1 R2 eps true cos_bound)
            (so3_relative_angle R2 R1 eps true cos_bound).
Proof.
  intros H1 H2. apply shape_snoc2 in H1, H2.
  destruct (transpose_last2 (-2) (-1) R1 _ _ _ (or_intror (conj eq_refl eq_refl)) H1)
    as (f1 & T1 & Hf1).
  destruct (transpose_last2 (-2) (-1) R2 _ _ _ (or_intror (conj eq_refl eq_refl)) H2)
    as (f2 & T2 & Hf2).
  unfold so3_relative_angle. rewrite T1, T2. cbn [bind].
  destruct (bshape (rev bs1) (rev bs2)) as [bs|] eqn:E.
  - assert (E' : bshape (rev bs2) (rev bs1) = Some bs) by (now rewrite bshape_comm).
    rewrite (matmul_batched R1 (mkT _ f2) 3 3 3 _ _ bs H1 eq_refl E).
    rewrite (matmul_batched R2 (mkT _ f1) 3 3 3 _ _ bs H2 eq_refl E').
    cbn [bind].
    match goal with |- result_eq (so3_rotation_angle ?A _ _ _) (so3_rotation_angle ?B _ _ _) =>
      destruct (so3_rotation_angle_cos A bs eps cos_bound eq_refl) as (ta & -> & Hda & Hva);
      destruct (so3_rotation_angle_cos B bs eps cos_bound eq_refl) as (tb & -> & Hdb & Hvb)
    end.
    split; [congruence|]. rewrite Hda. intros b Hb.
    rewrite (Hva b Hb), (Hvb b Hb). cbn [rget]. unfold sum_n. cbn [seq fold_right].
    rewrite !Hf1, !Hf2. ring.
  - assert (E' : bshape (rev bs2) (rev bs1) = None) by (now rewrite bshape_comm).
    rewrite (matmul_batch_mismatch R1 (mkT _ f2) 3 3 3 _ _ H1 eq_refl E).
    rewrite (matmul_batch_mismatch R2 (mkT _ f1) 3 3 3 _ _ H2 eq_refl E').
    reflexivity.
Qed.

Lemma so3_relative_angle_cos_symmetric_witness :
  result_eq (so3_relative_angle eye3 (mat [[0; -1; 0]; [1; 0; 0]; [0; 0; 1]]) default_eps true
               default_cos_bound)
            (so3_relative_angle (mat [[0; -1; 0]; [1; 0; 0]; [0; 0; 1]]) eye3 default_eps true
               default_cos_bound).
Proof.
  apply (so3_relative_angle_cos_symmetric eye3 (mat [[0; -1; 0]; [1; 0; 0]; [0; 0; 1]]) [] []);
    reflexivity.
Defined.

(** ** Quaternion to rotation matrix *)

Lemma same_dims_true (t0 t : tensor) : rdims t = rdims t0 -> same_dims t0 t = true.
Proof. intros E. unfold same_dims. now destruct (list_eq_dec Nat.eq_dec (rdims t) (rdims t0)). Qed.

Lemma lift2_map2_ok (f : R -> R -> R) (a b : tensor) (rb : list nat) :
  rdims a = rb -> rdims b = rb ->
  lift2 (map2 f) (Ok a) (Ok b)
  = Ok (mkT rb (fun idx => f (rget a (bidx rb idx)) (rget b (bidx rb idx)))).
Proof.
  intros <- E. cbn [lift2 bind]. now rewrite (map2_same_dims f a b (eq_sym E)).
Qed.

Lemma quaternion_to_matrix_entries (q : tensor) (rb : list nat) :
  rdims q = 4%nat :: rb ->
  exists M,
    quaternion_to_matrix q = Ok M
    /\ rdims M = 3%nat :: 3%nat :: rb
    /\ forall b row col, in_range rb b -> (row < 3)%nat -> (col < 3)%nat ->
         rget M (col :: row :: b)
         = nth (3 * row + col)
             (rotation_entries (quat_dot q q b)
                (rget q (0 :: b)%nat) (rget q (1 :: b)%nat)
                (rget q (2 :: b)%nat) (rget q (3 :: b)%nat)) 0.
Proof.
  intros H. unfold quaternion_to_matrix, unbind_last. rewrite H. cbn [bind seq map].
  unfold tmul at 1. rewrite (map2_same_dims Rmult q q eq_refl). cbn [bind].
  unfold sum_dim. rewrite (reduce_dim_last _ _ 4%nat rb) by (simpl; exact H).
  cbn [bind]. cbv zeta. unfold tadd, tsub, tmul.
  rewrite !(lift2_map2_ok _ _ _ rb) by reflexivity.
  cbn [one_minus bind].
  unfold stack_last. cbn [forallb]. rewrite !same_dims_true by reflexivity.
  cbn [andb bind]. unfold reshape_last. cbn [rdims length Nat.eqb Nat.mul Nat.add bind tmap].
  eexists. split; [reflexivity|]. split; [reflexivity|].
  intros b row col Hb Hrow Hcol. cbn [rget]. unfold rotation_entries, quat_dot. rewrite H.
  destruct row as [|[|[|row]]]; [| | |lia];
    (destruct col as [|[|[|col]]]; [| | |lia]);
    cbn [Nat.mul Nat.add nth rget rdims tmap bidx Nat.eqb];
    rewrite !(bidx_in_range rb b Hb); reflexivity.
Qed.

Lemma scaled_norm_nonzero (c r i j k : R) :
  c <> 0 ->
  r * r + (i * i + (j * j + (k * k + 0))) <> 0 ->
  c * r * (c * r) + (c * i * (c * i) + (c * j * (c * j) + c * k * (c * k))) <> 0
  /\ r * r + (i * i + (j * j + k * k)) <> 0.
Proof.
  intros Hc Hn. split; intros E; apply Hn.
  - assert (E' : c * c * (r * r + (i * i + (j * j + (k * k + 0)))) = 0).
    { etransitivity; [|exact E]. ring. }
    apply Rmult_integral in E'. destruct E' as [E'|E']; [|exact E'].
    apply Rmult_integral in E'. now destruct E'.
  - etransitivity; [|exact E]. ring.
Qed.

(** C10: rescaling a quaternion of nonzero norm by a nonzero scalar does not
    change the matrix [quaternion_to_matrix] returns. *)
Theorem quaternion_to_matrix_scale_invariant (q : tensor) (bs : list nat) (c : R) :
  shape q = bs ++ [4%nat] ->
  c <> 0 ->
  (forall b, in_range (rev bs) b -> quat_dot q q b <> 0) ->
  exists M Mc,
    quaternion_to_matrix q = Ok M
    /\ quaternion_to_matrix (smul c q) = Ok Mc
    /\ shape M = bs ++ [3; 3]%nat
    /\ tensor_eq Mc M.
Proof.
  intros Hs Hc Hn. apply shape_snoc in Hs.
  destruct (quaternion_to_matrix_entries q (rev bs) Hs) as (M & HM & HdM & HvM).
  destruct (quaternion_to_matrix_entries (smul c q) (rev bs) Hs) as (Mc & HMc & HdMc & HvMc).
  exists M, Mc. split; [exact HM|]. split; [exact HMc|]. split.
  { unfold shape. rewrite HdM. cbn [rev]. now rewrite rev_involutive, <- app_assoc. }
  split; [congruence|]. rewrite HdMc. intros idx Hidx.
  inversion Hidx as [|col n3 idx' rd' Hcol Hrest]; subst.
  inversion Hrest as [|row n3' b rd'' Hrow Hb]; subst.
  rewrite (HvM b row col Hb Hrow Hcol), (HvMc b row col Hb Hrow Hcol).
  specialize (Hn b Hb). unfold quat_dot, sum_n in *. cbn [seq fold_right] in *.
  cbn [smul tmap rget]. unfold rotation_entries.
  destruct row as [|[|[|row]]]; [| | |lia];
    (destruct col as [|[|[|col]]]; [| | |lia]);
    cbn [Nat.mul Nat.add nth]; field;
    destruct (scaled_norm_nonzero c _ _ _ _ Hc Hn); split; assumption.
Qed.

Lemma quaternion_to_matrix_scale_invariant_witness :
  exists M Mc,
    quaternion_to_matrix (vec [1; 2; 0; 2]) = Ok M
    /\ quaternion_to_matrix (smul 3 (vec [1; 2; 0; 2])) = Ok Mc
    /\ shape M = [] ++ [3; 3]%nat
    /\ tensor_eq Mc M.
Proof.
  apply (quaternion_to_matrix_scale_invariant (vec [1; 2; 0; 2]) [] 3).
  - reflexivity.
  - lra.
  - intros b Hb. inversion Hb; subst. unfold quat_dot, sum_n. simpl. lra.
Defined.

(** ** Evaluation on concrete tensors *)

Ltac eval_tensor :=
  cbv -[Rplus Rminus Rmult Rdiv Rinv Ropp sqrt IZR acos PI
        Rle_dec Rge_dec Rgt_dec Rlt_dec].

Ltac decide_with dec a b :=
  first [ destruct (dec a b) as [?|?]; [|exfalso; lra]
        | destruct (dec a b) as [?|?]; [exfalso; lra|] ].

Ltac decide_comparisons :=
  repeat match goal with
         | |- context [Rle_dec ?a ?b] => decide_with Rle_dec a b
         | |- context [Rge_dec ?a ?b] => decide_with Rge_dec a b
         | |- context [Rgt_dec ?a ?b] => decide_with Rgt_dec a b
         | |- context [Rlt_dec ?a ?b] => decide_with Rlt_dec a b
         end.

(** ** Pose distances *)

(** Whatever velocities are passed, a call that returns gives what the call
    without velocities gives: line 145 returns [w_pos * T_distance], not the
    accumulator [D] that line 143 updated. *)
Lemma euclidean_distance_ignores_velocity
    (x_batch x_target : tensor) (vel_batch vel_target : option tensor)
    (w_pos w_rot w_vpos w_vrot : R) (broadcast_target normalized_input : bool) (t : tensor) :
  euclidean_distance x_batch x_target vel_batch vel_target
    w_pos w_rot w_vpos w_vrot broadcast_target normalized_input = Ok t ->
  euclidean_distance x_batch x_target None None
    w_pos w_rot w_vpos w_vrot broadcast_target normalized_input = Ok t.
Proof.
  unfold euclidean_distance. intros H.
  repeat match type of H with
         | bind ?e _ = _ =>
             destruct e as [?|?] eqn:?; cbn [bind] in H |- *; [|discriminate]
         | (let '(_, _) := ?p in _) = _ => destruct p
         end.
  exact H.
Qed.

(** C1 (code defect): positions equal, velocities [[3,4]] against [[0,0]],
    all weights 1.  The function returns 0, the position term alone; the
    weighted sum of the claim is 5. *)
Theorem euclidean_distance_drops_velocity_term :
  exists t,
    euclidean_distance (mat [[0; 0]]) (mat [[0; 0]])
      (Some (mat [[3; 4]])) (Some (mat [[0; 0]])) 1 0 1 0 false false = Ok t
    /\ shape t = [1%nat]
    /\ at_index t [0%nat] = 0
    /\ claimed_euclidean_distance 1 1 [0; 0] [0; 0] [3; 4] [0; 0] = 5.
Proof.
  eexists. split; [reflexivity|]. split; [reflexivity|]. split.
  - eval_tensor. replace ((0 - 0) * (0 - 0) + ((0 - 0) * (0 - 0) + 0)) with 0 by ring.
    rewrite sqrt_0. ring.
  - unfold claimed_euclidean_distance, euclid_norm. cbn [combine map fold_right fst snd].
    replace ((0 - 0) * (0 - 0) + ((0 - 0) * (0 - 0) + 0)) with 0 by ring.
    replace ((3 - 0) * (3 - 0) + ((4 - 0) * (4 - 0) + 0)) with (5 * 5) by ring.
    rewrite sqrt_0, sqrt_square by lra. ring.
Qed.

(** The weights of [R3S3_distance] as line 205 applies them: [w_pos] on
    the quaternion angle, [w_rot] on the position distance. *)
Lemma R3S3_distance_weights (x_batch x_target : tensor) (w_pos w_rot : R) (t : tensor) :
  R3S3_distance x_batch x_target w_pos w_rot = Ok t ->
  exists x_target' q_batch q_target p_batch p_target diff R_distance T_distance,
    (if (ndim x_target =? 1)%nat then unsqueeze 0 x_target else Ok x_target) = Ok x_target'
    /\ slice_last_from 3 x_batch = Ok q_batch
    /\ slice_last_from 3 x_target' = Ok q_target
    /\ quaternion_relative_angle q_batch q_target default_cos_bound = Ok R_distance
    /\ slice_last_to 3 x_batch = Ok p_batch
    /\ slice_last_to 3 x_target' = Ok p_target
    /\ tsub p_batch p_target = Ok diff
    /\ linalg_norm (-1) diff = Ok T_distance
    /\ tadd (smul w_pos R_distance) (smul w_rot T_distance) = Ok t.
Proof.
  unfold R3S3_distance. intros H.
  repeat match type of H with
         | bind ?e _ = _ =>
             destruct e as [?|?] eqn:?; cbn [bind] in H; [|discriminate]
         end.
  repeat eexists; eassumption.
Qed.

(** C2 (code defect): equal positions, quaternions [[1,0,0,0]] and
    [[0,1,0,0]] (relative angle [PI / 2]), [w_pos = 1], [w_rot = 0].  The
    function returns [PI / 2], the rotation term weighted by [w_pos]; the
    weighting of the claim gives 0. *)
Theorem R3S3_distance_swaps_weights :
  exists t angle,
    R3S3_distance (vec [0; 0; 0; 1; 0; 0; 0]) (vec [0; 0; 0; 0; 1; 0; 0]) 1 0 = Ok t
    /\ shape t = [1%nat]
    /\ at_index t [0%nat] = PI / 2
    /\ quaternion_relative_angle (vec [1; 0; 0; 0]) (mat [[0; 1; 0; 0]]) default_cos_bound
       = Ok angle
    /\ at_index angle [0%nat] = PI / 2
    /\ claimed_R3S3_distance 1 0 (PI / 2) 0 = 0
    /\ PI / 2 <> 0.
Proof.
  eexists. eexists. split; [|split; [|split; [|split; [|split; [|split]]]]].
  - eval_tensor. decide_comparisons. reflexivity.
  - reflexivity.
  - eval_tensor. decide_comparisons.
    replace (1 * 0 + (0 * 1 + (0 * 0 + (0 * 0 + 0)))) with 0 by ring.
    rewrite acos_0. ring.
  - eval_tensor. decide_comparisons. reflexivity.
  - eval_tensor. decide_comparisons.
    replace (1 * 0 + (0 * 1 + (0 * 0 + (0 * 0 + 0)))) with 0 by ring.
    rewrite acos_0. ring.
  - unfold claimed_R3S3_distance. ring.
  - pose proof PI_RGT_0. lra.
Qed.

(** ** MinMaxScaler *)

(** On a numpy array the first call takes both bounds along [dim]. *)
Lemma scale_numpy_first_call (dim : option Z) (X : tensor) :
  MinMaxScaler.scale (MinMaxScaler.init None None dim) (NdArray X)
  = (lo <- np_min dim X ;;
     hi <- np_max dim X ;;
     rescale (MinMaxScaler.mk (Some lo) (Some hi) dim) X lo hi).
Proof.
  unfold MinMaxScaler.scale, MinMaxScaler.init, rescale. cbn.
  destruct (np_min dim X); cbn; [|reflexivity].
  destruct (np_max dim X); reflexivity.
Qed.

(** On a torch tensor the first call takes the minimum along [dim], and
    the maximum over the whole tensor whatever [dim] is. *)
Lemma scale_torch_first_call (dim : option Z) (X : tensor) :
  MinMaxScaler.scale (MinMaxScaler.init None None dim) (Tensor X)
  = (lo <- match dim with
           | None => torch_min_all X
           | Some d => torch_min_dim d X
           end ;;
     hi <- torch_max_all X ;;
     rescale (MinMaxScaler.mk (Some lo) (Some hi) dim) X lo hi).
Proof.
  unfold MinMaxScaler.scale, MinMaxScaler.init, rescale. cbn.
  destruct dim as [d|]; cbn.
  - destruct (torch_min_dim d X); cbn; [|reflexivity].
    destruct (torch_max_all X); reflexivity.
  - destruct (torch_min_all X); cbn; [|reflexivity].
    destruct (torch_max_all X); reflexivity.
Qed.



(** C3 (code defect): a torch tensor [[0,10],[2,4]] scaled along [dim = 0].
    The cached minimum is taken along the axis, [0, 4], but the cached
    maximum is the global 10, a 0-d tensor, and the entry [1][0] is scaled to
    [2 / 10]; on the same data as a numpy array the maximum is [2, 10] and
    the entry is scaled to 1, as the claim says. *)
Theorem scale_torch_max_ignores_dim :
  (exists self' X_scaled lo hi,
      MinMaxScaler.scale (MinMaxScaler.init None None (Some 0%Z))
        (Tensor (mat [[0; 10]; [2; 4]])) = Ok (self', X_scaled)
      /\ MinMaxScaler.min self' = Some lo
      /\ MinMaxScaler.max self' = Some hi
      /\ shape lo = [2%nat] /\ at_index lo [0%nat] = 0 /\ at_index lo [1%nat] = 4
      /\ shape hi = [] /\ at_index hi [] = 10
      /\ shape X_scaled = [2; 2]%nat
      /\ at_index X_scaled [1; 0]%nat = 2 / 10)
  /\ (exists self' X_scaled lo hi,
      MinMaxScaler.scale (MinMaxScaler.init None None (Some 0%Z))
        (NdArray (mat [[0; 10]; [2; 4]])) = Ok (self', X_scaled)
      /\ MinMaxScaler.min self' = Some lo
      /\ MinMaxScaler.max self' = Some hi
      /\ shape lo = [2%nat] /\ at_index lo [0%nat] = 0 /\ at_index lo [1%nat] = 4
      /\ shape hi = [2%nat] /\ at_index hi [0%nat] = 2 /\ at_index hi [1%nat] = 10
      /\ shape X_scaled = [2; 2]%nat
      /\ at_index X_scaled [1; 0]%nat = 1).
Proof.
  split; do 4 eexists.
  - split; [eval_tensor; reflexivity|].
    repeat (split; [first [reflexivity | eval_tensor; decide_comparisons; reflexivity]|]).
    eval_tensor. decide_comparisons. lra.
  - split; [eval_tensor; reflexivity|].
    repeat (split; [first [reflexivity | eval_tensor; decide_comparisons; reflexivity]|]).
    eval_tensor. decide_comparisons. field.
Qed.

(** ** Rigid transforms and leading batch dimensions *)

Lemma unsqueeze_last (t : tensor) :
  unsqueeze (-1) t
  = Ok (mkT (1%nat :: rdims t)
          (fun idx => rget t (drop_at 0 idx))).
Proof. reflexivity. Qed.

Lemma squeeze_last_one (t : tensor) (rb : list nat) :
  rdims t = 1%nat :: rb -> rb <> [] ->
  squeeze (-1) t = Ok (mkT rb (fun idx => rget t (0%nat :: idx))).
Proof.
  intros H Hne. unfold squeeze, ndim. rewrite H.
  destruct rb as [|n rb]; [now contradiction Hne|]. reflexivity.
Qed.

Lemma unsqueeze_past_end (d : Z) (t : tensor) (n : nat) :
  ndim t = n -> new_dim_from_back d n = Raise IndexError -> unsqueeze d t = Raise IndexError.
Proof. intros <- H. unfold unsqueeze. now rewrite H. Qed.

Lemma unsqueeze_at (d : Z) (t : tensor) (n p : nat) :
  ndim t = n -> new_dim_from_back d n = Ok p ->
  unsqueeze d t = Ok (mkT (insert_at p 1%nat (rdims t)) (fun idx => rget t (drop_at p idx))).
Proof. intros <- H. unfold unsqueeze. now rewrite H. Qed.

(** [multiply_transform] accepts any number of leading batch dimensions. *)
Lemma multiply_transform_batched (w_rot_l w_trans_l l_rot_c l_trans_c : tensor) (bs : list nat) :
  shape w_rot_l = bs ++ [3; 3]%nat -> shape w_trans_l = bs ++ [3%nat] ->
  shape l_rot_c = bs ++ [3; 3]%nat -> shape l_trans_c = bs ++ [3%nat] ->
  exists w_rot_c w_trans_c,
    multiply_transform w_rot_l w_trans_l l_rot_c l_trans_c = Ok (w_rot_c, w_trans_c)
    /\ shape w_rot_c = bs ++ [3; 3]%nat
    /\ shape w_trans_c = bs ++ [3%nat].
Proof.
  intros H1 H2 H3 H4.
  apply shape_snoc2 in H1, H3. apply shape_snoc in H2, H4.
  unfold multiply_transform, float.
  rewrite (matmul_batched w_rot_l l_rot_c 3 3 3 _ _ _ H1 H3 (bshape_refl _)).
  cbn [bind]. rewrite unsqueeze_last. cbn [bind].
  rewrite (matmul_batched w_rot_l (mkT (1%nat :: rdims l_trans_c) _) 3 3 1 (rev bs) (rev bs)
             (rev bs) H1) by (first [now rewrite H4 | apply bshape_refl]).
  cbn [bind]. rewrite (squeeze_last_one _ (3%nat :: rev bs)) by (reflexivity || discriminate).
  cbn [bind]. unfold tadd. rewrite map2_same_dims by (now rewrite H2).
  cbn [bind rdims]. do 2 eexists. split; [reflexivity|].
  unfold shape; cbn [rdims rev]. rewrite rev_involutive, <- app_assoc. now split.
Qed.

(** C5 (code defect): [multiply_inv_transform] raises on every call
    whose [l_trans_w] has no leading batch dimension (shape [[3]]): line 28
    unsqueezes at the fixed position 2, where line 29 and
    [multiply_transform] use -1. *)
Theorem multiply_inv_transform_rejects_unbatched
    (l_rot_w l_trans_w l_rot_c l_trans_c : tensor) :
  shape l_trans_w = [3%nat] ->
  raises (multiply_inv_transform l_rot_w l_trans_w l_rot_c l_trans_c).
Proof.
  intros H. apply (shape_snoc l_trans_w []) in H.
  unfold multiply_inv_transform, raises.
  destruct (transpose (-1) (-2) l_rot_w) as [w_rot_l|e]; cbn [bind]; [|eauto].
  destruct (matmul w_rot_l l_rot_c) as [w_rot_c|e]; cbn [bind]; [|eauto].
  rewrite (unsqueeze_past_end 2 l_trans_w 1) by (unfold ndim; rewrite ?H; reflexivity).
  cbn [bind]. eauto.
Qed.

Lemma multiply_inv_transform_rejects_unbatched_witness :
  raises (multiply_inv_transform eye3 zeros3 eye3 zeros3).
Proof.
  apply (multiply_inv_transform_rejects_unbatched eye3 zeros3 eye3 zeros3). reflexivity.
Defined.

(** With two leading batch dimensions the column is inserted in the wrong
    place and the matrix product is refused. *)
Lemma multiply_inv_transform_rejects_two_batch_dims
    (l_rot_w l_trans_w l_rot_c l_trans_c : tensor) (A B : nat) :
  shape l_rot_w = [A; B; 3; 3]%nat -> shape l_trans_w = [A; B; 3]%nat ->
  raises (multiply_inv_transform l_rot_w l_trans_w l_rot_c l_trans_c).
Proof.
  intros H1 H2.
  apply (shape_snoc2 l_rot_w [A; B]) in H1. apply (shape_snoc l_trans_w [A; B]) in H2.
  cbn [rev app] in H1, H2.
  unfold multiply_inv_transform, raises.
  destruct (transpose_last2 (-1) (-2) l_rot_w _ _ _ (or_introl (conj eq_refl eq_refl)) H1)
    as (f & -> & _).
  cbn [bind].
  destruct (matmul _ l_rot_c) as [w_rot_c|e]; cbn [bind]; [|eauto].
  rewrite (unsqueeze_at 2 l_trans_w 3 1) by (unfold ndim; rewrite ?H2; reflexivity).
  cbn [bind]. rewrite H2. unfold matmul. cbn. eauto.
Qed.

(** The unbatched sibling call returns. *)
Lemma multiply_transform_unbatched_example :
  exists w_rot_c w_trans_c,
    multiply_transform eye3 zeros3 eye3 zeros3 = Ok (w_rot_c, w_trans_c)
    /\ shape w_rot_c = [3; 3]%nat /\ shape w_trans_c = [3%nat].
Proof. do 2 eexists. split; [reflexivity|]. split; reflexivity. Qed.

(** ** Round trip through the inverse transform *)

Lemma squeeze_at_one (d : Z) (t : tensor) (n p : nat) :
  ndim t = n -> dim_from_back d n = Ok p -> nth p (rdims t) O = 1%nat ->
  squeeze d t = Ok (mkT (drop_at p (rdims t)) (fun idx => rget t (insert_at p O idx))).
Proof. intros <- H E. unfold squeeze. rewrite H. cbn [bind]. now rewrite E. Qed.

Lemma in_range_1 (B b : nat) : (b < B)%nat -> in_range [B] [b].
Proof. intros H. repeat constructor. exact H. Qed.

(** With one leading batch dimension, which position 2 of line 28 fits, the
    round trip of C8 holds: for orthonormal [R_wl], [R_lw] its transpose and
    [t_lw = -(R_wl^T t_wl)], the call returns [(R_wl, t_wl)]. *)
Lemma multiply_inv_transform_roundtrip (R_wl t_wl R_lw t_lw : tensor) (B : nat) :
  shape R_wl = [B; 3; 3]%nat -> shape t_wl = [B; 3]%nat ->
  shape R_lw = [B; 3; 3]%nat -> shape t_lw = [B; 3]%nat ->
  (forall b i k, (b < B)%nat -> (i < 3)%nat -> (k < 3)%nat ->
     sum_n 3 (fun j => at_index R_wl [b; i; j] * at_index R_wl [b; k; j])
     = if (i =? k)%nat then 1 else 0) ->
  (forall b i j, (b < B)%nat -> (i < 3)%nat -> (j < 3)%nat ->
     at_index R_lw [b; i; j] = at_index R_wl [b; j; i]) ->
  (forall b i, (b < B)%nat -> (i < 3)%nat ->
     at_index t_lw [b; i] = - sum_n 3 (fun j => at_index R_wl [b; j; i] * at_index t_wl [b; j])) ->
  exists w_rot_c w_trans_c,
    multiply_inv_transform R_lw t_lw eye3 zeros3 = Ok (w_rot_c, w_trans_c)
    /\ tensor_eq w_rot_c R_wl
    /\ tensor_eq w_trans_c t_wl.
Proof.
  intros HR Ht HRi Hti Horth Hinv Htinv.
  apply (shape_snoc2 R_wl [B]) in HR. apply (shape_snoc t_wl [B]) in Ht.
  apply (shape_snoc2 R_lw [B]) in HRi. apply (shape_snoc t_lw [B]) in Hti.
  cbn [rev app] in HR, Ht, HRi, Hti.
  unfold at_index in Horth, Hinv, Htinv. cbn [rev app] in Horth, Hinv, Htinv.
  unfold multiply_inv_transform.
  destruct (transpose_last2 (-1) (-2) R_lw _ _ _ (or_introl (conj eq_refl eq_refl)) HRi)
    as (f & -> & Hf).
  cbn [bind].
  rewrite (matmul_batched (mkT _ f) eye3 3 3 3 [B] [] [B] eq_refl eq_refl eq_refl).
  cbn [bind].
  rewrite (unsqueeze_at 2 t_lw 2 0) by (unfold ndim; rewrite ?Hti; reflexivity).
  cbn [bind]. rewrite Hti. cbn [insert_at firstn skipn app].
  rewrite (matmul_batched (mkT _ f) (mkT [1; 3; B]%nat _) 3 3 1 [B] [B] [B]
             eq_refl eq_refl (bshape_refl _)).
  cbn [bind].
  rewrite (squeeze_at_one 2 _ 3 0) by reflexivity.
  cbn [bind rdims drop_at firstn skipn app].
  rewrite unsqueeze_last. cbn [bind].
  rewrite (matmul_batched (mkT _ f) (mkT (1%nat :: rdims zeros3) _) 3 3 1 [B] [] [B]
             eq_refl eq_refl eq_refl).
  cbn [bind].
  rewrite (squeeze_last_one _ [3; B]%nat) by (reflexivity || discriminate).
  cbn [bind]. unfold tadd. rewrite map2_same_dims by reflexivity.
  cbn [bind rdims]. do 2 eexists. split; [reflexivity|]. split.
  - split; [now rewrite HR|]. cbn [rdims rget]. intros idx Hidx.
    inversion Hidx as [|j n3 idx1 rd1 Hj Hr1]; subst.
    inversion Hr1 as [|i n3' idx2 rd2 Hi Hr2]; subst.
    inversion Hr2 as [|b nB idx3 rd3 Hb Hr3]; subst.
    inversion Hr3; subst.
    rewrite (bidx_in_range [B] [b] (in_range_1 B b Hb)).
    unfold sum_n. cbn [seq fold_right bidx]. rewrite !Hf, !Hinv by (assumption || lia).
    destruct j as [|[|[|j]]]; [| | |lia]; cbn [eye3 mat rget nth]; ring.
  - split; [now rewrite Ht|]. cbn [rdims rget tneg tmap]. intros idx Hidx.
    inversion Hidx as [|i n3 idx1 rd1 Hi Hr1]; subst.
    inversion Hr1 as [|b nB idx2 rd2 Hb Hr2]; subst.
    inversion Hr2; subst.
    cbn [bidx Nat.eqb insert_at drop_at firstn skipn app].
    assert (Hb' : (if (B =? 1)%nat then O else b) = b).
    { destruct (Nat.eqb_spec B 1); [lia|reflexivity]. }
    rewrite !Hb'.
    unfold sum_n. cbn [seq fold_right]. rewrite !Hf, !Hinv by (assumption || lia).
    rewrite !Htinv by (assumption || lia).
    unfold sum_n. cbn [seq fold_right zeros3 vec rget nth].
    pose proof (Horth b i 0%nat Hb Hi ltac:(lia)) as O0.
    pose proof (Horth b i 1%nat Hb Hi ltac:(lia)) as O1.
    pose proof (Horth b i 2%nat Hb Hi ltac:(lia)) as O2.
    unfold sum_n in O0, O1, O2. cbn [seq fold_right] in O0, O1, O2.
    match goal with |- ?lhs = _ =>
      transitivity
        (rget t_wl [0%nat; b]
           * (rget R_wl [0; i; b]%nat * rget R_wl [0; 0; b]%nat
              + (rget R_wl [1; i; b]%nat * rget R_wl [1; 0; b]%nat
                 + (rget R_wl [2; i; b]%nat * rget R_wl [2; 0; b]%nat + 0)))
         + rget t_wl [1%nat; b]
           * (rget R_wl [0; i; b]%nat * rget R_wl [0; 1; b]%nat
              + (rget R_wl [1; i; b]%nat * rget R_wl [1; 1; b]%nat
                 + (rget R_wl [2; i; b]%nat * rget R_wl [2; 1; b]%nat + 0)))
         + rget t_wl [2%nat; b]
           * (rget R_wl [0; i; b]%nat * rget R_wl [0; 2; b]%nat
              + (rget R_wl [1; i; b]%nat * rget R_wl [1; 2; b]%nat
                 + (rget R_wl [2; i; b]%nat * rget R_wl [2; 2; b]%nat + 0))));
        [ring|]
    end.
    rewrite O0, O1, O2.
    destruct i as [|[|[|i]]]; [| | |lia]; cbn [Nat.eqb]; ring.
Qed.

Lemma in_range_vec (n : nat) (idx : list nat) :
  in_range [n] idx -> exists i, idx = [i] /\ (i < n)%nat.
Proof.
  intros H. inversion H as [|i n' idx1 rd1 Hi H1]; subst. inversion H1; subst. eauto.
Qed.

Lemma in_range_mat (n m : nat) (idx : list nat) :
  in_range [n; m] idx -> exists j i, idx = [j; i] /\ (j < n)%nat /\ (i < m)%nat.
Proof.
  intros H. inversion H as [|j n' idx1 rd1 Hj H1]; subst.
  destruct (in_range_vec m idx1 H1) as (i & -> & Hi). eauto.
Qed.

(** C8 (code defect): the identity transform without batch dimension
    satisfies the premises of the claim (it is orthonormal and its own
    inverse), and [multiply_inv_transform] raises on it instead of returning
    it. *)
Theorem multiply_inv_transform_identity_unbatched :
  result_eq (transpose (-1) (-2) eye3) (Ok eye3)
  /\ result_eq (R_t <- transpose (-1) (-2) eye3 ;; matmul eye3 R_t) (Ok eye3)
  /\ result_eq (R_t <- transpose (-1) (-2) eye3 ;; v <- matmul R_t zeros3 ;; Ok (tneg v))
               (Ok zeros3)
  /\ multiply_inv_transform eye3 zeros3 eye3 zeros3 = Raise IndexError.
Proof.
  split; [|split; [|split]].
  - split; [reflexivity|]. intros idx H.
    destruct (in_range_mat _ _ _ H) as (j & i & -> & Hj & Hi).
    destruct j as [|[|[|j]]]; [| | |simpl in Hj; lia];
      (destruct i as [|[|[|i]]]; [| | |simpl in Hi; lia]); reflexivity.
  - split; [reflexivity|]. intros idx H.
    destruct (in_range_mat _ _ _ H) as (j & i & -> & Hj & Hi).
    destruct j as [|[|[|j]]]; [| | |simpl in Hj; lia];
      (destruct i as [|[|[|i]]]; [| | |simpl in Hi; lia]); eval_tensor; ring.
  - split; [reflexivity|]. intros idx H.
    destruct (in_range_vec _ _ H) as (i & -> & Hi).
    destruct i as [|[|[|i]]]; [| | |simpl in Hi; lia]; eval_tensor; ring.
  - reflexivity.
Qed.

(** The round trip on a quarter turn about the z axis with translation
    [(1, 2, 3)], as a batch of one. *)
Example multiply_inv_transform_roundtrip_quarter_turn :
  exists w_rot_c w_trans_c,
    multiply_inv_transform
      (batch_of_one (mat [[0; 1; 0]; [-1; 0; 0]; [0; 0; 1]]))
      (batch_of_one (vec [-2; 1; -3])) eye3 zeros3 = Ok (w_rot_c, w_trans_c)
    /\ tensor_eq w_rot_c (batch_of_one (mat [[0; -1; 0]; [1; 0; 0]; [0; 0; 1]]))
    /\ tensor_eq w_trans_c (batch_of_one (vec [1; 2; 3])).
Proof.
  apply (multiply_inv_transform_roundtrip _ _ _ _ 1); try reflexivity.
  - intros b i k Hb Hi Hk. replace b with O by lia.
    destruct i as [|[|[|i]]]; [| | |lia]; (destruct k as [|[|[|k]]]; [| | |lia]);
      eval_tensor; ring.
  - intros b i j Hb Hi Hj. replace b with O by lia.
    destruct i as [|[|[|i]]]; [| | |lia]; (destruct j as [|[|[|j]]]; [| | |lia]);
      reflexivity.
  - intros b i Hb Hi. replace b with O by lia.
    destruct i as [|[|[|i]]]; [| | |lia]; eval_tensor; ring.
Qed.

(** ** Points as rows *)

Lemma bshape_nil_r (r : list nat) : bshape r [] = Some r.
Proof. now destruct r. Qed.

(** [transform_point] takes the points as the rows of a matrix: one
    transform applies to points with any leading dimensions. *)
Lemma transform_point_single_transform (point rot trans : tensor) (ps : list nat) :
  shape rot = [3; 3]%nat -> shape trans = [3%nat] -> shape point = ps ++ [3%nat] ->
  exists moved, transform_point point rot trans = Ok moved /\ shape moved = ps ++ [3%nat].
Proof.
  intros Hr Ht Hp.
  apply (shape_snoc2 rot []) in Hr. apply (shape_snoc trans []) in Ht.
  apply shape_snoc in Hp. cbn [rev] in Hr, Ht.
  unfold transform_point.
  destruct (transpose_last2 (-1) (-2) rot _ _ _ (or_introl (conj eq_refl eq_refl)) Hr)
    as (f & -> & _).
  cbn [bind].
  assert (Hps : ps = rev (rev ps)) by (now rewrite rev_involutive).
  destruct (rev ps) as [|N r].
  - unfold matmul. rewrite Hp. cbn [rdims Nat.eqb bind].
    unfold tadd, map2. rewrite Ht. cbn [rdims bshape Nat.eqb].
    eexists. split; [reflexivity|]. now rewrite Hps.
  - rewrite (matmul_batched point (mkT [3; 3]%nat f) 3 N 3 r [] r Hp eq_refl (bshape_nil_r r)).
    cbn [bind]. unfold tadd, map2. rewrite Ht. cbn [rdims bshape Nat.eqb].
    eexists. split; [reflexivity|]. rewrite Hps. unfold shape. cbn [rdims rev].
    now rewrite <- app_assoc.
Qed.

(** With the same leading dimensions on the points and on the rotations the
    points of every batch element meet the rotations of every batch element,
    or the product is refused. *)
Example transform_point_same_leading_dims :
  (exists moved,
      transform_point (zeros [4; 3]%nat) (zeros [4; 3; 3]%nat) (zeros [4; 3]%nat) = Ok moved
      /\ shape moved = [4; 4; 3]%nat)
  /\ transform_point (zeros [2; 5; 3]%nat) (zeros [2; 5; 3; 3]%nat) (zeros [2; 5; 3]%nat)
     = Raise RuntimeError.
Proof.
  split; [eexists; split; reflexivity|reflexivity].
Qed.

(** * Further properties *)

(** ** Composition of rigid transforms *)

(** The entries of the composed transform, for operands that share their
    leading dimensions [rb] (innermost first). *)
Lemma multiply_transform_entries (w_rot_l w_trans_l l_rot_c l_trans_c : tensor) (rb : list nat) :
  rdims w_rot_l = 3%nat :: 3%nat :: rb -> rdims w_trans_l = 3%nat :: rb ->
  rdims l_rot_c = 3%nat :: 3%nat :: rb -> rdims l_trans_c = 3%nat :: rb ->
  exists w_rot_c w_trans_c,
    multiply_transform w_rot_l w_trans_l l_rot_c l_trans_c = Ok (w_rot_c, w_trans_c)
    /\ rdims w_rot_c = 3%nat :: 3%nat :: rb
    /\ rdims w_trans_c = 3%nat :: rb
    /\ (forall j i b, in_range rb b ->
          rget w_rot_c (j :: i :: b)
          = sum_n 3 (fun c => rget w_rot_l (c :: i :: b) * rget l_rot_c (j :: c :: b)))
    /\ (forall i b, in_range rb b -> (i < 3)%nat ->
          rget w_trans_c (i :: b)
          = sum_n 3 (fun c => rget w_rot_l (c :: i :: b) * rget l_trans_c (c :: b))
            + rget w_trans_l (i :: b)).
Proof.
  intros H1 H2 H3 H4.
  unfold multiply_transform, float.
  rewrite (matmul_batched w_rot_l l_rot_c 3 3 3 _ _ _ H1 H3 (bshape_refl _)).
  cbn [bind]. rewrite unsqueeze_last. cbn [bind].
  rewrite (matmul_batched w_rot_l (mkT (1%nat :: rdims l_trans_c) _) 3 3 1 rb rb rb H1)
    by (first [now rewrite H4 | apply bshape_refl]).
  cbn [bind]. rewrite (squeeze_last_one _ (3%nat :: rb)) by (reflexivity || discriminate).
  cbn [bind]. unfold tadd. rewrite map2_same_dims by (now rewrite H2).
  cbn [bind rdims]. do 2 eexists. split; [reflexivity|].
  split; [reflexivity|]. split; [reflexivity|]. split.
  - intros j i b Hb. cbn [rget]. now rewrite (bidx_in_range rb b Hb).
  - intros i b Hb Hi. cbn [rget bidx].
    cbn [Nat.eqb]. rewrite !(bidx_in_range rb b Hb). reflexivity.
Qed.

(** X1: composing three transforms gives the same transform whichever
    pair is composed first. *)
Theorem multiply_transform_assoc
    (R1 t1 R2 t2 R3 t3 : tensor) (bs : list nat) :
  shape R1 = bs ++ [3; 3]%nat -> shape t1 = bs ++ [3%nat] ->
  shape R2 = bs ++ [3; 3]%nat -> shape t2 = bs ++ [3%nat] ->
  shape R3 = bs ++ [3; 3]%nat -> shape t3 = bs ++ [3%nat] ->
  exists R12 t12 R23 t23 Ra ta Rb tb,
    multiply_transform R1 t1 R2 t2 = Ok (R12, t12)
    /\ multiply_transform R12 t12 R3 t3 = Ok (Ra, ta)
    /\ multiply_transform R2 t2 R3 t3 = Ok (R23, t23)
    /\ multiply_transform R1 t1 R23 t23 = Ok (Rb, tb)
    /\ tensor_eq Ra Rb /\ tensor_eq ta tb.
Proof.
  intros H1 G1 H2 G2 H3 G3.
  apply shape_snoc2 in H1, H2, H3. apply shape_snoc in G1, G2, G3.
  destruct (multiply_transform_entries R1 t1 R2 t2 _ H1 G1 H2 G2)
    as (R12 & t12 & E12 & HR12 & Ht12 & VR12 & Vt12).
  destruct (multiply_transform_entries R12 t12 R3 t3 _ HR12 Ht12 H3 G3)
    as (Ra & ta & Ea & HRa & Hta & VRa & Vta).
  destruct (multiply_transform_entries R2 t2 R3 t3 _ H2 G2 H3 G3)
    as (R23 & t23 & E23 & HR23 & Ht23 & VR23 & Vt23).
  destruct (multiply_transform_entries R1 t1 R23 t23 _ H1 G1 HR23 Ht23)
    as (Rb & tb & Eb & HRb & Htb & VRb & Vtb).
  exists R12, t12, R23, t23, Ra, ta, Rb, tb. repeat (split; [assumption|]). split.
  - split; [congruence|]. rewrite HRa. intros idx Hidx.
    inversion Hidx as [|j n3 idx1 rd1 Hj Hr1]; subst.
    inversion Hr1 as [|i n3' b rd2 Hi Hb]; subst.
    rewrite (VRa j i b Hb), (VRb j i b Hb). unfold sum_n. cbn [seq fold_right].
    rewrite !(VR12 _ _ b Hb), !(VR23 _ _ b Hb). unfold sum_n. cbn [seq fold_right]. ring.
  - split; [congruence|]. rewrite Hta. intros idx Hidx.
    inversion Hidx as [|i n3 b rd1 Hi Hb]; subst.
    rewrite (Vta i b Hb Hi), (Vtb i b Hb Hi). unfold sum_n. cbn [seq fold_right].
    rewrite !(VR12 _ _ b Hb), !(Vt12 _ b Hb) by lia.
    rewrite !(Vt23 _ b Hb) by lia. unfold sum_n. cbn [seq fold_right]. ring.
Qed.

Lemma multiply_transform_assoc_witness :
  exists R12 t12 R23 t23 Ra ta Rb tb,
    multiply_transform (mat [[0; -1; 0]; [1; 0; 0]; [0; 0; 1]]) (vec [1; 2; 3])
      (mat [[1; 0; 0]; [0; 0; -1]; [0; 1; 0]]) (vec [0; 1; 0]) = Ok (R12, t12)
    /\ multiply_transform R12 t12 eye3 (vec [4; 5; 6]) = Ok (Ra, ta)
    /\ multiply_transform (mat [[1; 0; 0]; [0; 0; -1]; [0; 1; 0]]) (vec [0; 1; 0])
         eye3 (vec [4; 5; 6]) = Ok (R23, t23)
    /\ multiply_transform (mat [[0; -1; 0]; [1; 0; 0]; [0; 0; 1]]) (vec [1; 2; 3]) R23 t23
       = Ok (Rb, tb)
    /\ tensor_eq Ra Rb /\ tensor_eq ta tb.
Proof.
  apply (multiply_transform_assoc _ _ _ _ _ _ []); reflexivity.
Defined.

Lemma in_range_cons_inv (n : nat) (rb idx : list nat) :
  in_range (n :: rb) idx -> exists i b, idx = i :: b /\ (i < n)%nat /\ in_range rb b.
Proof. intros H. inversion H; subst. eauto. Qed.

(** The entries of the moved points, for one transform and points with any
    leading dimensions [rps] (innermost first). *)
Lemma transform_point_entries (point rot trans : tensor) (rps : list nat) :
  rdims rot = [3; 3]%nat -> rdims trans = [3%nat] -> rdims point = 3%nat :: rps ->
  exists moved,
    transform_point point rot trans = Ok moved
    /\ rdims moved = 3%nat :: rps
    /\ forall i b, in_range rps b -> (i < 3)%nat ->
         rget moved (i :: b)
         = sum_n 3 (fun c => rget point (c :: b) * rget rot [c; i]) + rget trans [i].
Proof.
  intros Hr Ht Hp. unfold transform_point.
  destruct (transpose_last2 (-1) (-2) rot _ _ _ (or_introl (conj eq_refl eq_refl)) Hr)
    as (f & -> & Hf).
  cbn [bind].
  destruct rps as [|N r].
  - unfold matmul. rewrite Hp. cbn [rdims Nat.eqb bind].
    unfold tadd, map2. rewrite Ht. cbn [rdims bshape Nat.eqb].
    eexists. split; [reflexivity|]. split; [reflexivity|].
    intros i b Hb Hi. inversion Hb; subst. cbn [rget bidx Nat.eqb].
    unfold sum_n. cbn [seq fold_right]. now rewrite !Hf.
  - rewrite (matmul_batched point (mkT [3; 3]%nat f) 3 N 3 r [] r Hp eq_refl (bshape_nil_r r)).
    cbn [bind]. unfold tadd, map2. rewrite Ht. cbn [rdims bshape Nat.eqb].
    eexists. split; [reflexivity|]. split; [reflexivity|].
    intros i b Hb Hi. destruct (in_range_cons_inv _ _ _ Hb) as (n & b' & -> & Hn & Hb').
    cbn [rget bidx Nat.eqb].
    assert (E : bidx (N :: r) (n :: b') = n :: b') by (now apply bidx_in_range).
    cbn [bidx] in E. injection E as E1 E2. rewrite ?E1, ?E2.
    unfold sum_n. cbn [seq fold_right]. now rewrite !Hf.
Qed.

(** X3: with the identity rotation and the zero translation [transform_point]
    returns the points it was given, whatever their leading dimensions. *)
Theorem transform_point_identity (point : tensor) (ps : list nat) :
  shape point = ps ++ [3%nat] ->
  exists moved, transform_point point eye3 zeros3 = Ok moved /\ tensor_eq moved point.
Proof.
  intros Hp. apply shape_snoc in Hp.
  destruct (transform_point_entries point eye3 zeros3 _ eq_refl eq_refl Hp)
    as (moved & E & Hd & Hv).
  exists moved. split; [exact E|]. split; [congruence|]. rewrite Hd. intros idx Hidx.
  destruct (in_range_cons_inv _ _ _ Hidx) as (i & b & -> & Hi & Hb).
  rewrite (Hv i b Hb Hi). unfold sum_n. cbn [seq fold_right].
  destruct i as [|[|[|i]]]; [| | |lia]; cbn [eye3 zeros3 mat vec rget nth]; ring.
Qed.

Lemma transform_point_identity_witness :
  exists moved,
    transform_point (mat [[1; 2; 3]; [4; 5; 6]]) eye3 zeros3 = Ok moved
    /\ tensor_eq moved (mat [[1; 2; 3]; [4; 5; 6]]).
Proof. apply (transform_point_identity _ [2%nat]). reflexivity. Defined.

(** X4: the row convention of [transform_point] and the column convention
    of [multiply_transform] agree: for one transform [(rot, trans)] and
    points with any leading dimensions, the translation that
    [multiply_transform] returns for the points is what [transform_point]
    returns. *)
Theorem transform_point_matches_multiply_transform
    (point rot trans l_rot_c : tensor) (ps : list nat) :
  shape rot = [3; 3]%nat -> shape trans = [3%nat] -> shape l_rot_c = [3; 3]%nat ->
  shape point = ps ++ [3%nat] ->
  exists moved w_rot_c w_trans_c,
    transform_point point rot trans = Ok moved
    /\ multiply_transform rot trans l_rot_c point = Ok (w_rot_c, w_trans_c)
    /\ tensor_eq moved w_trans_c.
Proof.
  intros Hr Ht Hc Hp.
  apply (shape_snoc2 rot []) in Hr. apply (shape_snoc trans []) in Ht.
  apply (shape_snoc2 l_rot_c []) in Hc. apply shape_snoc in Hp. cbn [rev] in Hr, Ht, Hc.
  destruct (transform_point_entries point rot trans _ Hr Ht Hp) as (moved & E & Hd & Hv).
  exists moved. rewrite E.
  unfold multiply_transform, float.
  rewrite (matmul_batched rot l_rot_c 3 3 3 [] [] [] Hr Hc eq_refl).
  cbn [bind]. rewrite unsqueeze_last. cbn [bind].
  rewrite (matmul_batched rot (mkT (1%nat :: rdims point) _) 3 3 1 [] (rev ps) (rev ps) Hr)
    by (first [now rewrite Hp | reflexivity]).
  cbn [bind]. rewrite (squeeze_last_one _ (3%nat :: rev ps)) by (reflexivity || discriminate).
  cbn [bind]. unfold tadd, map2. rewrite Ht. cbn [rdims bshape].
  rewrite bshape_nil_r. cbn [Nat.eqb].
  do 2 eexists. split; [reflexivity|]. split; [reflexivity|]. split; [exact Hd|].
  rewrite Hd. intros idx Hidx.
  destruct (in_range_cons_inv _ _ _ Hidx) as (i & b & -> & Hi & Hb).
  rewrite (Hv i b Hb Hi). cbn [rget bidx Nat.eqb drop_at firstn skipn app].
  rewrite !(bidx_in_range _ b Hb). unfold sum_n. cbn [seq fold_right]. ring.
Qed.

Lemma transform_point_matches_multiply_transform_witness :
  exists moved w_rot_c w_trans_c,
    transform_point (mat [[1; 2; 3]; [4; 5; 6]])
      (mat [[0; -1; 0]; [1; 0; 0]; [0; 0; 1]]) (vec [1; 1; 1]) = Ok moved
    /\ multiply_transform (mat [[0; -1; 0]; [1; 0; 0]; [0; 0; 1]]) (vec [1; 1; 1]) eye3
         (mat [[1; 2; 3]; [4; 5; 6]]) = Ok (w_rot_c, w_trans_c)
    /\ tensor_eq moved w_trans_c.
Proof.
  apply (transform_point_matches_multiply_transform _ _ _ _ [2%nat]); reflexivity.
Defined.

(** X2: the identity transform without batch dimension is a unit of
    [multiply_transform] on both sides, for transforms with any number of
    leading batch dimensions. *)
Theorem multiply_transform_identity (rot trans : tensor) (bs : list nat) :
  shape rot = bs ++ [3; 3]%nat -> shape trans = bs ++ [3%nat] ->
  (exists w_rot_c w_trans_c,
      multiply_transform rot trans eye3 zeros3 = Ok (w_rot_c, w_trans_c)
      /\ tensor_eq w_rot_c rot /\ tensor_eq w_trans_c trans)
  /\ (exists w_rot_c w_trans_c,
      multiply_transform eye3 zeros3 rot trans = Ok (w_rot_c, w_trans_c)
      /\ tensor_eq w_rot_c rot /\ tensor_eq w_trans_c trans).
Proof.
  intros Hr Ht. apply shape_snoc2 in Hr. apply shape_snoc in Ht.
  split; unfold multiply_transform, float.
  - rewrite (matmul_batched rot eye3 3 3 3 (rev bs) [] (rev bs) Hr eq_refl (bshape_nil_r _)).
    cbn [bind]. rewrite unsqueeze_last. cbn [bind].
    rewrite (matmul_batched rot (mkT (1%nat :: rdims zeros3) _) 3 3 1 (rev bs) [] (rev bs) Hr
               eq_refl (bshape_nil_r _)).
    cbn [bind]. rewrite (squeeze_last_one _ (3%nat :: rev bs)) by (reflexivity || discriminate).
    cbn [bind]. unfold tadd. rewrite map2_same_dims by (now rewrite Ht).
    cbn [bind rdims]. do 2 eexists. split; [reflexivity|]. split.
    + split; [now rewrite Hr|]. cbn [rdims]. intros idx Hidx.
      destruct (in_range_cons_inv _ _ _ Hidx) as (j & idx' & -> & Hj & Hidx').
      destruct (in_range_cons_inv _ _ _ Hidx') as (i & b & -> & Hi & Hb).
      cbn [rget]. rewrite (bidx_in_range _ b Hb). unfold sum_n. cbn [seq fold_right bidx].
      destruct j as [|[|[|j]]]; [| | |lia]; cbn [eye3 mat rget nth]; ring.
    + split; [now rewrite Ht|]. cbn [rdims]. intros idx Hidx.
      destruct (in_range_cons_inv _ _ _ Hidx) as (i & b & -> & Hi & Hb).
      cbn [rget bidx Nat.eqb drop_at firstn skipn app].
      rewrite !(bidx_in_range _ b Hb). unfold sum_n.
      cbn [seq fold_right zeros3 vec rget nth]. ring.
  - rewrite (matmul_batched eye3 rot 3 3 3 [] (rev bs) (rev bs) eq_refl Hr eq_refl).
    cbn [bind]. rewrite unsqueeze_last. cbn [bind].
    rewrite (matmul_batched eye3 (mkT (1%nat :: rdims trans) _) 3 3 1 [] (rev bs) (rev bs)
               eq_refl) by (first [now rewrite Ht | reflexivity]).
    cbn [bind]. rewrite (squeeze_last_one _ (3%nat :: rev bs)) by (reflexivity || discriminate).
    cbn [bind]. unfold tadd, map2. cbn [rdims zeros3 vec length bshape].
    rewrite bshape_nil_r. cbn [Nat.eqb].
    do 2 eexists. split; [reflexivity|]. split.
    + split; [now rewrite Hr|]. cbn [rdims]. intros idx Hidx.
      destruct (in_range_cons_inv _ _ _ Hidx) as (j & idx' & -> & Hj & Hidx').
      destruct (in_range_cons_inv _ _ _ Hidx') as (i & b & -> & Hi & Hb).
      cbn [rget]. rewrite (bidx_in_range _ b Hb). unfold sum_n. cbn [seq fold_right bidx].
      destruct i as [|[|[|i]]]; [| | |lia]; cbn [eye3 mat rget nth]; ring.
    + split; [now rewrite Ht|]. cbn [rdims]. intros idx Hidx.
      destruct (in_range_cons_inv _ _ _ Hidx) as (i & b & -> & Hi & Hb).
      cbn [rget bidx Nat.eqb drop_at firstn skipn app].
      rewrite !(bidx_in_range _ b Hb). unfold sum_n. cbn [seq fold_right].
      destruct i as [|[|[|i]]]; [| | |lia]; cbn [eye3 mat nth zeros3 vec rget]; ring.
Qed.

Lemma multiply_transform_identity_witness :
  (exists w_rot_c w_trans_c,
      multiply_transform (batch_of_one (mat [[0; -1; 0]; [1; 0; 0]; [0; 0; 1]]))
        (batch_of_one (vec [1; 2; 3])) eye3 zeros3 = Ok (w_rot_c, w_trans_c)
      /\ tensor_eq w_rot_c (batch_of_one (mat [[0; -1; 0]; [1; 0; 0]; [0; 0; 1]]))
      /\ tensor_eq w_trans_c (batch_of_one (vec [1; 2; 3])))
  /\ (exists w_rot_c w_trans_c,
      multiply_transform eye3 zeros3 (batch_of_one (mat [[0; -1; 0]; [1; 0; 0]; [0; 0; 1]]))
        (batch_of_one (vec [1; 2; 3])) = Ok (w_rot_c, w_trans_c)
      /\ tensor_eq w_rot_c (batch_of_one (mat [[0; -1; 0]; [1; 0; 0]; [0; 0; 1]]))
      /\ tensor_eq w_trans_c (batch_of_one (vec [1; 2; 3]))).
Proof.
  apply (multiply_transform_identity _ _ [1%nat]); reflexivity.
Defined.

(** ** Undoing a composition *)

(** The entries [multiply_inv_transform] returns for operands with one
    leading batch dimension. *)
Lemma multiply_inv_transform_entries (l_rot_w l_trans_w l_rot_c l_trans_c : tensor) (B : nat) :
  rdims l_rot_w = [3; 3; B]%nat -> rdims l_trans_w = [3; B]%nat ->
  rdims l_rot_c = [3; 3; B]%nat -> rdims l_trans_c = [3; B]%nat ->
  exists w_rot_c w_trans_c,
    multiply_inv_transform l_rot_w l_trans_w l_rot_c l_trans_c = Ok (w_rot_c, w_trans_c)
    /\ rdims w_rot_c = [3; 3; B]%nat
    /\ rdims w_trans_c = [3; B]%nat
    /\ (forall j i b, (b < B)%nat ->
          rget w_rot_c [j; i; b]
          = sum_n 3 (fun c => rget l_rot_w [i; c; b] * rget l_rot_c [j; c; b]))
    /\ (forall i b, (b < B)%nat ->
          rget w_trans_c [i; b]
          = sum_n 3 (fun c => rget l_rot_w [i; c; b] * rget l_trans_c [c; b])
            + - sum_n 3 (fun c => rget l_rot_w [i; c; b] * rget l_trans_w [c; b])).
Proof.
  intros HR Ht HRc Htc. unfold multiply_inv_transform.
  destruct (transpose_last2 (-1) (-2) l_rot_w _ _ _ (or_introl (conj eq_refl eq_refl)) HR)
    as (f & -> & Hf).
  cbn [bind].
  rewrite (matmul_batched (mkT _ f) l_rot_c 3 3 3 [B] [B] [B] eq_refl HRc (bshape_refl _)).
  cbn [bind].
  rewrite (unsqueeze_at 2 l_trans_w 2 0) by (unfold ndim; rewrite ?Ht; reflexivity).
  cbn [bind]. rewrite Ht. cbn [insert_at firstn skipn app].
  rewrite (matmul_batched (mkT _ f) (mkT [1; 3; B]%nat _) 3 3 1 [B] [B] [B]
             eq_refl eq_refl (bshape_refl _)).
  cbn [bind].
  rewrite (squeeze_at_one 2 _ 3 0) by reflexivity.
  cbn [bind rdims drop_at firstn skipn app].
  rewrite unsqueeze_last. cbn [bind].
  rewrite (matmul_batched (mkT _ f) (mkT (1%nat :: rdims l_trans_c) _) 3 3 1 [B] [B] [B]
             eq_refl) by (first [now rewrite Htc | apply bshape_refl]).
  cbn [bind].
  rewrite (squeeze_last_one _ [3; B]%nat) by (reflexivity || discriminate).
  cbn [bind]. unfold tadd. rewrite map2_same_dims by reflexivity.
  cbn [bind rdims]. do 2 eexists. split; [reflexivity|].
  split; [reflexivity|]. split; [reflexivity|].
  assert (Hb' : forall b, (b < B)%nat -> (if (B =? 1)%nat then O else b) = b).
  { intros b Hb. destruct (Nat.eqb_spec B 1); [lia|reflexivity]. }
  split.
  - intros j i b Hb. cbn [rget bidx]. rewrite !(Hb' b Hb).
    unfold sum_n. cbn [seq fold_right]. now rewrite !Hf.
  - intros i b Hb. cbn [rget tneg tmap bidx Nat.eqb insert_at drop_at firstn skipn app].
    rewrite !(Hb' b Hb). unfold sum_n. cbn [seq fold_right]. now rewrite !Hf.
Qed.

(** X5: for transforms with one leading batch dimension and a rotation
    [rot] whose columns are orthonormal, [multiply_inv_transform] with
    [(rot, trans)] undoes [multiply_transform] with [(rot, trans)]: the child
    transform comes back. *)
Theorem multiply_inv_transform_undoes_multiply_transform
    (rot trans l_rot_c l_trans_c : tensor) (B : nat) :
  shape rot = [B; 3; 3]%nat -> shape trans = [B; 3]%nat ->
  shape l_rot_c = [B; 3; 3]%nat -> shape l_trans_c = [B; 3]%nat ->
  (forall b i k, (b < B)%nat -> (i < 3)%nat -> (k < 3)%nat ->
     sum_n 3 (fun c => at_index rot [b; c; i] * at_index rot [b; c; k])
     = if (i =? k)%nat then 1 else 0) ->
  exists w_rot_c w_trans_c back_rot back_trans,
    multiply_transform rot trans l_rot_c l_trans_c = Ok (w_rot_c, w_trans_c)
    /\ multiply_inv_transform rot trans w_rot_c w_trans_c = Ok (back_rot, back_trans)
    /\ tensor_eq back_rot l_rot_c
    /\ tensor_eq back_trans l_trans_c.
Proof.
  intros HR Ht HRc Htc Horth.
  apply (shape_snoc2 rot [B]) in HR. apply (shape_snoc trans [B]) in Ht.
  apply (shape_snoc2 l_rot_c [B]) in HRc. apply (shape_snoc l_trans_c [B]) in Htc.
  cbn [rev app] in HR, Ht, HRc, Htc.
  unfold at_index in Horth. cbn [rev app] in Horth.
  destruct (multiply_transform_entries rot trans l_rot_c l_trans_c [B] HR Ht HRc Htc)
    as (Rp & tp & Ep & HRp & Htp & VRp & Vtp).
  destruct (multiply_inv_transform_entries rot trans Rp tp B HR Ht HRp Htp)
    as (Rr & tr & Er & HRr & Htr & VRr & Vtr).
  exists Rp, tp, Rr, tr. split; [exact Ep|]. split; [exact Er|].
  assert (O : forall b i k, (b < B)%nat -> (i < 3)%nat -> (k < 3)%nat ->
            rget rot [i; 0; b]%nat * rget rot [k; 0; b]%nat
            + (rget rot [i; 1; b]%nat * rget rot [k; 1; b]%nat
               + (rget rot [i; 2; b]%nat * rget rot [k; 2; b]%nat + 0))
            = if (i =? k)%nat then 1 else 0).
  { intros b i k Hb Hi Hk. exact (Horth b i k Hb Hi Hk). }
  split.
  - split; [congruence|]. rewrite HRr. intros idx Hidx.
    destruct (in_range_cons_inv _ _ _ Hidx) as (j & idx1 & -> & Hj & H1).
    destruct (in_range_cons_inv _ _ _ H1) as (i & idx2 & -> & Hi & H2).
    destruct (in_range_vec _ _ H2) as (b & -> & Hb).
    rewrite (VRr j i b Hb). unfold sum_n. cbn [seq fold_right].
    rewrite !(VRp _ _ [b] (in_range_1 B b Hb)). unfold sum_n. cbn [seq fold_right].
    pose proof (O b i 0%nat Hb Hi ltac:(lia)) as O0.
    pose proof (O b i 1%nat Hb Hi ltac:(lia)) as O1.
    pose proof (O b i 2%nat Hb Hi ltac:(lia)) as O2.
    match goal with |- _ = ?rhs =>
      transitivity
        (rget l_rot_c [j; 0; b]%nat
           * (rget rot [i; 0; b]%nat * rget rot [0; 0; b]%nat
              + (rget rot [i; 1; b]%nat * rget rot [0; 1; b]%nat
                 + (rget rot [i; 2; b]%nat * rget rot [0; 2; b]%nat + 0)))
         + rget l_rot_c [j; 1; b]%nat
           * (rget rot [i; 0; b]%nat * rget rot [1; 0; b]%nat
              + (rget rot [i; 1; b]%nat * rget rot [1; 1; b]%nat
                 + (rget rot [i; 2; b]%nat * rget rot [1; 2; b]%nat + 0)))
         + rget l_rot_c [j; 2; b]%nat
           * (rget rot [i; 0; b]%nat * rget rot [2; 0; b]%nat
              + (rget rot [i; 1; b]%nat * rget rot [2; 1; b]%nat
                 + (rget rot [i; 2; b]%nat * rget rot [2; 2; b]%nat + 0))));
        [ring|]
    end.
    rewrite O0, O1, O2.
    destruct i as [|[|[|i]]]; [| | |lia]; cbn [Nat.eqb]; ring.
  - split; [congruence|]. rewrite Htr. intros idx Hidx.
    destruct (in_range_cons_inv _ _ _ Hidx) as (i & idx1 & -> & Hi & H1).
    destruct (in_range_vec _ _ H1) as (b & -> & Hb).
    rewrite (Vtr i b Hb). unfold sum_n. cbn [seq fold_right].
    rewrite !(Vtp _ [b] (in_range_1 B b Hb)) by lia. unfold sum_n. cbn [seq fold_right].
    pose proof (O b i 0%nat Hb Hi ltac:(lia)) as O0.
    pose proof (O b i 1%nat Hb Hi ltac:(lia)) as O1.
    pose proof (O b i 2%nat Hb Hi ltac:(lia)) as O2.
    match goal with |- _ = ?rhs =>
      transitivity
        (rget l_trans_c [0%nat; b]
           * (rget rot [i; 0; b]%nat * rget rot [0; 0; b]%nat
              + (rget rot [i; 1; b]%nat * rget rot [0; 1; b]%nat
                 + (rget rot [i; 2; b]%nat * rget rot [0; 2; b]%nat + 0)))
         + rget l_trans_c [1%nat; b]
           * (rget rot [i; 0; b]%nat * rget rot [1; 0; b]%nat
              + (rget rot [i; 1; b]%nat * rget rot [1; 1; b]%nat
                 + (rget rot [i; 2; b]%nat * rget rot [1; 2; b]%nat + 0)))
         + rget l_trans_c [2%nat; b]
           * (rget rot [i; 0; b]%nat * rget rot [2; 0; b]%nat
              + (rget rot [i; 1; b]%nat * rget rot [2; 1; b]%nat
                 + (rget rot [i; 2; b]%nat * rget rot [2; 2; b]%nat + 0))));
        [ring|]
    end.
    rewrite O0, O1, O2.
    destruct i as [|[|[|i]]]; [| | |lia]; cbn [Nat.eqb]; ring.
Qed.

Lemma multiply_inv_transform_undoes_multiply_transform_witness :
  exists w_rot_c w_trans_c back_rot back_trans,
    multiply_transform
      (batch_of_one (mat [[0; -1; 0]; [1; 0; 0]; [0; 0; 1]])) (batch_of_one (vec [1; 2; 3]))
      (batch_of_one (mat [[1; 0; 0]; [0; 0; -1]; [0; 1; 0]])) (batch_of_one (vec [4; 5; 6]))
    = Ok (w_rot_c, w_trans_c)
    /\ multiply_inv_transform
         (batch_of_one (mat [[0; -1; 0]; [1; 0; 0]; [0; 0; 1]])) (batch_of_one (vec [1; 2; 3]))
         w_rot_c w_trans_c = Ok (back_rot, back_trans)
    /\ tensor_eq back_rot (batch_of_one (mat [[1; 0; 0]; [0; 0; -1]; [0; 1; 0]]))
    /\ tensor_eq back_trans (batch_of_one (vec [4; 5; 6])).
Proof.
  apply (multiply_inv_transform_undoes_multiply_transform _ _ _ _ 1); try reflexivity.
  intros b i k Hb Hi Hk. replace b with O by lia.
  destruct i as [|[|[|i]]]; [| | |lia]; (destruct k as [|[|[|k]]]; [| | |lia]);
    eval_tensor; ring.
Defined.

(** ** The tangent of arccos and the shape of the extrapolation *)

Lemma acos_strictly_decreasing (u v : R) : -1 <= u -> u < v -> v <= 1 -> acos v < acos u.
Proof.
  intros Hu Huv Hv.
  apply cos_decreasing_0; try apply acos_bound.
  rewrite !cos_acos by lra. exact Huv.
Qed.

Lemma dacos_dx_negative (x : R) : -1 < x < 1 -> _dacos_dx x < 0.
Proof.
  intros Hx. unfold _dacos_dx.
  assert (0 < sqrt (1 - x * x)) by (apply sqrt_lt_R0; nra).
  assert (0 < / sqrt (1 - x * x)) by (now apply Rinv_0_lt_compat).
  unfold Rdiv. lra.
Qed.

(** X7: as the docstrings of lines 277 and 284 say, [_dacos_dx x0] is the
    derivative of arccos at [x0], for [x0] inside (-1, 1), and
    [_acos_linear_approximation] is the tangent there: it takes the value
    [arccos x0] at [x0] and has that slope. *)
Theorem acos_linear_approximation_is_tangent (x : tensor) (x0 : R) :
  -1 < x0 < 1 ->
  derivable_pt_lim acos x0 (_dacos_dx x0)
  /\ shape (_acos_linear_approximation x x0) = shape x
  /\ (forall idx,
        rget (_acos_linear_approximation x x0) idx
        = acos x0 + _dacos_dx x0 * (rget x idx - x0))
  /\ (forall idx, rget x idx = x0 -> rget (_acos_linear_approximation x x0) idx = acos x0).
Proof.
  intros Hx. split; [|split; [reflexivity|split]].
  - pose proof (derive_pt_acos x0 Hx) as E. apply derive_pt_eq_1 in E.
    unfold _dacos_dx. unfold Rsqr in E. exact E.
  - intros idx. cbn. ring.
  - intros idx E. cbn. rewrite E. ring.
Qed.

Lemma acos_linear_approximation_is_tangent_witness :
  derivable_pt_lim acos (1 / 2) (_dacos_dx (1 / 2))
  /\ shape (_acos_linear_approximation (vec [0; 1 / 2]) (1 / 2)) = shape (vec [0; 1 / 2])
  /\ (forall idx,
        rget (_acos_linear_approximation (vec [0; 1 / 2]) (1 / 2)) idx
        = acos (1 / 2) + _dacos_dx (1 / 2) * (rget (vec [0; 1 / 2]) idx - 1 / 2))
  /\ (forall idx, rget (vec [0; 1 / 2]) idx = 1 / 2 ->
        rget (_acos_linear_approximation (vec [0; 1 / 2]) (1 / 2)) idx = acos (1 / 2)).
Proof. apply (acos_linear_approximation_is_tangent (vec [0; 1 / 2]) (1 / 2)). lra. Defined.

Lemma acos_extrap_value_decreasing (lo hi u v : R) :
  lo <= hi -> -1 < lo -> hi < 1 -> u < v ->
  acos_extrap_value lo hi v < acos_extrap_value lo hi u.
Proof.
  intros Hle Hlo Hhi Huv.
  pose proof (dacos_dx_negative lo ltac:(lra)) as Dlo.
  pose proof (dacos_dx_negative hi ltac:(lra)) as Dhi.
  assert (Hlh : acos hi <= acos lo).
  { destruct (Rle_lt_or_eq_dec lo hi Hle) as [H| ->]; [|lra].
    left. apply acos_strictly_decreasing; lra. }
  unfold acos_extrap_value.
  destruct (Rleb v lo) eqn:Ev; [apply Rleb_true in Ev|apply Rleb_false in Ev];
    (destruct (Rleb u lo) eqn:Eu; [apply Rleb_true in Eu|apply Rleb_false in Eu]);
    try lra.
  - nra.
  - destruct (Rgeb v hi) eqn:Ev'; [apply Rgeb_true in Ev'|apply Rgeb_false in Ev'].
    + destruct (Rle_lt_or_eq_dec lo hi Hle) as [H| E].
      * assert (acos hi < acos lo) by (apply acos_strictly_decreasing; lra). nra.
      * subst hi. nra.
    + assert (acos v < acos lo) by (apply acos_strictly_decreasing; lra). nra.
  - destruct (Rgeb v hi) eqn:Ev'; [apply Rgeb_true in Ev'|apply Rgeb_false in Ev'];
      (destruct (Rgeb u hi) eqn:Eu'; [apply Rgeb_true in Eu'|apply Rgeb_false in Eu']);
      try lra.
    + nra.
    + assert (acos hi <= acos u).
      { left. apply acos_strictly_decreasing; lra. }
      destruct (Rle_lt_or_eq_dec hi v ltac:(lra)) as [H'| <-]; [nra|].
      assert (acos hi < acos u) by (apply acos_strictly_decreasing; lra).
      replace ((hi - hi) * _dacos_dx hi) with 0 by ring. lra.
    + apply acos_strictly_decreasing; lra.
Qed.

(** X8: for a valid bound pair the extrapolated arccos is strictly
    decreasing over all reals: a larger entry always gives a smaller
    result, also outside [-1, 1]. *)
Theorem acos_linear_extrapolation_decreasing (lo hi u v : R) :
  lo <= hi -> -1 < lo -> hi < 1 -> u < v ->
  item (acos_linear_extrapolation (scalar v) (lo, hi))
  < item (acos_linear_extrapolation (scalar u) (lo, hi)).
Proof.
  intros Hle Hlo Hhi Huv.
  assert (Hitem : forall w,
             item (acos_linear_extrapolation (scalar w) (lo, hi)) = acos_extrap_value lo hi w).
  { intros w.
    destruct (acos_linear_extrapolation_on_ok (fun _ => 0) (scalar w) lo hi Hle Hlo Hhi)
      as (t & Ht & _ & Hv).
    unfold acos_linear_extrapolation. rewrite Ht. simpl. now rewrite Hv. }
  rewrite !Hitem. now apply acos_extrap_value_decreasing.
Qed.

Lemma acos_linear_extrapolation_decreasing_witness :
  item (acos_linear_extrapolation (scalar 2) (- (1 / 2), 1 / 2))
  < item (acos_linear_extrapolation (scalar (-3)) (- (1 / 2), 1 / 2)).
Proof. apply acos_linear_extrapolation_decreasing; lra. Defined.

(** ** Symmetry of the quaternion angle *)

Lemma result_ext_eq (r1 r2 : result tensor) : result_ext r1 r2 -> result_eq r1 r2.
Proof.
  destruct r1, r2; cbn; try easy. intros [E H]. split; [exact E|]. intros idx _. apply H.
Qed.

Lemma sum_n_ext (n : nat) (f g : nat -> R) : (forall k, f k = g k) -> sum_n n f = sum_n n g.
Proof.
  intros H. unfold sum_n. induction (seq 0 n) as [|k l IH]; cbn; [reflexivity|].
  now rewrite H, IH.
Qed.

Lemma map2_comm (f : R -> R -> R) (a b : tensor) :
  (forall x y, f x y = f y x) -> result_ext (map2 f a b) (map2 f b a).
Proof.
  intros Hf. unfold map2. rewrite (bshape_comm (rdims b) (rdims a)).
  destruct (bshape (rdims a) (rdims b)); cbn; [|reflexivity].
  split; [reflexivity|]. intros idx. cbn. apply Hf.
Qed.

Lemma reduce_dim_ext (red : nat -> (nat -> R) -> R) (d : Z) (a b : tensor) :
  (forall n f g, (forall k, f k = g k) -> red n f = red n g) ->
  tensor_ext a b -> result_ext (reduce_dim red d a) (reduce_dim red d b).
Proof.
  intros Hred [E H]. unfold reduce_dim, ndim. rewrite <- E.
  destruct (dim_from_back d (length (rdims a))) as [p|e]; cbn [bind]; [|reflexivity].
  destruct (rdims a) as [|n rb]; cbn.
  - split; [reflexivity|]. intros idx. cbn. apply Hred. intros _. apply H.
  - split; [reflexivity|]. intros idx. cbn. apply Hred. intros k. apply H.
Qed.

Lemma acos_linear_extrapolation_ext (a b : tensor) (bounds : R * R) :
  tensor_ext a b ->
  result_ext (acos_linear_extrapolation a bounds) (acos_linear_extrapolation b bounds).
Proof.
  intros [E H]. destruct bounds as [lo hi].
  unfold acos_linear_extrapolation, acos_linear_extrapolation_on.
  destruct (Rgtb lo hi); [reflexivity|].
  destruct (Rleb lo (-1) || Rgeb hi 1); [reflexivity|].
  split; [exact E|]. intros idx. cbn. now rewrite !H.
Qed.

(** X9: [quaternion_relative_angle] is symmetric in its two arguments, for
    all tensors and every [cos_bound]: both calls return tensors with the same
    shape and entries, or both raise the same error. *)
Theorem quaternion_relative_angle_symmetric (q1 q2 : tensor) (cos_bound : R) :
  result_eq (quaternion_relative_angle q1 q2 cos_bound)
            (quaternion_relative_angle q2 q1 cos_bound).
Proof.
  apply result_ext_eq. unfold quaternion_relative_angle, tmul.
  pose proof (map2_comm Rmult q1 q2 Rmult_comm) as Hm.
  destruct (map2 Rmult q1 q2) as [p12|e], (map2 Rmult q2 q1) as [p21|e'];
    cbn in Hm; try contradiction; cbn [bind]; [|exact Hm].
  pose proof (reduce_dim_ext sum_n (-1) p12 p21 sum_n_ext Hm) as Hs.
  unfold sum_dim.
  destruct (reduce_dim sum_n (-1) p12) as [s12|e], (reduce_dim sum_n (-1) p21) as [s21|e'];
    cbn in Hs; try contradiction; cbn [bind]; [|exact Hs].
  destruct (Rgtb cos_bound 0).
  - now apply acos_linear_extrapolation_ext.
  - destruct Hs as [E H]. split; [exact E|]. intros idx. cbn. now rewrite H.
Qed.

(** ** The matrix of a quaternion *)

(** X10: for every quaternion of nonzero norm, unit or not, the matrix
    that [quaternion_to_matrix] returns is orthonormal: its product with its
    transpose is the identity. *)
Theorem quaternion_to_matrix_orthonormal (q : tensor) (bs : list nat) :
  shape q = bs ++ [4%nat] ->
  (forall b, in_range (rev bs) b -> quat_dot q q b <> 0) ->
  exists M M_t P,
    quaternion_to_matrix q = Ok M
    /\ transpose (-1) (-2) M = Ok M_t
    /\ matmul M M_t = Ok P
    /\ shape P = bs ++ [3; 3]%nat
    /\ forall b i k, in_range (rev bs) b -> (i < 3)%nat -> (k < 3)%nat ->
         rget P (k :: i :: b) = if (i =? k)%nat then 1 else 0.
Proof.
  intros Hs Hn. apply shape_snoc in Hs.
  destruct (quaternion_to_matrix_entries q (rev bs) Hs) as (M & HM & HdM & HvM).
  destruct (transpose_last2 (-1) (-2) M _ _ _ (or_introl (conj eq_refl eq_refl)) HdM)
    as (f & HT & Hf).
  exists M. eexists. eexists. split; [exact HM|]. split; [exact HT|].
  rewrite (matmul_batched M (mkT _ f) 3 3 3 _ _ _ HdM eq_refl (bshape_refl _)).
  split; [reflexivity|]. split.
  { unfold shape. cbn [rdims rev]. now rewrite rev_involutive, <- app_assoc. }
  intros b i k Hb Hi Hk. cbn [rget]. rewrite (bidx_in_range _ b Hb).
  unfold sum_n. cbn [seq fold_right]. rewrite !Hf.
  rewrite !(HvM b) by (assumption || lia).
  specialize (Hn b Hb). unfold quat_dot, sum_n in *. cbn [seq fold_right] in *.
  unfold rotation_entries.
  assert (Hn' : rget q (0 :: b)%nat * rget q (0 :: b)%nat
                + (rget q (1 :: b)%nat * rget q (1 :: b)%nat
                   + (rget q (2 :: b)%nat * rget q (2 :: b)%nat
                      + rget q (3 :: b)%nat * rget q (3 :: b)%nat)) <> 0).
  { intros E. apply Hn. etransitivity; [|exact E]. ring. }
  destruct i as [|[|[|i]]]; [| | |lia];
    (destruct k as [|[|[|k]]]; [| | |lia]);
    cbn [Nat.mul Nat.add nth Nat.eqb]; field; exact Hn'.
Qed.

Lemma quaternion_to_matrix_orthonormal_witness :
  exists M M_t P,
    quaternion_to_matrix (vec [1; 2; 0; 2]) = Ok M
    /\ transpose (-1) (-2) M = Ok M_t
    /\ matmul M M_t = Ok P
    /\ shape P = [] ++ [3; 3]%nat
    /\ forall b i k, in_range (rev []) b -> (i < 3)%nat -> (k < 3)%nat ->
         rget P (k :: i :: b) = if (i =? k)%nat then 1 else 0.
Proof.
  apply (quaternion_to_matrix_orthonormal (vec [1; 2; 0; 2]) []).
  - reflexivity.
  - intros b Hb. inversion Hb; subst. unfold quat_dot, sum_n. simpl. lra.
Defined.

(** X11: [quaternion_to_matrix] returns exactly on the tensors whose last
    dimension has size 4, with a result of shape [... ++ [3, 3]]; on every
    other tensor of at least one dimension the unpacking of line 64 raises a
    [ValueError]. *)
Theorem quaternion_to_matrix_returns_iff (q : tensor) :
  ((exists M, quaternion_to_matrix q = Ok M) <-> (exists bs, shape q = bs ++ [4%nat]))
  /\ (forall bs M, shape q = bs ++ [4%nat] -> quaternion_to_matrix q = Ok M ->
        shape M = bs ++ [3; 3]%nat)
  /\ (forall bs n, shape q = bs ++ [n] -> n <> 4%nat ->
        exists msg, quaternion_to_matrix q = Raise (ValueError msg)).
Proof.
  split; [split|split].
  - intros [M HM]. unfold quaternion_to_matrix in HM.
    destruct (unbind_last q) as [parts|e] eqn:Eu; cbn [bind] in HM; [|discriminate].
    unfold unbind_last in Eu. destruct (rdims q) as [|n rb] eqn:Ed; [discriminate|].
    injection Eu as <-.
    exists (rev rb). unfold shape. rewrite Ed. cbn [rev].
    destruct n as [|[|[|[|[|n]]]]]; cbn in HM; try discriminate. reflexivity.
  - intros [bs Hs]. apply shape_snoc in Hs.
    destruct (quaternion_to_matrix_entries q (rev bs) Hs) as (M & HM & _). eauto.
  - intros bs M Hs HM. apply shape_snoc in Hs.
    destruct (quaternion_to_matrix_entries q (rev bs) Hs) as (M' & HM' & Hd & _).
    rewrite HM in HM'. injection HM' as <-. unfold shape. rewrite Hd. cbn [rev].
    now rewrite rev_involutive, <- app_assoc.
  - intros bs n Hs Hn. apply shape_snoc in Hs.
    unfold quaternion_to_matrix, unbind_last. rewrite Hs. cbn [bind].
    destruct n as [|[|[|[|[|n]]]]]; cbn; try (eexists; reflexivity).
    now contradiction Hn.
Qed.

(** ** Rotation angles *)

Lemma shape_of_rdims (t : tensor) (rd : list nat) : rdims t = rd -> shape t = rev rd.
Proof. intros H. unfold shape. now rewrite H. Qed.

(** What [so3_rotation_angle] returns on a batch of 3x3 matrices, for
    every flag and every [cos_bound] below 1. *)
Lemma so3_rotation_angle_value (Rt : tensor) (rb : list nat) (eps cos_bound : R)
    (cos_angle : bool) :
  rdims Rt = 3%nat :: 3%nat :: rb -> cos_bound < 1 ->
  exists t,
    so3_rotation_angle Rt eps cos_angle cos_bound = Ok t
    /\ rdims t = rb
    /\ forall b, in_range rb b ->
         let phi_cos :=
           (rget Rt (0 :: 0 :: b)%nat + rget Rt (1 :: 1 :: b)%nat + rget Rt (2 :: 2 :: b)%nat - 1)
           * (1 / 2) in
         rget t b
         = if cos_angle then phi_cos
           else if Rgtb cos_bound 0
                then acos_extrap_value (- (1 - cos_bound)) (1 - cos_bound) phi_cos
                else acos phi_cos.
Proof.
  intros H Hcb. unfold so3_rotation_angle, index_last2. rewrite H.
  cbn [Nat.eqb negb orb Nat.ltb Nat.leb andb bind].
  unfold tadd. rewrite map2_same_dims by reflexivity. cbn [bind rdims].
  rewrite map2_same_dims by reflexivity. cbn [bind rdims].
  destruct cos_angle.
  - eexists. split; [reflexivity|]. split; [reflexivity|].
    intros b Hb. cbn. now rewrite !(bidx_in_range rb b Hb).
  - destruct (Rgtb cos_bound 0) eqn:E.
    + apply Rgtb_true in E.
      match goal with |- context [acos_linear_extrapolation ?x _] =>
        destruct (acos_linear_extrapolation_on_ok (fun _ => 0) x
                    (- (1 - cos_bound)) (1 - cos_bound)) as (t & Ht & Hd & Hv); try lra
      end.
      exists t. split; [exact Ht|]. split; [exact Hd|].
      intros b Hb. cbn zeta. rewrite Hv. cbn [tmap rget]. now rewrite !(bidx_in_range rb b Hb).
    + eexists. split; [reflexivity|]. split; [reflexivity|].
      intros b Hb. cbn. now rewrite !(bidx_in_range rb b Hb).
Qed.

(** X12: [so3_rotation_angle] checks the trailing dimensions before anything
    else: on a tensor whose shape does not end in [3, 3] it raises a
    [ValueError] whatever the flags, and on a batch of 3x3 matrices it returns
    one value per batch element. *)
Theorem so3_rotation_angle_shape_check (Rt : tensor) :
  (forall eps cos_angle cos_bound,
      (forall bs, shape Rt <> bs ++ [3; 3]%nat) ->
      exists msg, so3_rotation_angle Rt eps cos_angle cos_bound = Raise (ValueError msg))
  /\ (forall eps cos_angle cos_bound bs,
        shape Rt = bs ++ [3; 3]%nat -> cos_bound < 1 ->
        exists t, so3_rotation_angle Rt eps cos_angle cos_bound = Ok t /\ shape t = bs).
Proof.
  split.
  - intros eps cos_angle cos_bound Hs. unfold so3_rotation_angle.
    destruct (rdims Rt) as [|dim2 [|dim1 rb]] eqn:E; try (eexists; reflexivity).
    destruct (Nat.eqb_spec dim1 3) as [->|H1]; [|eexists; reflexivity].
    destruct (Nat.eqb_spec dim2 3) as [->|H2]; [|eexists; reflexivity].
    exfalso. apply (Hs (rev rb)). rewrite (shape_of_rdims _ _ E). cbn [rev].
    now rewrite <- app_assoc.
  - intros eps cos_angle cos_bound bs Hs Hcb. apply shape_snoc2 in Hs.
    destruct (so3_rotation_angle_value Rt (rev bs) eps cos_bound cos_angle Hs Hcb)
      as (t & Ht & Hd & _).
    exists t. split; [exact Ht|]. rewrite (shape_of_rdims _ _ Hd). apply rev_involutive.
Qed.

(** X13: the relative angle of a batch of rotations to itself.  When every
    row of every matrix has norm 1, the cosine returned with [cos_angle] is 1;
    the angle is 0 when [cos_bound <= 0], and for [0 < cos_bound < 1], the
    default included, it is the strictly positive extrapolated value. *)
Theorem so3_relative_angle_self (Rt : tensor) (bs : list nat) (eps cos_bound : R) :
  shape Rt = bs ++ [3; 3]%nat ->
  (forall b i, in_range (rev bs) b -> (i < 3)%nat ->
     sum_n 3 (fun c => rget Rt (c :: i :: b) * rget Rt (c :: i :: b)) = 1) ->
  cos_bound < 1 ->
  exists t_cos t_angle,
    so3_relative_angle Rt Rt eps true cos_bound = Ok t_cos
    /\ so3_relative_angle Rt Rt eps false cos_bound = Ok t_angle
    /\ shape t_cos = bs /\ shape t_angle = bs
    /\ forall b, in_range (rev bs) b ->
         rget t_cos b = 1
         /\ (cos_bound <= 0 -> rget t_angle b = 0)
         /\ (0 < cos_bound ->
             rget t_angle b = extrapolated_zero_angle cos_bound /\ 0 < rget t_angle b).
Proof.
  intros Hs Hrow Hcb. apply shape_snoc2 in Hs.
  destruct (transpose_last2 (-2) (-1) Rt _ _ _ (or_intror (conj eq_refl eq_refl)) Hs)
    as (f & HT & Hf).
  unfold so3_relative_angle. rewrite HT. cbn [bind].
  rewrite (matmul_batched Rt (mkT _ f) 3 3 3 _ _ _ Hs eq_refl (bshape_refl _)).
  cbn [bind].
  match goal with |- context [so3_rotation_angle ?A _ true _] => set (P := A) end.
  destruct (so3_rotation_angle_value P (rev bs) eps cos_bound true eq_refl Hcb)
    as (tc & -> & Hdc & Hvc).
  destruct (so3_rotation_angle_value P (rev bs) eps cos_bound false eq_refl Hcb)
    as (ta & -> & Hda & Hva).
  exists tc, ta. split; [reflexivity|]. split; [reflexivity|].
  split; [rewrite (shape_of_rdims _ _ Hdc); apply rev_involutive|].
  split; [rewrite (shape_of_rdims _ _ Hda); apply rev_involutive|].
  intros b Hb.
  assert (Hphi : (rget P (0 :: 0 :: b)%nat + rget P (1 :: 1 :: b)%nat
                  + rget P (2 :: 2 :: b)%nat - 1) * (1 / 2) = 1).
  { unfold P. cbn [rget]. rewrite (bidx_in_range _ b Hb).
    pose proof (Hrow b 0%nat Hb ltac:(lia)) as R0.
    pose proof (Hrow b 1%nat Hb ltac:(lia)) as R1.
    pose proof (Hrow b 2%nat Hb ltac:(lia)) as R2.
    unfold sum_n in *. cbn [seq fold_right] in *. rewrite !Hf. lra. }
  specialize (Hvc b Hb). specialize (Hva b Hb). cbn zeta in Hvc, Hva.
  rewrite Hphi in Hvc, Hva. split; [exact Hvc|]. rewrite Hva.
  destruct (Rgtb cos_bound 0) eqn:E; [apply Rgtb_true in E|apply Rgtb_false in E].
  - split; [lra|]. intros _.
    assert (Hval : acos_extrap_value (- (1 - cos_bound)) (1 - cos_bound) 1
                   = extrapolated_zero_angle cos_bound).
    { unfold acos_extrap_value, extrapolated_zero_angle, _dacos_dx.
      destruct (Rleb 1 (- (1 - cos_bound))) eqn:E1; [apply Rleb_true in E1; lra|].
      destruct (Rgeb 1 (1 - cos_bound)) eqn:E2; [|apply Rgeb_false in E2; lra].
      unfold Rdiv. ring. }
    rewrite Hval. split; [reflexivity|]. apply extrapolated_zero_angle_pos. lra.
  - split; [intros _; apply acos_1|lra].
Qed.

Lemma so3_relative_angle_self_witness :
  exists t_cos t_angle,
    so3_relative_angle (mat [[0; -1; 0]; [1; 0; 0]; [0; 0; 1]])
      (mat [[0; -1; 0]; [1; 0; 0]; [0; 0; 1]]) default_eps true default_cos_bound = Ok t_cos
    /\ so3_relative_angle (mat [[0; -1; 0]; [1; 0; 0]; [0; 0; 1]])
         (mat [[0; -1; 0]; [1; 0; 0]; [0; 0; 1]]) default_eps false default_cos_bound
       = Ok t_angle
    /\ shape t_cos = [] /\ shape t_angle = []
    /\ forall b, in_range (rev []) b ->
         rget t_cos b = 1
         /\ (default_cos_bound <= 0 -> rget t_angle b = 0)
         /\ (0 < default_cos_bound ->
             rget t_angle b = extrapolated_zero_angle default_cos_bound
             /\ 0 < rget t_angle b).
Proof.
  apply (so3_relative_angle_self (mat [[0; -1; 0]; [1; 0; 0]; [0; 0; 1]]) []).
  - reflexivity.
  - intros b i Hb Hi. inversion Hb; subst.
    destruct i as [|[|[|i]]]; [| | |lia]; eval_tensor; ring.
  - unfold default_cos_bound. lra.
Defined.

(** ** The scaler's cache and range *)



Lemma all_idx_in_range (rd idx : list nat) : In idx (all_idx rd) <-> in_range rd idx.
Proof.
  revert idx. induction rd as [|d rd IH]; intros idx; cbn [all_idx].
  - split.
    + intros [<-|[]]. constructor.
    + intros H. inversion H. now left.
  - rewrite in_flat_map. split.
    + intros (tl & Htl & Hin). apply in_map_iff in Hin. destruct Hin as (i & <- & Hi).
      apply in_seq in Hi. constructor; [lia|]. now apply IH.
    + intros H. inversion H as [|i d' tl rd' Hi Htl]; subst.
      exists tl. split; [now apply IH|]. apply in_map_iff. exists i. split; [reflexivity|].
      apply in_seq. lia.
Qed.

Lemma fold_Rmin_spec (f : list nat -> R) (l : list (list nat)) (x0 : R) :
  let m := fold_left (fun acc i => Rmin acc (f i)) l x0 in
  m <= x0 /\ (forall i, In i l -> m <= f i) /\ (m = x0 \/ exists i, In i l /\ m = f i).
Proof.
  revert x0. induction l as [|i l IH]; intros x0; cbn zeta; cbn [fold_left].
  - split; [lra|]. split; [easy|]. now left.
  - destruct (IH (Rmin x0 (f i))) as (H1 & H2 & H3). cbn zeta in *.
    pose proof (Rmin_l x0 (f i)). pose proof (Rmin_r x0 (f i)).
    split; [lra|]. split.
    + intros j [<-|Hj]; [lra|now apply H2].
    + destruct H3 as [H3|(j & Hj & H3)].
      * destruct (Rle_dec x0 (f i)) as [L|L];
          [pose proof (Rmin_left _ _ L) as E
          |pose proof (Rmin_right x0 (f i) ltac:(lra)) as E].
        -- left. etransitivity; [exact H3|exact E].
        -- right. exists i. split; [now left|]. etransitivity; [exact H3|exact E].
      * right. exists j. split; [now right|exact H3].
Qed.

Lemma fold_Rmax_spec (f : list nat -> R) (l : list (list nat)) (x0 : R) :
  let m := fold_left (fun acc i => Rmax acc (f i)) l x0 in
  x0 <= m /\ (forall i, In i l -> f i <= m) /\ (m = x0 \/ exists i, In i l /\ m = f i).
Proof.
  revert x0. induction l as [|i l IH]; intros x0; cbn zeta; cbn [fold_left].
  - split; [lra|]. split; [easy|]. now left.
  - destruct (IH (Rmax x0 (f i))) as (H1 & H2 & H3). cbn zeta in *.
    pose proof (Rmax_l x0 (f i)). pose proof (Rmax_r x0 (f i)).
    split; [lra|]. split.
    + intros j [<-|Hj]; [lra|now apply H2].
    + destruct H3 as [H3|(j & Hj & H3)].
      * destruct (Rle_dec (f i) x0) as [L|L];
          [pose proof (Rmax_left _ _ L) as E
          |pose proof (Rmax_right x0 (f i) ltac:(lra)) as E].
        -- left. etransitivity; [exact H3|exact E].
        -- right. exists i. split; [now left|]. etransitivity; [exact H3|exact E].
      * right. exists j. split; [now right|exact H3].
Qed.

(** The global minimum and maximum bound every entry and are entries. *)
Lemma extremum_all_min (e : exn) (t m : tensor) :
  extremum_all Rmin e t = Ok m ->
  rdims m = []
  /\ (forall idx, in_range (rdims t) idx -> rget m [] <= rget t idx)
  /\ exists idx, in_range (rdims t) idx /\ rget m [] = rget t idx.
Proof.
  unfold extremum_all. destruct (all_idx (rdims t)) as [|i0 rest] eqn:E; [discriminate|].
  intros H. injection H as <-. split; [reflexivity|]. cbn [scalar rget].
  destruct (fold_Rmin_spec (rget t) rest (rget t i0)) as (H1 & H2 & H3). cbn zeta in *.
  split.
  - intros idx Hin. apply all_idx_in_range in Hin. rewrite E in Hin.
    destruct Hin as [<-|Hin]; [exact H1|now apply H2].
  - destruct H3 as [H3|(j & Hj & H3)].
    + exists i0. split; [|exact H3]. apply all_idx_in_range. rewrite E. now left.
    + exists j. split; [|exact H3]. apply all_idx_in_range. rewrite E. now right.
Qed.

Lemma extremum_all_max (e : exn) (t m : tensor) :
  extremum_all Rmax e t = Ok m ->
  rdims m = []
  /\ (forall idx, in_range (rdims t) idx -> rget t idx <= rget m [])
  /\ exists idx, in_range (rdims t) idx /\ rget m [] = rget t idx.
Proof.
  unfold extremum_all. destruct (all_idx (rdims t)) as [|i0 rest] eqn:E; [discriminate|].
  intros H. injection H as <-. split; [reflexivity|]. cbn [scalar rget].
  destruct (fold_Rmax_spec (rget t) rest (rget t i0)) as (H1 & H2 & H3). cbn zeta in *.
  split.
  - intros idx Hin. apply all_idx_in_range in Hin. rewrite E in Hin.
    destruct Hin as [<-|Hin]; [exact H1|now apply H2].
  - destruct H3 as [H3|(j & Hj & H3)].
    + exists i0. split; [|exact H3]. apply all_idx_in_range. rewrite E. now left.
    + exists j. split; [|exact H3]. apply all_idx_in_range. rewrite E. now right.
Qed.

Lemma ratio_in_unit_interval (lo hi x : R) :
  lo < hi -> lo <= x <= hi -> 0 <= (x - lo) / (hi - lo) <= 1.
Proof.
  intros Hlt Hx. assert (Hd : 0 < / (hi - lo)) by (apply Rinv_0_lt_compat; lra).
  unfold Rdiv. split.
  - apply Rmult_le_pos; lra.
  - replace 1 with ((hi - lo) * / (hi - lo)) by (apply Rinv_r; lra).
    apply Rmult_le_compat_r; lra.
Qed.

Lemma rescale_by_scalars (self : MinMaxScaler.t) (X lo hi : tensor) (r : MinMaxScaler.t * tensor) :
  rdims lo = [] -> rdims hi = [] ->
  rescale self X lo hi = Ok r ->
  fst r = self
  /\ rdims (snd r) = rdims X
  /\ forall idx, in_range (rdims X) idx ->
       rget (snd r) idx = (rget X idx - rget lo []) / (rget hi [] - rget lo []).
Proof.
  intros Hlo Hhi. unfold rescale, tsub, tdiv, map2. rewrite Hlo, Hhi.
  rewrite bshape_nil_r. cbn [bind bshape rdims]. rewrite bshape_nil_r. cbn [bind].
  intros E. injection E as <-. cbn [fst snd rdims rget bidx].
  split; [reflexivity|]. split; [reflexivity|].
  intros idx Hidx. now rewrite !(bidx_in_range _ idx Hidx).
Qed.

(** X15: without a reduction axis the first call of [scale], on a numpy
    array or on a torch tensor, caches the smallest and the largest entry of
    the data as 0-d bounds; when they differ, every scaled entry lies in
    [0, 1], the smallest entries go to 0 and the largest to 1. *)
Theorem scale_global_range (X : array) (self1 : MinMaxScaler.t) (Y : tensor) :
  MinMaxScaler.scale (MinMaxScaler.init None None None) X = Ok (self1, Y) ->
  exists lo hi,
    MinMaxScaler.min self1 = Some lo /\ MinMaxScaler.max self1 = Some hi
    /\ shape lo = [] /\ shape hi = []
    /\ shape Y = shape (data X)
    /\ (forall idx, in_range (rdims (data X)) idx ->
          rget lo [] <= rget (data X) idx <= rget hi [])
    /\ (exists idx, in_range (rdims (data X)) idx /\ rget (data X) idx = rget lo [])
    /\ (exists idx, in_range (rdims (data X)) idx /\ rget (data X) idx = rget hi [])
    /\ (rget lo [] < rget hi [] ->
        forall idx, in_range (rdims (data X)) idx ->
          rget Y idx = (rget (data X) idx - rget lo []) / (rget hi [] - rget lo [])
          /\ 0 <= rget Y idx <= 1
          /\ (rget (data X) idx = rget lo [] -> rget Y idx = 0)
          /\ (rget (data X) idx = rget hi [] -> rget Y idx = 1)).
Proof.
  intros H.
  assert (G : exists e lo hi,
             extremum_all Rmin e (data X) = Ok lo /\ extremum_all Rmax e (data X) = Ok hi
             /\ rescale (MinMaxScaler.mk (Some lo) (Some hi) None) (data X) lo hi
                = Ok (self1, Y)).
  { destruct X as [a|a]; [rewrite scale_numpy_first_call in H
                         |rewrite scale_torch_first_call in H];
      unfold np_min, np_max, np_extremum, torch_min_all, torch_max_all in H; cbn [data].
    - destruct (extremum_all Rmin _ a) as [lo|] eqn:E1; cbn [bind] in H; [|discriminate].
      destruct (extremum_all Rmax _ a) as [hi|] eqn:E2; cbn [bind] in H; [|discriminate].
      eauto 6.
    - destruct (extremum_all Rmin _ a) as [lo|] eqn:E1; cbn [bind] in H; [|discriminate].
      destruct (extremum_all Rmax _ a) as [hi|] eqn:E2; cbn [bind] in H; [|discriminate].
      eauto 6. }
  destruct G as (e & lo & hi & Emin & Emax & Hr).
  destruct (extremum_all_min e _ _ Emin) as (Dlo & Llo & (ilo & Rlo & Alo)).
  destruct (extremum_all_max e _ _ Emax) as (Dhi & Lhi & (ihi & Rhi & Ahi)).
  destruct (rescale_by_scalars _ _ _ _ _ Dlo Dhi Hr) as (Hself & HdY & HvY).
  cbn [fst snd] in *. subst self1.
  exists lo, hi. split; [reflexivity|]. split; [reflexivity|].
  split; [now rewrite (shape_of_rdims _ _ Dlo)|]. split; [now rewrite (shape_of_rdims _ _ Dhi)|].
  split; [unfold shape; now rewrite HdY|].
  split; [intros idx Hidx; split; [now apply Llo|now apply Lhi]|].
  split; [exists ilo; split; [exact Rlo|now symmetry]|].
  split; [exists ihi; split; [exact Rhi|now symmetry]|].
  intros Hlt idx Hidx. rewrite (HvY idx Hidx). split; [reflexivity|]. split.
  - apply ratio_in_unit_interval; [exact Hlt|]. split; [now apply Llo|now apply Lhi].
  - split; intros ->; field; lra.
Qed.

Lemma scale_global_range_witness :
  exists self1 Y,
    MinMaxScaler.scale (MinMaxScaler.init None None None) (NdArray (mat [[0; 10]; [2; 4]]))
    = Ok (self1, Y)
    /\ exists lo hi,
         MinMaxScaler.min self1 = Some lo /\ MinMaxScaler.max self1 = Some hi
         /\ shape lo = [] /\ shape hi = []
         /\ shape Y = shape (data (NdArray (mat [[0; 10]; [2; 4]])))
         /\ (forall idx, in_range (rdims (data (NdArray (mat [[0; 10]; [2; 4]])))) idx ->
               rget lo [] <= rget (data (NdArray (mat [[0; 10]; [2; 4]]))) idx <= rget hi [])
         /\ (exists idx, in_range (rdims (data (NdArray (mat [[0; 10]; [2; 4]])))) idx
                         /\ rget (data (NdArray (mat [[0; 10]; [2; 4]]))) idx = rget lo [])
         /\ (exists idx, in_range (rdims (data (NdArray (mat [[0; 10]; [2; 4]])))) idx
                         /\ rget (data (NdArray (mat [[0; 10]; [2; 4]]))) idx = rget hi [])
         /\ (rget lo [] < rget hi [] ->
             forall idx, in_range (rdims (data (NdArray (mat [[0; 10]; [2; 4]])))) idx ->
               rget Y idx
               = (rget (data (NdArray (mat [[0; 10]; [2; 4]]))) idx - rget lo [])
                 / (rget hi [] - rget lo [])
               /\ 0 <= rget Y idx <= 1
               /\ (rget (data (NdArray (mat [[0; 10]; [2; 4]]))) idx = rget lo [] ->
                   rget Y idx = 0)
               /\ (rget (data (NdArray (mat [[0; 10]; [2; 4]]))) idx = rget hi [] ->
                   rget Y idx = 1)).
Proof.
  do 2 eexists. split; [eval_tensor; reflexivity|].
  eapply (scale_global_range (NdArray (mat [[0; 10]; [2; 4]]))).
  eval_tensor. reflexivity.
Defined.

(** ** Distances of a batch against a set of targets *)

Lemma sum_n_ext_lt (n : nat) (f g : nat -> R) :
  (forall k, (k < n)%nat -> f k = g k) -> sum_n n f = sum_n n g.
Proof.
  intros H. unfold sum_n.
  assert (G : forall k, In k (seq 0 n) -> f k = g k).
  { intros k Hk. apply in_seq in Hk. apply H. lia. }
  induction (seq 0 n) as [|k l IH]; cbn; [reflexivity|].
  rewrite (G k) by now left. rewrite IH; [reflexivity|]. intros j Hj. apply G. now right.
Qed.

Lemma bshape_batch_targets (D B T : nat) :
  bshape [D; B] [D; 1%nat; T] = Some [D; B; T].
Proof.
  cbn. rewrite Nat.eqb_refl. destruct (Nat.eqb_spec B 1) as [->|_]; reflexivity.
Qed.

(** X16: with [broadcast_target] every batch element meets every target.
    For [x_batch] of shape [[B, D]] and [x_target] of shape [[T, D]] the
    result has shape [[T, B]] (targets first), and its entry [[t, b]] is
    [w_pos] times the Euclidean distance of batch element [b] to target [t]. *)
Theorem euclidean_distance_broadcast_target
    (x_batch x_target : tensor) (B T D : nat) (w_pos w_rot w_vpos w_vrot : R) :
  shape x_batch = [B; D] -> shape x_target = [T; D] ->
  exists dist,
    euclidean_distance x_batch x_target None None w_pos w_rot w_vpos w_vrot true false
    = Ok dist
    /\ shape dist = [T; B]
    /\ forall t b, (t < T)%nat -> (b < B)%nat ->
         at_index dist [t; b]
         = w_pos * sqrt (sum_n D (fun k =>
                           (at_index x_batch [b; k] - at_index x_target [t; k])
                           * (at_index x_batch [b; k] - at_index x_target [t; k]))).
Proof.
  intros Hb Ht.
  apply (shape_snoc x_batch [B]) in Hb. apply (shape_snoc x_target [T]) in Ht.
  cbn [rev app] in Hb, Ht.
  unfold euclidean_distance, ndim. rewrite Hb, Ht. cbn [length Nat.eqb bind].
  rewrite (unsqueeze_at 1 x_target 2 1) by (unfold ndim; rewrite ?Ht; reflexivity).
  cbn [bind]. rewrite Ht. cbn [insert_at firstn skipn app].
  unfold tsub, map2. rewrite Hb. cbn [rdims]. rewrite bshape_batch_targets. cbn [bind].
  unfold linalg_norm. rewrite (reduce_dim_last _ _ D [B; T]) by reflexivity.
  cbn [bind]. eexists. split; [reflexivity|]. split; [reflexivity|].
  intros t b Htt Hbb. unfold at_index. cbn [rev app smul tmap rget].
  f_equal. f_equal. apply sum_n_ext_lt. intros k Hk.
  cbn [bidx drop_at firstn skipn app Nat.eqb].
  replace (if (D =? 1)%nat then O else k) with k
    by (destruct (Nat.eqb_spec D 1); [lia|reflexivity]).
  replace (if (B =? 1)%nat then O else b) with b
    by (destruct (Nat.eqb_spec B 1); [lia|reflexivity]).
  replace (if (T =? 1)%nat then O else t) with t
    by (destruct (Nat.eqb_spec T 1); [lia|reflexivity]).
  reflexivity.
Qed.

Lemma euclidean_distance_broadcast_target_witness :
  exists dist,
    euclidean_distance (mat [[0; 0]; [3; 4]; [1; 1]]) (mat [[0; 0]; [1; 1]]) None None
      1 0 1 0 true false = Ok dist
    /\ shape dist = [2; 3]%nat
    /\ forall t b, (t < 2)%nat -> (b < 3)%nat ->
         at_index dist [t; b]
         = 1 * sqrt (sum_n 2 (fun k =>
                       (at_index (mat [[0; 0]; [3; 4]; [1; 1]]) [b; k]
                        - at_index (mat [[0; 0]; [1; 1]]) [t; k])
                       * (at_index (mat [[0; 0]; [3; 4]; [1; 1]]) [b; k]
                          - at_index (mat [[0; 0]; [1; 1]]) [t; k]))).
Proof.
  apply (euclidean_distance_broadcast_target _ _ 3 2 2); reflexivity.
Defined.

(** ** Quaternion conventions *)

Lemma q_convert_xyzw_entries (q : tensor) (rb : list nat) :
  rdims q = 4%nat :: rb ->
  exists t,
    q_convert_xyzw q = Ok t /\ rdims t = 4%nat :: rb
    /\ forall k b, (k < 4)%nat -> rget t (k :: b) = rget q (((k + 1) mod 4)%nat :: b).
Proof.
  intros H. unfold q_convert_xyzw, unbind_last. rewrite H. cbn [bind seq map].
  unfold stack_last. cbn [forallb]. rewrite !same_dims_true by reflexivity.
  cbn [andb]. eexists. split; [reflexivity|]. split; [reflexivity|].
  intros k b Hk. destruct k as [|[|[|[|k]]]]; [| | | |lia]; reflexivity.
Qed.

Lemma q_convert_wxyz_entries (q : tensor) (rb : list nat) :
  rdims q = 4%nat :: rb ->
  exists t,
    q_convert_wxyz q = Ok t /\ rdims t = 4%nat :: rb
    /\ forall k b, (k < 4)%nat -> rget t (k :: b) = rget q (((k + 3) mod 4)%nat :: b).
Proof.
  intros H. unfold q_convert_wxyz, unbind_last. rewrite H. cbn [bind seq map].
  unfold stack_last. cbn [forallb]. rewrite !same_dims_true by reflexivity.
  cbn [andb]. eexists. split; [reflexivity|]. split; [reflexivity|].
  intros k b Hk. destruct k as [|[|[|[|k]]]]; [| | | |lia]; reflexivity.
Qed.

(** X17: the two reorderings are inverse to each other on every tensor
    whose last dimension has size 4, in both orders. *)
Theorem q_convert_round_trip (q : tensor) (bs : list nat) :
  shape q = bs ++ [4%nat] ->
  (exists a b, q_convert_xyzw q = Ok a /\ q_convert_wxyz a = Ok b /\ tensor_eq b q)
  /\ (exists a b, q_convert_wxyz q = Ok a /\ q_convert_xyzw a = Ok b /\ tensor_eq b q).
Proof.
  intros Hs. apply shape_snoc in Hs. split.
  - destruct (q_convert_xyzw_entries q _ Hs) as (a & Ea & Da & Va).
    destruct (q_convert_wxyz_entries a _ Da) as (b & Eb & Db & Vb).
    exists a, b. split; [exact Ea|]. split; [exact Eb|]. split; [congruence|].
    rewrite Db. intros idx Hidx.
    destruct (in_range_cons_inv _ _ _ Hidx) as (k & b' & -> & Hk & _).
    rewrite (Vb k b' Hk), Va by (apply Nat.mod_upper_bound; lia).
    destruct k as [|[|[|[|k]]]]; [| | | |lia]; reflexivity.
  - destruct (q_convert_wxyz_entries q _ Hs) as (a & Ea & Da & Va).
    destruct (q_convert_xyzw_entries a _ Da) as (b & Eb & Db & Vb).
    exists a, b. split; [exact Ea|]. split; [exact Eb|]. split; [congruence|].
    rewrite Db. intros idx Hidx.
    destruct (in_range_cons_inv _ _ _ Hidx) as (k & b' & -> & Hk & _).
    rewrite (Vb k b' Hk), Va by (apply Nat.mod_upper_bound; lia).
    destruct k as [|[|[|[|k]]]]; [| | | |lia]; reflexivity.
Qed.

Lemma q_convert_round_trip_witness :
  (exists a b, q_convert_xyzw (mat [[1; 2; 3; 4]; [5; 6; 7; 8]]) = Ok a
               /\ q_convert_wxyz a = Ok b /\ tensor_eq b (mat [[1; 2; 3; 4]; [5; 6; 7; 8]]))
  /\ (exists a b, q_convert_wxyz (mat [[1; 2; 3; 4]; [5; 6; 7; 8]]) = Ok a
                  /\ q_convert_xyzw a = Ok b
                  /\ tensor_eq b (mat [[1; 2; 3; 4]; [5; 6; 7; 8]])).
Proof. apply (q_convert_round_trip _ [2%nat]). reflexivity. Defined.

(** X18: both reorderings return exactly on the tensors whose last
    dimension has size 4 and keep the shape; [q_convert_xyzw] moves the real
    part from the first to the last place, [q_convert_wxyz] from the last to
    the first. *)
Theorem q_convert_returns_iff (q : tensor) :
  ((exists t, q_convert_xyzw q = Ok t) <-> (exists bs, shape q = bs ++ [4%nat]))
  /\ ((exists t, q_convert_wxyz q = Ok t) <-> (exists bs, shape q = bs ++ [4%nat]))
  /\ (forall t, q_convert_xyzw q = Ok t ->
        shape t = shape q
        /\ forall b, rget t (3 :: b)%nat = rget q (0 :: b)%nat
                     /\ rget t (0 :: b)%nat = rget q (1 :: b)%nat
                     /\ rget t (1 :: b)%nat = rget q (2 :: b)%nat
                     /\ rget t (2 :: b)%nat = rget q (3 :: b)%nat)
  /\ (forall t, q_convert_wxyz q = Ok t ->
        shape t = shape q
        /\ forall b, rget t (0 :: b)%nat = rget q (3 :: b)%nat
                     /\ rget t (1 :: b)%nat = rget q (0 :: b)%nat
                     /\ rget t (2 :: b)%nat = rget q (1 :: b)%nat
                     /\ rget t (3 :: b)%nat = rget q (2 :: b)%nat).
Proof.
  assert (Hdim : forall (conv : tensor -> result tensor) t,
             (conv = q_convert_xyzw \/ conv = q_convert_wxyz) ->
             conv q = Ok t -> exists rb, rdims q = 4%nat :: rb).
  { intros conv t Hc H.
    assert (H' : exists parts, unbind_last q = Ok parts /\ length parts = 4%nat).
    { destruct Hc as [-> | ->]; unfold q_convert_xyzw, q_convert_wxyz in H;
        (destruct (unbind_last q) as [parts|e]; cbn [bind] in H; [|discriminate]);
        exists parts; (split; [reflexivity|]);
        destruct parts as [|? [|? [|? [|? [|? ?]]]]]; try discriminate; reflexivity. }
    destruct H' as (parts & Hu & Hl). unfold unbind_last in Hu.
    destruct (rdims q) as [|n rb]; [discriminate|]. injection Hu as <-.
    rewrite length_map, length_seq in Hl. subst n. eauto. }
  split; [|split; [|split]].
  - split.
    + intros [t Ht]. destruct (Hdim _ t (or_introl eq_refl) Ht) as (rb & Hd).
      exists (rev rb). now rewrite (shape_of_rdims _ _ Hd).
    + intros [bs Hs]. apply shape_snoc in Hs.
      destruct (q_convert_xyzw_entries q _ Hs) as (t & Ht & _). eauto.
  - split.
    + intros [t Ht]. destruct (Hdim _ t (or_intror eq_refl) Ht) as (rb & Hd).
      exists (rev rb). now rewrite (shape_of_rdims _ _ Hd).
    + intros [bs Hs]. apply shape_snoc in Hs.
      destruct (q_convert_wxyz_entries q _ Hs) as (t & Ht & _). eauto.
  - intros t Ht. destruct (Hdim _ t (or_introl eq_refl) Ht) as (rb & Hd).
    destruct (q_convert_xyzw_entries q _ Hd) as (t' & Ht' & Dt & Vt).
    rewrite Ht in Ht'. injection Ht' as <-. split; [unfold shape; congruence|].
    intros b. repeat split; rewrite Vt by lia; reflexivity.
  - intros t Ht. destruct (Hdim _ t (or_intror eq_refl) Ht) as (rb & Hd).
    destruct (q_convert_wxyz_entries q _ Hd) as (t' & Ht' & Dt & Vt).
    rewrite Ht in Ht'. injection Ht' as <-. split; [unfold shape; congruence|].
    intros b. repeat split; rewrite Vt by lia; reflexivity.
Qed.

(** ** Skew-symmetric matrices and the cross product *)

Lemma select_dim1_2d (k n B : nat) (t : tensor) :
  rdims t = [n; B] -> (k < n)%nat ->
  select_dim1 k t = Ok (mkT [B] (fun idx => rget t (k :: idx))).
Proof.
  intros H Hk. unfold select_dim1, ndim. rewrite H.
  change (length [n; B] <? 2)%nat with false. cbn [length Nat.sub nth].
  apply Nat.ltb_lt in Hk. now rewrite Hk.
Qed.

Lemma expand_for_setitem_same (B : nat) (value : tensor) :
  rdims value = [B] ->
  exists v, expand_for_setitem [B] value = Ok v
            /\ forall b, (b < B)%nat -> v [b] = rget value [b].
Proof.
  intros H. unfold expand_for_setitem, shape, ndim. rewrite H. cbn [rev app length].
  destruct B as [|[|B]].
  - cbn. eexists. split; [reflexivity|]. intros b Hb. lia.
  - cbn. eexists. split; [reflexivity|]. intros b Hb. now replace b with O by lia.
  - cbn [strip_leading_ones rev app length Nat.sub repeat]. rewrite bshape_refl.
    destruct (list_eq_dec Nat.eq_dec [S (S B)] [S (S B)]) as [_|Hne]; [|now contradiction Hne].
    eexists. split; [reflexivity|]. intros b Hb. reflexivity.
Qed.

Lemma setitem_batch_ij_vec (i j m n B : nat) (dst value : tensor) :
  rdims dst = [m; n; B] -> (i < n)%nat -> (j < m)%nat -> rdims value = [B] ->
  exists t,
    setitem_batch_ij i j dst value = Ok t
    /\ rdims t = [m; n; B]
    /\ forall c r b, (b < B)%nat ->
         rget t [c; r; b]
         = if (r =? i)%nat && (c =? j)%nat then rget value [b] else rget dst [c; r; b].
Proof.
  intros Hd Hi Hj Hv. unfold setitem_batch_ij. rewrite Hd.
  apply Nat.ltb_lt in Hi, Hj. rewrite Hi, Hj. cbn [andb].
  destruct (expand_for_setitem_same B value Hv) as (v & -> & Hval). cbn [bind].
  eexists. split; [reflexivity|]. split; [reflexivity|].
  intros c r b Hb. cbn [rget]. now rewrite (Hval b Hb).
Qed.

(** The matrix built from a batch [vec3] of shape [[B, n]], [n >= 3]. *)
Lemma skew_entries (vec3 : array) (B n : nat) :
  rdims (data vec3) = [n; B] -> (3 <= n)%nat ->
  exists M,
    vector3_to_skew_symm_matrix vec3 = Ok M
    /\ rdims M = [3; 3; B]%nat
    /\ forall b r c, (b < B)%nat -> (r < 3)%nat -> (c < 3)%nat ->
         rget M [c; r; b]
         = skew_entry (rget (data vec3) [0%nat; b]) (rget (data vec3) [1%nat; b])
             (rget (data vec3) [2%nat; b]) r c.
Proof.
  intros H Hn. unfold vector3_to_skew_symm_matrix, to_torch_2d_min, to_torch, shape.
  rewrite H. cbn [rev app length Nat.eqb bind].
  rewrite !(select_dim1_2d _ n B (data vec3) H) by lia. cbn [bind].
  rewrite H. cbn [rev app].
  destruct (setitem_batch_ij_vec 0 1 3 3 B (zeros [B; 3; 3]%nat)
              (tneg (mkT [B] (fun idx => rget (data vec3) (2%nat :: idx)))))
    as (M1 & -> & D1 & V1); try (reflexivity || lia). cbn [bind].
  destruct (setitem_batch_ij_vec 0 2 3 3 B M1
              (mkT [B] (fun idx => rget (data vec3) (1%nat :: idx))))
    as (M2 & -> & D2 & V2); try (assumption || reflexivity || lia). cbn [bind].
  destruct (setitem_batch_ij_vec 1 0 3 3 B M2
              (mkT [B] (fun idx => rget (data vec3) (2%nat :: idx))))
    as (M3 & -> & D3 & V3); try (assumption || reflexivity || lia). cbn [bind].
  destruct (setitem_batch_ij_vec 1 2 3 3 B M3
              (tneg (mkT [B] (fun idx => rget (data vec3) (0%nat :: idx)))))
    as (M4 & -> & D4 & V4); try (assumption || reflexivity || lia). cbn [bind].
  destruct (setitem_batch_ij_vec 2 0 3 3 B M4
              (tneg (mkT [B] (fun idx => rget (data vec3) (1%nat :: idx)))))
    as (M5 & -> & D5 & V5); try (assumption || reflexivity || lia). cbn [bind].
  destruct (setitem_batch_ij_vec 2 1 3 3 B M5
              (mkT [B] (fun idx => rget (data vec3) (0%nat :: idx))))
    as (M6 & -> & D6 & V6); try (assumption || reflexivity || lia). cbn [bind].
  exists M6. split; [reflexivity|]. split; [exact D6|].
  intros b r c Hb Hr Hc.
  rewrite (V6 c r b Hb), (V5 c r b Hb), (V4 c r b Hb), (V3 c r b Hb), (V2 c r b Hb),
    (V1 c r b Hb).
  destruct r as [|[|[|r]]]; [| | |lia]; (destruct c as [|[|[|c]]]; [| | |lia]); reflexivity.
Qed.

(** X19: for a batch of shape [[B, n]] with [n >= 3],
    [vector3_to_skew_symm_matrix] returns a batch of shape [[B, 3, 3]] built
    from the first three components of each vector; every matrix is
    antisymmetric, with a zero diagonal. *)
Theorem skew_matrix_antisymmetric (vec3 : array) (B n : nat) :
  shape (data vec3) = [B; n] -> (3 <= n)%nat ->
  exists M,
    vector3_to_skew_symm_matrix vec3 = Ok M
    /\ shape M = [B; 3; 3]%nat
    /\ forall b r c, (b < B)%nat -> (r < 3)%nat -> (c < 3)%nat ->
         at_index M [b; r; c] = - at_index M [b; c; r]
         /\ at_index M [b; r; r] = 0
         /\ at_index M [b; r; c]
            = skew_entry (at_index (data vec3) [b; 0%nat]) (at_index (data vec3) [b; 1%nat])
                (at_index (data vec3) [b; 2%nat]) r c.
Proof.
  intros Hs Hn. apply (shape_snoc (data vec3) [B]) in Hs. cbn [rev app] in Hs.
  destruct (skew_entries vec3 B n Hs Hn) as (M & E & D & V).
  exists M. split; [exact E|]. split; [now rewrite (shape_of_rdims _ _ D)|].
  intros b r c Hb Hr Hc. unfold at_index. cbn [rev app].
  rewrite !V by assumption.
  destruct r as [|[|[|r]]]; [| | |lia]; (destruct c as [|[|[|c]]]; [| | |lia]);
    cbn [skew_entry]; repeat split; ring.
Qed.

Lemma skew_matrix_antisymmetric_witness :
  exists M,
    vector3_to_skew_symm_matrix (NdArray (mat [[1; 2; 3]; [4; 5; 6]])) = Ok M
    /\ shape M = [2; 3; 3]%nat
    /\ forall b r c, (b < 2)%nat -> (r < 3)%nat -> (c < 3)%nat ->
         at_index M [b; r; c] = - at_index M [b; c; r]
         /\ at_index M [b; r; r] = 0
         /\ at_index M [b; r; c]
            = skew_entry (at_index (data (NdArray (mat [[1; 2; 3]; [4; 5; 6]]))) [b; 0%nat])
                (at_index (data (NdArray (mat [[1; 2; 3]; [4; 5; 6]]))) [b; 1%nat])
                (at_index (data (NdArray (mat [[1; 2; 3]; [4; 5; 6]]))) [b; 2%nat]) r c.
Proof.
  apply (skew_matrix_antisymmetric _ 2 3); [reflexivity|lia].
Defined.

(** The cross product of two batches of shape [[B, 3]]. *)
Lemma cross_product_entries (vec3a vec3b : array) (B : nat) :
  rdims (data vec3a) = [3; B]%nat -> rdims (data vec3b) = [3; B]%nat ->
  exists t,
    cross_product vec3a vec3b = Ok t
    /\ rdims t = [3; B]%nat
    /\ forall b, (b < B)%nat ->
         let a0 := rget (data vec3a) [0%nat; b] in
         let a1 := rget (data vec3a) [1%nat; b] in
         let a2 := rget (data vec3a) [2%nat; b] in
         let b0 := rget (data vec3b) [0%nat; b] in
         let b1 := rget (data vec3b) [1%nat; b] in
         let b2 := rget (data vec3b) [2%nat; b] in
         rget t [0%nat; b] = a1 * b2 - a2 * b1
         /\ rget t [1%nat; b] = a2 * b0 - a0 * b2
         /\ rget t [2%nat; b] = a0 * b1 - a1 * b0.
Proof.
  intros Ha Hb. unfold cross_product.
  unfold to_torch_2d_min at 1 2. unfold to_torch, shape. rewrite Ha, Hb.
  cbn [rev app length Nat.eqb bind].
  destruct (skew_entries (Tensor (data vec3a)) B 3 Ha (le_n 3)) as (M & -> & D & V).
  cbn [bind data] in *.
  rewrite (unsqueeze_at 2 (data vec3b) 2 0) by (unfold ndim; rewrite ?Hb; reflexivity).
  cbn [bind]. rewrite Hb. cbn [insert_at firstn skipn app].
  rewrite (matmul_batched M (mkT [1; 3; B]%nat _) 3 3 1 [B] [B] [B] D eq_refl (bshape_refl _)).
  cbn [bind]. rewrite (squeeze_at_one 2 _ 3 0) by reflexivity.
  cbn [rdims drop_at firstn skipn app].
  eexists. split; [reflexivity|]. split; [reflexivity|].
  intros b Hlt. cbn zeta. cbn [rget insert_at drop_at firstn skipn app bidx].
  replace (if (B =? 1)%nat then O else b) with b
    by (destruct (Nat.eqb_spec B 1); [lia|reflexivity]).
  unfold sum_n. cbn [seq fold_right]. rewrite !V by lia. cbn [skew_entry].
  repeat split; ring.
Qed.

(** X20: for two batches of shape [[B, 3]], [cross_product] returns the
    batch of shape [[B, 3]] of the cross products, row by row; each product is
    orthogonal to both of its factors. *)
Theorem cross_product_formula (vec3a vec3b : array) (B : nat) :
  shape (data vec3a) = [B; 3]%nat -> shape (data vec3b) = [B; 3]%nat ->
  exists t,
    cross_product vec3a vec3b = Ok t
    /\ shape t = [B; 3]%nat
    /\ forall b, (b < B)%nat ->
         let a k := at_index (data vec3a) [b; k] in
         let v k := at_index (data vec3b) [b; k] in
         let c k := at_index t [b; k] in
         c 0%nat = a 1%nat * v 2%nat - a 2%nat * v 1%nat
         /\ c 1%nat = a 2%nat * v 0%nat - a 0%nat * v 2%nat
         /\ c 2%nat = a 0%nat * v 1%nat - a 1%nat * v 0%nat
         /\ a 0%nat * c 0%nat + a 1%nat * c 1%nat + a 2%nat * c 2%nat = 0
         /\ v 0%nat * c 0%nat + v 1%nat * c 1%nat + v 2%nat * c 2%nat = 0.
Proof.
  intros Ha Hb.
  apply (shape_snoc (data vec3a) [B]) in Ha. apply (shape_snoc (data vec3b) [B]) in Hb.
  cbn [rev app] in Ha, Hb.
  destruct (cross_product_entries vec3a vec3b B Ha Hb) as (t & E & D & V).
  exists t. split; [exact E|]. split; [now rewrite (shape_of_rdims _ _ D)|].
  intros b Hlt. cbn zeta. unfold at_index. cbn [rev app].
  destruct (V b Hlt) as (C0 & C1 & C2). cbn zeta in C0, C1, C2.
  rewrite C0, C1, C2. repeat split; ring.
Qed.

Lemma cross_product_formula_witness :
  exists t,
    cross_product (NdArray (mat [[1; 0; 0]; [1; 2; 3]])) (Tensor (mat [[0; 1; 0]; [4; 5; 6]]))
    = Ok t
    /\ shape t = [2; 3]%nat
    /\ forall b, (b < 2)%nat ->
         let a k := at_index (data (NdArray (mat [[1; 0; 0]; [1; 2; 3]]))) [b; k] in
         let v k := at_index (data (Tensor (mat [[0; 1; 0]; [4; 5; 6]]))) [b; k] in
         let c k := at_index t [b; k] in
         c 0%nat = a 1%nat * v 2%nat - a 2%nat * v 1%nat
         /\ c 1%nat = a 2%nat * v 0%nat - a 0%nat * v 2%nat
         /\ c 2%nat = a 0%nat * v 1%nat - a 1%nat * v 0%nat
         /\ a 0%nat * c 0%nat + a 1%nat * c 1%nat + a 2%nat * c 2%nat = 0
         /\ v 0%nat * c 0%nat + v 1%nat * c 1%nat + v 2%nat * c 2%nat = 0.
Proof. apply (cross_product_formula _ _ 2); reflexivity. Defined.

(** X21: the cross product is anticommutative, and the product of a batch
    with itself is zero. *)
Theorem cross_product_anticommutative (vec3a vec3b : array) (B : nat) :
  shape (data vec3a) = [B; 3]%nat -> shape (data vec3b) = [B; 3]%nat ->
  exists ab ba aa,
    cross_product vec3a vec3b = Ok ab
    /\ cross_product vec3b vec3a = Ok ba
    /\ cross_product vec3a vec3a = Ok aa
    /\ tensor_eq ab (tneg ba)
    /\ tensor_eq aa (zeros [B; 3]%nat).
Proof.
  intros Ha Hb.
  apply (shape_snoc (data vec3a) [B]) in Ha. apply (shape_snoc (data vec3b) [B]) in Hb.
  cbn [rev app] in Ha, Hb.
  destruct (cross_product_entries vec3a vec3b B Ha Hb) as (ab & Eab & Dab & Vab).
  destruct (cross_product_entries vec3b vec3a B Hb Ha) as (ba & Eba & Dba & Vba).
  destruct (cross_product_entries vec3a vec3a B Ha Ha) as (aa & Eaa & Daa & Vaa).
  exists ab, ba, aa. repeat (split; [assumption|]). split.
  - split; [cbn [tneg tmap rdims]; congruence|]. rewrite Dab. intros idx Hidx.
    destruct (in_range_mat _ _ _ Hidx) as (k & b & -> & Hk & Hlt).
    destruct (Vab b Hlt) as (A0 & A1 & A2). destruct (Vba b Hlt) as (B0 & B1 & B2).
    cbn zeta in *. cbn [tneg tmap rget].
    destruct k as [|[|[|k]]]; [| | |lia]; rewrite ?A0, ?A1, ?A2, ?B0, ?B1, ?B2; ring.
  - split; [now rewrite Daa|]. rewrite Daa. intros idx Hidx.
    destruct (in_range_mat _ _ _ Hidx) as (k & b & -> & Hk & Hlt).
    destruct (Vaa b Hlt) as (A0 & A1 & A2). cbn zeta in *. cbn [zeros rget].
    destruct k as [|[|[|k]]]; [| | |lia]; rewrite ?A0, ?A1, ?A2; ring.
Qed.

Lemma cross_product_anticommutative_witness :
  exists ab ba aa,
    cross_product (NdArray (mat [[1; 0; 0]; [1; 2; 3]])) (Tensor (mat [[0; 1; 0]; [4; 5; 6]]))
    = Ok ab
    /\ cross_product (Tensor (mat [[0; 1; 0]; [4; 5; 6]])) (NdArray (mat [[1; 0; 0]; [1; 2; 3]]))
       = Ok ba
    /\ cross_product (NdArray (mat [[1; 0; 0]; [1; 2; 3]]))
         (NdArray (mat [[1; 0; 0]; [1; 2; 3]])) = Ok aa
    /\ tensor_eq ab (tneg ba)
    /\ tensor_eq aa (zeros [2; 3]%nat).
Proof. apply (cross_product_anticommutative _ _ 2); reflexivity. Defined.

(** ** Distance of homogeneous transforms *)

(** X22: when neither [w_rot] nor [w_pos] is positive and no velocities are
    passed, [SE3_distance] returns the Python float [0.], not a tensor,
    for any two inputs of at least two dimensions with a nonempty last one:
    their shapes are not compared and the rotation blocks are not read. *)
Theorem SE3_distance_no_term_is_float_zero
    (H_batch H_target : tensor) (bs1 bs2 : list nat) (m1 n1 m2 n2 : nat)
    (w_pos w_rot w_vpos w_vrot : R) :
  shape H_batch = bs1 ++ [m1; S n1] -> shape H_target = bs2 ++ [m2; S n2] ->
  w_rot <= 0 -> w_pos <= 0 ->
  SE3_distance H_batch H_target None None w_pos w_rot w_vpos w_vrot false false
  = Ok (PyFloat 0).
Proof.
  intros H1 H2 Hr Hp. apply shape_snoc2 in H1, H2.
  assert (G : forall H rb m n, rdims H = S n :: m :: rb ->
              exists H' x, (if (ndim H =? 2)%nat then unsqueeze 0 H else Ok H) = Ok H'
                           /\ translation_column H' = Ok x).
  { intros H rb m n E. unfold ndim. rewrite E.
    destruct rb as [|d rb].
    - cbn [length Nat.eqb]. rewrite (unsqueeze_at 0 H 2 2) by (unfold ndim; rewrite ?E; reflexivity).
      rewrite E. cbn [insert_at firstn skipn app]. unfold translation_column.
      do 2 eexists. split; [reflexivity|]. reflexivity.
    - cbn [length Nat.eqb]. exists H. eexists. split; [reflexivity|].
      unfold translation_column. rewrite E. reflexivity. }
  destruct (G _ _ _ _ H1) as (Hb' & xb & E1 & X1).
  destruct (G _ _ _ _ H2) as (Ht' & xt & E2 & X2).
  unfold SE3_distance. rewrite E1, E2. cbn [bind]. rewrite X1, X2. cbn [bind].
  apply Rgtb_false in Hr, Hp. rewrite Hr, Hp. reflexivity.
Qed.

Lemma SE3_distance_no_term_is_float_zero_witness :
  SE3_distance eye3 (zeros [5; 2; 7]%nat) None None 0 (-1) 1 1 false false = Ok (PyFloat 0).
Proof.
  apply (SE3_distance_no_term_is_float_zero eye3 (zeros [5; 2; 7]%nat) [] [5%nat] 3 2 2 6);
    (reflexivity || lra).
Defined.

Lemma so3_relative_angle_cos_self (Rt : tensor) (rb : list nat) (eps cos_bound : R) :
  rdims Rt = 3%nat :: 3%nat :: rb ->
  (forall b i, in_range rb b -> (i < 3)%nat ->
     sum_n 3 (fun c => rget Rt (c :: i :: b) * rget Rt (c :: i :: b)) = 1) ->
  exists t,
    so3_relative_angle Rt Rt eps true cos_bound = Ok t
    /\ rdims t = rb
    /\ forall b, in_range rb b -> rget t b = 1.
Proof.
  intros Hs Hrow.
  destruct (transpose_last2 (-2) (-1) Rt _ _ _ (or_intror (conj eq_refl eq_refl)) Hs)
    as (f & HT & Hf).
  unfold so3_relative_angle. rewrite HT. cbn [bind].
  rewrite (matmul_batched Rt (mkT _ f) 3 3 3 _ _ _ Hs eq_refl (bshape_refl _)).
  cbn [bind].
  match goal with |- context [so3_rotation_angle ?A _ true _] => set (P := A) end.
  destruct (so3_rotation_angle_cos P rb eps cos_bound eq_refl) as (t & -> & Hd & Hv).
  exists t. split; [reflexivity|]. split; [exact Hd|].
  intros b Hb. rewrite (Hv b Hb). unfold P. cbn [rget]. rewrite (bidx_in_range _ b Hb).
  pose proof (Hrow b 0%nat Hb ltac:(lia)) as R0.
  pose proof (Hrow b 1%nat Hb ltac:(lia)) as R1.
  pose proof (Hrow b 2%nat Hb ltac:(lia)) as R2.
  unfold sum_n in *. cbn [seq fold_right] in *. rewrite !Hf. lra.
Qed.

(** X23: the distance of a batch of 4x4 transforms to itself is zero for
    every choice of the weights: the float [0.] when no term is enabled,
    a tensor of zeros of shape [[B]] otherwise.  The rows of the rotation
    blocks have norm 1. *)
Theorem SE3_distance_identical (H : tensor) (B : nat) (w_pos w_rot w_vpos w_vrot : R) :
  shape H = [B; 4; 4]%nat ->
  (forall b i, (b < B)%nat -> (i < 3)%nat ->
     sum_n 3 (fun c => at_index H [b; i; c] * at_index H [b; i; c]) = 1) ->
  exists D,
    SE3_distance H H None None w_pos w_rot w_vpos w_vrot false false = Ok D
    /\ match D with
       | PyFloat r => r = 0 /\ w_rot <= 0 /\ w_pos <= 0
       | PyTensor t => shape t = [B] /\ forall b, (b < B)%nat -> at_index t [b] = 0
       end.
Proof.
  intros Hs Hrow. apply (shape_snoc2 H [B]) in Hs. cbn [rev app] in Hs.
  unfold at_index in Hrow. cbn [rev app] in Hrow.
  unfold SE3_distance, ndim. rewrite Hs. cbn [length Nat.eqb bind].
  unfold translation_column, rotation_block. rewrite Hs.
  cbn [Nat.eqb Nat.sub Nat.min bind].
  set (x := mkT [3; B]%nat _).
  assert (Hx : exists diff T_distance,
             tsub x x = Ok diff /\ linalg_norm (-1) diff = Ok T_distance
             /\ rdims T_distance = [B]
             /\ forall b, rget T_distance [b] = 0).
  { unfold tsub. rewrite (map2_same_dims Rminus x x eq_refl).
    unfold linalg_norm. eexists. eexists. split; [reflexivity|].
    rewrite (reduce_dim_last _ _ 3 [B]) by reflexivity.
    split; [reflexivity|]. split; [reflexivity|].
    intros b. cbn [rget]. unfold sum_n. cbn [seq fold_right].
    match goal with |- sqrt ?e = 0 => replace e with 0 by ring end. apply sqrt_0. }
  destruct Hx as (diff & Td & Ediff & ETd & DTd & VTd).
  assert (Hc : exists cos_phi,
             so3_relative_angle (mkT [3; 3; B]%nat (rget H)) (mkT [3; 3; B]%nat (rget H))
               default_eps true default_cos_bound = Ok cos_phi
             /\ rdims cos_phi = [B]
             /\ forall b, (b < B)%nat -> rget cos_phi [b] = 1).
  { destruct (so3_relative_angle_cos_self (mkT [3; 3; B]%nat (rget H)) [B]
                default_eps default_cos_bound eq_refl) as (t & Et & Dt & Vt).
    - intros b i Hb Hi. destruct (in_range_vec _ _ Hb) as (b' & -> & Hb').
      cbn [rget]. now apply Hrow.
    - exists t. split; [exact Et|]. split; [exact Dt|].
      intros b Hb. apply Vt. now apply in_range_1. }
  destruct Hc as (cphi & Ec & Dc & Vc).
  destruct (Rgtb w_rot 0) eqn:Er; destruct (Rgtb w_pos 0) eqn:Ep.
  - rewrite Ec. cbn [bind py_iadd]. rewrite Ediff. cbn [bind].
    rewrite ETd. cbn [bind py_iadd]. unfold iadd, tadd.
    rewrite map2_same_dims by (cbn [tmap smul rdims]; congruence).
    cbn [bind rdims tmap smul].
    destruct (list_eq_dec Nat.eq_dec (rdims cphi) (rdims cphi)) as [_|Hne];
      [|now contradiction Hne].
    cbn [bind]. eexists. split; [reflexivity|]. cbn [rdims rget].
    split; [unfold shape; cbn [rdims]; now rewrite Dc|].
    intros b Hb. unfold at_index. cbn [rev app rget]. rewrite Dc.
    rewrite (bidx_in_range [B] [b] (in_range_1 B b Hb)). cbn [tmap smul rget].
    rewrite (Vc b Hb), VTd. ring.
  - rewrite Ec. cbn [bind py_iadd]. eexists. split; [reflexivity|].
    split; [unfold shape; cbn [tmap smul rdims]; now rewrite Dc|].
    intros b Hb. unfold at_index. cbn [rev app tmap smul rget]. rewrite (Vc b Hb). ring.
  - cbn [bind]. rewrite Ediff. cbn [bind].
    rewrite ETd. cbn [bind py_iadd]. eexists. split; [reflexivity|].
    split; [unfold shape; cbn [tmap smul rdims]; now rewrite DTd|].
    intros b Hb. unfold at_index. cbn [rev app tmap smul rget]. rewrite VTd. ring.
  - cbn [bind]. eexists. split; [reflexivity|].
    apply Rgtb_false in Er, Ep. now repeat split.
Qed.

Lemma SE3_distance_identical_witness :
  exists D,
    SE3_distance
      (batch_of_one (mat [[0; -1; 0; 1]; [1; 0; 0; 2]; [0; 0; 1; 3]; [0; 0; 0; 1]]))
      (batch_of_one (mat [[0; -1; 0; 1]; [1; 0; 0; 2]; [0; 0; 1; 3]; [0; 0; 0; 1]]))
      None None 1 1 1 1 false false = Ok D
    /\ match D with
       | PyFloat r => r = 0 /\ 1 <= 0 /\ 1 <= 0
       | PyTensor t => shape t = [1%nat] /\ forall b, (b < 1)%nat -> at_index t [b] = 0
       end.
Proof.
  apply (SE3_distance_identical _ 1 1 1 1 1); [reflexivity|].
  intros b i Hb Hi. replace b with O by lia.
  destruct i as [|[|[|i]]]; [| | |lia]; eval_tensor; ring.
Defined.

(** ** Exponential map *)

Lemma skew_of_vector (v : tensor) (n : nat) :
  rdims v = [n] ->
  vector3_to_skew_symm_matrix (Tensor v)
  = vector3_to_skew_symm_matrix
      (Tensor (mkT [n; 1%nat] (fun idx => rget v (drop_at 1 idx)))).
Proof.
  intros H. unfold vector3_to_skew_symm_matrix, to_torch_2d_min, to_torch, shape.
  cbn [data rdims rev app length Nat.eqb]. rewrite H. cbn [rev app length Nat.eqb].
  rewrite (unsqueeze_at 0 v 1 1) by (unfold ndim; rewrite ?H; reflexivity).
  rewrite H. reflexivity.
Qed.

Lemma exp_map_so3_entries (omega : tensor) (epsilon : R) :
  rdims omega = [3%nat] ->
  exists E,
    exp_map_so3 omega epsilon = Ok E
    /\ rdims E = [3; 3]%nat
    /\ forall r c, (r < 3)%nat -> (c < 3)%nat ->
         let w0 := rget omega [0%nat] in
         let w1 := rget omega [1%nat] in
         let w2 := rget omega [2%nat] in
         let theta := omega_norm w0 w1 w2 in
         rget E [c; r]
         = kronecker r c
           + sin_coeff epsilon theta * skew_entry w0 w1 w2 r c
           + cos_coeff epsilon theta
             * sum_n 3 (fun d => skew_entry w0 w1 w2 r d * skew_entry w0 w1 w2 d c).
Proof.
  intros H. unfold exp_map_so3. rewrite (skew_of_vector omega 3 H).
  destruct (skew_entries (Tensor (mkT [3; 1]%nat (fun idx => rget omega (drop_at 1 idx))))
              1 3 eq_refl (le_n 3)) as (M & -> & D & V).
  cbn [bind data rget] in *.
  unfold squeeze_all, norm_all, torch_square. rewrite D, H.
  cbn [filter Nat.eqb negb all_idx flat_map map seq app fold_right].
  unfold tdiv, tmul, tadd, map2. cbn [rdims scalar tmap bshape bind eye3 mat length hd Nat.eqb].
  unfold matmul. cbn [rdims Nat.eqb bshape bind].
  eexists. split; [reflexivity|]. split; [reflexivity|].
  intros r c Hr Hc. cbn zeta.
  cbn [rget bidx Nat.eqb unsqueezed_index scalar tmap].
  unfold sum_n. cbn [seq fold_right unsqueezed_index Nat.eqb].
  rewrite !V by lia. cbn [drop_at firstn skipn app].
  unfold sin_coeff, cos_coeff, omega_norm, kronecker.
  destruct r as [|[|[|r]]]; [| | |lia]; (destruct c as [|[|[|c]]]; [| | |lia]);
    cbn [eye3 mat rget nth Nat.eqb skew_entry]; ring.
Qed.

(** X24: the rotation that [exp_map_so3] returns for a vector [omega] of
    shape [[3]] leaves [omega] fixed: the matrix times [omega] is [omega],
    whatever [epsilon] is, as long as the denominators [norm + epsilon] are
    not zero. *)
Theorem exp_map_so3_fixes_axis (omega : tensor) (epsilon : R) :
  shape omega = [3%nat] ->
  omega_norm (rget omega [0%nat]) (rget omega [1%nat]) (rget omega [2%nat]) + epsilon <> 0 ->
  exists E moved,
    exp_map_so3 omega epsilon = Ok E
    /\ shape E = [3; 3]%nat
    /\ matmul E omega = Ok moved
    /\ tensor_eq moved omega.
Proof.
  intros Hs _. apply (shape_snoc omega []) in Hs. cbn [rev] in Hs.
  destruct (exp_map_so3_entries omega epsilon Hs) as (E & HE & D & V).
  exists E. eexists. split; [exact HE|]. split; [now rewrite (shape_of_rdims _ _ D)|].
  unfold matmul. rewrite D, Hs. cbn [Nat.eqb]. split; [reflexivity|].
  split; [now rewrite Hs|]. cbn [rdims]. intros idx Hidx.
  destruct (in_range_vec _ _ Hidx) as (i & -> & Hi). cbn [rget].
  unfold sum_n. cbn [seq fold_right]. rewrite !V by lia. cbn zeta.
  unfold sum_n, kronecker. cbn [seq fold_right].
  destruct i as [|[|[|i]]]; [| | |lia]; cbn [Nat.eqb skew_entry]; ring.
Qed.

Lemma exp_map_so3_fixes_axis_witness :
  exists E moved,
    exp_map_so3 (vec [0; 0; 2]) (1 / 100) = Ok E
    /\ shape E = [3; 3]%nat
    /\ matmul E (vec [0; 0; 2]) = Ok moved
    /\ tensor_eq moved (vec [0; 0; 2]).
Proof.
  apply (exp_map_so3_fixes_axis (vec [0; 0; 2]) (1 / 100)); [reflexivity|].
  unfold omega_norm. cbn [vec rget nth].
  pose proof (sqrt_pos (0 * 0 + (0 * 0 + (2 * 2 + 0)))). lra.
Defined.

(** X25: the rotation of the opposite vector is the transpose: for [omega]
    of shape [[3]], [exp_map_so3(-omega)] equals [exp_map_so3(omega)]
    transposed, as long as the denominators [norm + epsilon] are not zero. *)
Theorem exp_map_so3_neg_is_transpose (omega : tensor) (epsilon : R) :
  shape omega = [3%nat] ->
  omega_norm (rget omega [0%nat]) (rget omega [1%nat]) (rget omega [2%nat]) + epsilon <> 0 ->
  exists E E_neg E_t,
    exp_map_so3 omega epsilon = Ok E
    /\ exp_map_so3 (tneg omega) epsilon = Ok E_neg
    /\ transpose (-1) (-2) E = Ok E_t
    /\ tensor_eq E_neg E_t.
Proof.
  intros Hs _. apply (shape_snoc omega []) in Hs. cbn [rev] in Hs.
  destruct (exp_map_so3_entries omega epsilon Hs) as (E & HE & D & V).
  destruct (exp_map_so3_entries (tneg omega) epsilon Hs) as (En & HEn & Dn & Vn).
  destruct (transpose_last2 (-1) (-2) E _ _ _ (or_introl (conj eq_refl eq_refl)) D)
    as (f & HT & Hf).
  exists E, En. eexists. split; [exact HE|]. split; [exact HEn|]. split; [exact HT|].
  split; [exact Dn|]. rewrite Dn. intros idx Hidx.
  destruct (in_range_mat _ _ _ Hidx) as (c & r & -> & Hc & Hr).
  cbn [rget]. rewrite Hf, Vn, V by lia. cbn zeta. cbn [tneg tmap rget].
  assert (Hn : omega_norm (- rget omega [0%nat]) (- rget omega [1%nat]) (- rget omega [2%nat])
               = omega_norm (rget omega [0%nat]) (rget omega [1%nat]) (rget omega [2%nat])).
  { unfold omega_norm. f_equal. ring. }
  rewrite Hn. unfold sum_n, kronecker. cbn [seq fold_right].
  destruct r as [|[|[|r]]]; [| | |lia]; (destruct c as [|[|[|c]]]; [| | |lia]);
    cbn [Nat.eqb skew_entry]; ring.
Qed.

Lemma exp_map_so3_neg_is_transpose_witness :
  exists E E_neg E_t,
    exp_map_so3 (vec [1; 0; 2]) (1 / 100) = Ok E
    /\ exp_map_so3 (tneg (vec [1; 0; 2])) (1 / 100) = Ok E_neg
    /\ transpose (-1) (-2) E = Ok E_t
    /\ tensor_eq E_neg E_t.
Proof.
  apply (exp_map_so3_neg_is_transpose (vec [1; 0; 2]) (1 / 100)); [reflexivity|].
  unfold omega_norm. cbn [vec rget nth].
  pose proof (sqrt_pos (1 * 1 + (0 * 0 + (2 * 2 + 0)))). lra.
Defined.

(** ** Filling the diagonal and the lower triangle *)

Example bfill_example :
  exists A, bfill_lowertriangle (zeros [3; 3]%nat) (vec [1; 2; 3]) = Ok A
            /\ at_index A [1; 0]%nat = 1 /\ at_index A [2; 0]%nat = 2
            /\ at_index A [2; 1]%nat = 3 /\ at_index A [0; 1]%nat = 0.
Proof.
  eexists. split; [eval_tensor; reflexivity|]. repeat split; eval_tensor; reflexivity.
Qed.

Lemma strip_leading_ones_spec (sh : list nat) :
  exists k, sh = repeat 1%nat k ++ strip_leading_ones sh.
Proof.
  induction sh as [|d sh IH]; [now exists O|].
  destruct d as [|[|d]]; try (now exists O).
  destruct IH as (k & IH). exists (S k). cbn. now rewrite <- IH.
Qed.

Lemma rev_repeat {A : Type} (x : A) (k : nat) : rev (repeat x k) = repeat x k.
Proof.
  induction k as [|k IH]; [reflexivity|]. cbn. rewrite IH.
  clear IH. induction k as [|k IH]; [reflexivity|]. cbn. now rewrite IH.
Qed.

Lemma bshape_prefix (s t : list nat) : bshape s (s ++ t) = Some (s ++ t).
Proof.
  induction s as [|a s IH]; [reflexivity|]. cbn. now rewrite IH, Nat.eqb_refl.
Qed.

Lemma bidx_prefix_ones (s idx : list nat) (k : nat) :
  in_range (s ++ repeat 1%nat k) idx ->
  bidx s idx ++ repeat O k = idx.
Proof.
  revert idx. induction s as [|a s IH]; intros idx H.
  - cbn [bidx app] in *. revert idx H. induction k as [|k IH]; intros idx H.
    + inversion H. reflexivity.
    + inversion H as [|i d idx' rd Hi H']; subst. cbn. replace i with O by lia.
      f_equal. now apply IH.
  - inversion H as [|i d idx' rd Hi H']; subst. cbn [bidx app].
    rewrite (IH idx' H'). destruct (Nat.eqb_spec a 1); [|reflexivity].
    f_equal. lia.
Qed.

(** A value that has the shape of the slice is written as it is. *)
Lemma expand_for_setitem_same_dims (rd : list nat) (value : tensor) :
  rdims value = rd ->
  exists v, expand_for_setitem rd value = Ok v
            /\ forall idx, in_range rd idx -> v idx = rget value idx.
Proof.
  intros H. unfold expand_for_setitem, shape, ndim. rewrite H. cbv zeta.
  assert (Hd : exists s k, rev (strip_leading_ones (rev rd)) = s
                           /\ rd = s ++ repeat 1%nat k).
  { destruct (strip_leading_ones_spec (rev rd)) as (k & Hk).
    exists (rev (strip_leading_ones (rev rd))), k. split; [reflexivity|].
    rewrite <- (rev_involutive rd) at 1. rewrite Hk at 1.
    now rewrite rev_app_distr, rev_repeat. }
  destruct Hd as (s & k & Hs & Hrd). rewrite Hs. clear Hs H. subst rd.
  rewrite bshape_prefix.
  destruct (list_eq_dec Nat.eq_dec (s ++ repeat 1%nat k) (s ++ repeat 1%nat k))
    as [_|Hne]; [|now contradiction Hne].
  eexists. split; [reflexivity|]. intros idx Hidx. cbn beta.
  replace (length (s ++ repeat 1%nat k) - length s)%nat with k.
  - now rewrite (bidx_prefix_ones s idx k Hidx).
  - rewrite length_app, repeat_length. lia.
Qed.

Lemma position_lt (ij : nat * nat) (l : list (nat * nat)) (k : nat) :
  position ij l = Some k -> (k < length l)%nat.
Proof.
  revert k. induction l as [|p l IH]; intros k H; [discriminate|].
  cbn in H. destruct ((fst p =? fst ij)%nat && (snd p =? snd ij)%nat).
  - injection H as <-. cbn. lia.
  - destruct (position ij l) as [k'|]; [|discriminate]. injection H as <-.
    specialize (IH k' eq_refl). cbn. lia.
Qed.

Lemma position_app (ij : nat * nat) (l1 l2 : list (nat * nat)) :
  position ij (l1 ++ l2)
  = match position ij l1 with
    | Some k => Some k
    | None => option_map (fun k => (length l1 + k)%nat) (position ij l2)
    end.
Proof.
  induction l1 as [|p l1 IH]; cbn.
  - now destruct (position ij l2).
  - destruct ((fst p =? fst ij)%nat && (snd p =? snd ij)%nat); [reflexivity|].
    rewrite IH. destruct (position ij l1); [reflexivity|].
    now destruct (position ij l2).
Qed.

Lemma position_diag_from (r c a n : nat) :
  position (r, c) (map (fun i => (i, i)) (seq a n))
  = if (r =? c)%nat && (a <=? r)%nat && (r <? a + n)%nat
    then Some (r - a)%nat else None.
Proof.
  revert a. induction n as [|n IH]; intros a.
  - cbn [seq map position].
    destruct (Nat.eqb_spec r c), (Nat.leb_spec a r), (Nat.ltb_spec r (a + 0));
      cbn; try reflexivity; lia.
  - cbn [seq map position fst snd]. rewrite IH.
    destruct (Nat.eqb_spec a r), (Nat.eqb_spec a c), (Nat.eqb_spec r c),
      (Nat.leb_spec a r), (Nat.leb_spec (S a) r), (Nat.ltb_spec r (a + S n)),
      (Nat.ltb_spec r (S a + n)); cbn; try reflexivity; try lia;
      f_equal; lia.
Qed.

Lemma position_diag (r c n : nat) :
  position (r, c) (diag_indices n)
  = if (r =? c)%nat && (r <? n)%nat then Some r else None.
Proof.
  unfold diag_indices. rewrite position_diag_from.
  destruct (Nat.eqb_spec r c), (Nat.ltb_spec r n), (Nat.ltb_spec r (0 + n));
    cbn; try reflexivity; try lia. f_equal. lia.
Qed.

Lemma position_row_from (i r c a k : nat) :
  position (r, c) (map (fun j => (i, j)) (seq a k))
  = if (i =? r)%nat && (a <=? c)%nat && (c <? a + k)%nat
    then Some (c - a)%nat else None.
Proof.
  revert a. induction k as [|k IH]; intros a.
  - cbn [seq map position].
    destruct (Nat.eqb_spec i r), (Nat.leb_spec a c), (Nat.ltb_spec c (a + 0));
      cbn; try reflexivity; lia.
  - cbn [seq map position fst snd]. rewrite IH.
    destruct (Nat.eqb_spec i r), (Nat.eqb_spec a c),
      (Nat.leb_spec a c), (Nat.leb_spec (S a) c), (Nat.ltb_spec c (a + S k)),
      (Nat.ltb_spec c (S a + k)); cbn; try reflexivity; try lia;
      f_equal; lia.
Qed.

Lemma tril_indices_S (n m : nat) :
  tril_indices (S n) m
  = tril_indices n m ++ map (fun j => (n, j)) (seq 0 (Nat.min n m)).
Proof.
  unfold tril_indices. rewrite seq_S, flat_map_app. cbn [flat_map Nat.add].
  now rewrite app_nil_r.
Qed.

Lemma tril_indices_length (n m : nat) :
  length (tril_indices n m) = tril_offset m n.
Proof.
  induction n as [|n IH]; [reflexivity|].
  rewrite tril_indices_S, length_app, length_map, length_seq, IH. reflexivity.
Qed.

Lemma position_tril (r c n m : nat) :
  position (r, c) (tril_indices n m)
  = if (r <? n)%nat && (c <? Nat.min r m)%nat
    then Some (tril_offset m r + c)%nat else None.
Proof.
  induction n as [|n IH]; [reflexivity|].
  rewrite tril_indices_S, position_app, IH, position_row_from, tril_indices_length.
  destruct (Nat.ltb_spec r n), (Nat.ltb_spec r (S n)),
    (Nat.ltb_spec c (Nat.min r m)), (Nat.eqb_spec n r),
    (Nat.leb_spec 0 c), (Nat.ltb_spec c (0 + Nat.min n m));
    cbn; try reflexivity; try lia; subst; try lia; f_equal; lia.
Qed.

(** In a square matrix the rows below the diagonal hold 0, 1, 2, ...
    places. *)
Lemma tril_offset_square (m r : nat) :
  (r <= S m)%nat -> (2 * tril_offset m r = r * (r - 1))%nat.
Proof.
  induction r as [|r IH]; intros H; [reflexivity|].
  cbn [tril_offset]. rewrite Nat.min_l by lia.
  specialize (IH ltac:(lia)). destruct r as [|r]; [cbn; lia|].
  cbn [Nat.sub] in *. nia.
Qed.

Lemma tril_indices_in_bounds (n m : nat) :
  forallb (fun p => (fst p <? n)%nat && (snd p <? m)%nat) (tril_indices n m) = true.
Proof.
  apply forallb_forall. intros [i j] Hin. unfold tril_indices in Hin.
  apply in_flat_map in Hin. destruct Hin as (i' & Hi & Hj).
  apply in_map_iff in Hj. destruct Hj as (j' & E & Hj). injection E as <- <-.
  apply in_seq in Hi, Hj. cbn [fst snd].
  apply andb_true_intro. split; apply Nat.ltb_lt; lia.
Qed.

Lemma diag_indices_in_bounds (n m : nat) :
  forallb (fun p => (fst p <? n)%nat && (snd p <? m)%nat)
    (diag_indices (Nat.min n m)) = true.
Proof.
  apply forallb_forall. intros [i j] Hin. unfold diag_indices in Hin.
  apply in_map_iff in Hin. destruct Hin as (i' & E & Hi). injection E as <- <-.
  apply in_seq in Hi. cbn [fst snd].
  apply andb_true_intro. split; apply Nat.ltb_lt; lia.
Qed.

(** What an assignment through index arrays writes and what it leaves. *)
Lemma setitem_pairs_entries (pairs : list (nat * nat)) (A vec : tensor)
    (m n : nat) (rb : list nat) :
  rdims A = m :: n :: rb ->
  forallb (fun p => (fst p <? n)%nat && (snd p <? m)%nat) pairs = true ->
  rdims vec = length pairs :: rb ->
  exists A', setitem_pairs pairs A vec = Ok A'
    /\ rdims A' = m :: n :: rb
    /\ forall c r b, in_range rb b ->
         rget A' (c :: r :: b)
         = match position (r, c) pairs with
           | Some k => rget vec (k :: b)
           | None => rget A (c :: r :: b)
           end.
Proof.
  intros HA Hb Hv. unfold setitem_pairs. rewrite HA, Hb.
  destruct (expand_for_setitem_same_dims _ vec Hv) as (v & E & V).
  rewrite E. cbn [bind]. eexists. split; [reflexivity|]. split; [reflexivity|].
  intros c r b Hr. cbn [rget].
  destruct (position (r, c) pairs) as [k|] eqn:P; [|reflexivity].
  apply V. constructor; [now apply position_lt in P|exact Hr].
Qed.

Lemma in_range_rev (b bs : list nat) :
  Forall2 lt b bs -> in_range (rev bs) (rev b).
Proof.
  intros H. unfold in_range. induction H as [|x y l l' Hxy H IH]; [constructor|].
  cbn [rev]. apply Forall2_app; [exact IH|]. constructor; [exact Hxy|constructor].
Qed.

Lemma at_index_snoc2 (t : tensor) (b : list nat) (r c : nat) :
  at_index t (b ++ [r; c]%nat) = rget t (c :: r :: rev b).
Proof. unfold at_index. now rewrite rev_app_distr. Qed.

Lemma at_index_snoc (t : tensor) (b : list nat) (k : nat) :
  at_index t (b ++ [k]) = rget t (k :: rev b).
Proof. unfold at_index. now rewrite rev_app_distr. Qed.

Lemma bfill_diagonal_rget (A vec : tensor) (m n : nat) (rb : list nat) :
  rdims A = m :: n :: rb -> rdims vec = Nat.min n m :: rb ->
  exists A', bfill_diagonal A vec = Ok A'
    /\ rdims A' = m :: n :: rb
    /\ forall c r b, in_range rb b -> (r < n)%nat -> (c < m)%nat ->
         rget A' (c :: r :: b)
         = if (r =? c)%nat then rget vec (r :: b) else rget A (c :: r :: b).
Proof.
  intros HA Hv. unfold bfill_diagonal. rewrite HA.
  assert (Hv' : rdims vec = length (diag_indices (Nat.min n m)) :: rb).
  { unfold diag_indices. now rewrite length_map, length_seq. }
  destruct (setitem_pairs_entries _ A vec m n rb HA (diag_indices_in_bounds n m) Hv')
    as (A' & E & D & V).
  exists A'. split; [exact E|]. split; [exact D|].
  intros c r b Hb Hr Hc. rewrite (V c r b Hb), position_diag.
  destruct (Nat.eqb_spec r c), (Nat.ltb_spec r (Nat.min n m));
    cbn; try reflexivity; lia.
Qed.

Lemma bfill_lowertriangle_rget (A vec : tensor) (m n : nat) (rb : list nat) :
  rdims A = m :: n :: rb -> rdims vec = tril_offset m n :: rb ->
  exists A', bfill_lowertriangle A vec = Ok A'
    /\ rdims A' = m :: n :: rb
    /\ forall c r b, in_range rb b -> (r < n)%nat -> (c < m)%nat ->
         rget A' (c :: r :: b)
         = if (c <? r)%nat then rget vec ((tril_offset m r + c)%nat :: b)
           else rget A (c :: r :: b).
Proof.
  intros HA Hv. unfold bfill_lowertriangle. rewrite HA.
  assert (Hv' : rdims vec = length (tril_indices n m) :: rb).
  { now rewrite tril_indices_length. }
  destruct (setitem_pairs_entries _ A vec m n rb HA (tril_indices_in_bounds n m) Hv')
    as (A' & E & D & V).
  exists A'. split; [exact E|]. split; [exact D|].
  intros c r b Hb Hr Hc. rewrite (V c r b Hb), position_tril.
  destruct (Nat.ltb_spec r n), (Nat.ltb_spec c (Nat.min r m)), (Nat.ltb_spec c r);
    cbn; try reflexivity; lia.
Qed.

Lemma rdims_of_shape2 (t : tensor) (bs : list nat) (n m : nat) :
  shape t = bs ++ [n; m]%nat -> rdims t = m :: n :: rev bs.
Proof.
  intros H. unfold shape in H. rewrite <- (rev_involutive (rdims t)), H.
  now rewrite rev_app_distr.
Qed.

Lemma rdims_of_shape1 (t : tensor) (bs : list nat) (n : nat) :
  shape t = bs ++ [n] -> rdims t = n :: rev bs.
Proof.
  intros H. unfold shape in H. rewrite <- (rev_involutive (rdims t)), H.
  now rewrite rev_app_distr.
Qed.

(** X26: for a batch [A] of [n] x [m] matrices and a batch [vec] of vectors
    of length [min n m], [bfill_diagonal] returns [A] with each diagonal
    overwritten by the matching vector and every other entry as it was. *)
Theorem bfill_diagonal_entries (A vec : tensor) (bs : list nat) (n m : nat) :
  shape A = bs ++ [n; m]%nat -> shape vec = bs ++ [Nat.min n m] ->
  exists A', bfill_diagonal A vec = Ok A'
    /\ shape A' = shape A
    /\ forall b r c, Forall2 lt b bs -> (r < n)%nat -> (c < m)%nat ->
         at_index A' (b ++ [r; c]%nat)
         = if (r =? c)%nat then at_index vec (b ++ [r])
           else at_index A (b ++ [r; c]%nat).
Proof.
  intros HA Hv. apply rdims_of_shape2 in HA. apply rdims_of_shape1 in Hv.
  destruct (bfill_diagonal_rget A vec m n _ HA Hv) as (A' & E & D & V).
  exists A'. split; [exact E|]. split; [unfold shape; congruence|].
  intros b r c Hb Hr Hc. rewrite !at_index_snoc2, at_index_snoc.
  apply V; [now apply in_range_rev|exact Hr|exact Hc].
Qed.

Lemma bfill_diagonal_entries_witness :
  exists A', bfill_diagonal (zeros [2; 3]%nat) (vec [5; 7]) = Ok A'
    /\ at_index A' [0; 0]%nat = 5 /\ at_index A' [1; 1]%nat = 7
    /\ at_index A' [1; 2]%nat = 0.
Proof.
  destruct (bfill_diagonal_entries (zeros [2; 3]%nat) (vec [5; 7]) [] 2 3
              eq_refl eq_refl) as (A' & E & _ & V).
  exists A'. split; [exact E|].
  pose proof (V [] 0%nat 0%nat (Forall2_nil _) ltac:(lia) ltac:(lia)) as V00.
  pose proof (V [] 1%nat 1%nat (Forall2_nil _) ltac:(lia) ltac:(lia)) as V11.
  pose proof (V [] 1%nat 2%nat (Forall2_nil _) ltac:(lia) ltac:(lia)) as V12.
  cbn [app Nat.eqb] in V00, V11, V12.
  rewrite V00, V11, V12. repeat split; eval_tensor; reflexivity.
Defined.

(** X27: for a batch [A] of [n] x [m] matrices, [bfill_lowertriangle]
    returns [A] with the entries strictly below the diagonal overwritten, row
    by row, by the entries of [vec], and every entry on or above the diagonal
    as it was. *)
Theorem bfill_lowertriangle_entries (A vec : tensor) (bs : list nat) (n m : nat) :
  shape A = bs ++ [n; m]%nat -> shape vec = bs ++ [tril_offset m n] ->
  exists A', bfill_lowertriangle A vec = Ok A'
    /\ shape A' = shape A
    /\ forall b r c, Forall2 lt b bs -> (r < n)%nat -> (c < m)%nat ->
         at_index A' (b ++ [r; c]%nat)
         = if (c <? r)%nat then at_index vec (b ++ [(tril_offset m r + c)%nat])
           else at_index A (b ++ [r; c]%nat).
Proof.
  intros HA Hv. apply rdims_of_shape2 in HA. apply rdims_of_shape1 in Hv.
  destruct (bfill_lowertriangle_rget A vec m n _ HA Hv) as (A' & E & D & V).
  exists A'. split; [exact E|]. split; [unfold shape; congruence|].
  intros b r c Hb Hr Hc. rewrite !at_index_snoc2, at_index_snoc.
  apply V; [now apply in_range_rev|exact Hr|exact Hc].
Qed.

Lemma bfill_lowertriangle_entries_witness :
  exists A', bfill_lowertriangle (zeros [3; 3]%nat) (vec [1; 2; 3]) = Ok A'
    /\ at_index A' [2; 1]%nat = 3 /\ at_index A' [1; 1]%nat = 0.
Proof.
  destruct (bfill_lowertriangle_entries (zeros [3; 3]%nat) (vec [1; 2; 3]) [] 3 3
              eq_refl eq_refl) as (A' & E & _ & V).
  exists A'. split; [exact E|].
  pose proof (V [] 2%nat 1%nat (Forall2_nil _) ltac:(lia) ltac:(lia)) as V21.
  pose proof (V [] 1%nat 1%nat (Forall2_nil _) ltac:(lia) ltac:(lia)) as V11.
  cbn [app Nat.ltb Nat.leb] in V21, V11.
  rewrite V21, V11. split; eval_tensor; reflexivity.
Defined.

(** X28: filling the lower triangle and filling the diagonal do not disturb
    one another: done in either order they return the same matrices. *)
Theorem bfill_diagonal_lowertriangle_commute
    (A low diag : tensor) (bs : list nat) (n m : nat) :
  shape A = bs ++ [n; m]%nat ->
  shape low = bs ++ [tril_offset m n] ->
  shape diag = bs ++ [Nat.min n m] ->
  exists A1 A12 A2 A21,
    bfill_lowertriangle A low = Ok A1 /\ bfill_diagonal A1 diag = Ok A12
    /\ bfill_diagonal A diag = Ok A2 /\ bfill_lowertriangle A2 low = Ok A21
    /\ tensor_eq A12 A21.
Proof.
  intros HA Hl Hd. apply rdims_of_shape2 in HA.
  apply rdims_of_shape1 in Hl, Hd.
  destruct (bfill_lowertriangle_rget A low m n _ HA Hl) as (A1 & E1 & D1 & V1).
  destruct (bfill_diagonal_rget A1 diag m n _ D1 Hd) as (A12 & E12 & D12 & V12).
  destruct (bfill_diagonal_rget A diag m n _ HA Hd) as (A2 & E2 & D2 & V2).
  destruct (bfill_lowertriangle_rget A2 low m n _ D2 Hl) as (A21 & E21 & D21 & V21).
  exists A1, A12, A2, A21. repeat (split; [assumption|]).
  split; [congruence|]. rewrite D12. intros idx Hidx.
  inversion Hidx as [|c m' idx1 rd1 Hc Hr1]; subst.
  inversion Hr1 as [|r n' b rd2 Hr Hb]; subst.
  rewrite (V12 c r b Hb Hr Hc), (V21 c r b Hb Hr Hc),
    (V1 c r b Hb Hr Hc), (V2 c r b Hb Hr Hc).
  destruct (Nat.eqb_spec r c), (Nat.ltb_spec c r); try reflexivity; lia.
Qed.

Lemma bfill_diagonal_lowertriangle_commute_witness :
  exists A1 A12 A2 A21,
    bfill_lowertriangle (zeros [3; 3]%nat) (vec [1; 2; 3]) = Ok A1
    /\ bfill_diagonal A1 (vec [4; 5; 6]) = Ok A12
    /\ bfill_diagonal (zeros [3; 3]%nat) (vec [4; 5; 6]) = Ok A2
    /\ bfill_lowertriangle A2 (vec [1; 2; 3]) = Ok A21
    /\ tensor_eq A12 A21.
Proof.
  exact (bfill_diagonal_lowertriangle_commute (zeros [3; 3]%nat)
           (vec [1; 2; 3]) (vec [4; 5; 6]) [] 3 3 eq_refl eq_refl eq_refl).
Defined.
